(** * Playwright job service: validators, storage paths, downloads and runner

    A shallow embedding of the TypeScript modules [playwright/errors],
    [playwright/types], [playwright/validators], [playwright/storage],
    [playwright/downloads] and [playwright/runner] and of the Playwright
    endpoints of [server], followed by the properties established about
    them.

    Conventions.
    - JavaScript strings are modelled by [string]; a character stands for a
      code unit below 256.
    - Integral numbers (milliseconds, byte counts, counters) are [Z].
    - A thrown exception is the [Throw] outcome of a computation.
    - The text of an error message is kept as a constructor of [ErrMsg] with
      the interpolated values as arguments; every constructor quotes the
      template it stands for. *)

From Stdlib Require Import Ascii String ZArith NArith Lia Bool.
From stdpp Require Import base tactics option list strings gmap pretty.

Local Open Scope Z_scope.
Set Warnings "-register-all".

(** ** JavaScript strings *)

Module JsString.

Definition code (c : ascii) : N := N_of_ascii c.

Definition in_range (lo hi : N) (c : ascii) : bool :=
  ((lo <=? code c) && (code c <=? hi))%N.

Definition is_lower (c : ascii) : bool := in_range 97 122 c.
Definition is_upper (c : ascii) : bool := in_range 65 90 c.
Definition is_digit (c : ascii) : bool := in_range 48 57 c.
Definition is_alnum (c : ascii) : bool := is_lower c || is_upper c || is_digit c.

(** White space and line terminators of ECMAScript below code unit 256:
    TAB, LF, VT, FF, CR, SPACE and NBSP.  This is the class removed by
    [String.prototype.trim] and matched by [\s]. *)
Definition is_space (c : ascii) : bool :=
  in_range 9 13 c || (code c =? 32)%N || (code c =? 160)%N.

(** The class [[a-zA-Z0-9._-]]. *)
Definition is_safe_char (c : ascii) : bool :=
  is_alnum c || (code c =? 46)%N || (code c =? 95)%N || (code c =? 45)%N.

(** The class [[-_.]]. *)
Definition is_sep_char (c : ascii) : bool :=
  (code c =? 45)%N || (code c =? 95)%N || (code c =? 46)%N.

Definition to_list (s : string) : list ascii := list_ascii_of_string s.
Definition of_list (l : list ascii) : string := string_of_list_ascii l.

Definition all (p : ascii -> bool) (s : string) : bool := forallb p (to_list s).

Definition eqb (a b : string) : bool := bool_decide (a = b).

Fixpoint drop_while (p : ascii -> bool) (s : string) : string :=
  match s with
  | EmptyString => EmptyString
  | String c r => if p c then drop_while p r else s
  end.

Fixpoint take_while (p : ascii -> bool) (s : string) : string :=
  match s with
  | EmptyString => EmptyString
  | String c r => if p c then String c (take_while p r) else EmptyString
  end.

Definition drop_while_end (p : ascii -> bool) (s : string) : string :=
  of_list (rev (to_list (drop_while p (of_list (rev (to_list s)))))).

(** [s.trim()] *)
Definition trim (s : string) : string := drop_while_end is_space (drop_while is_space s).

Definition lower_char (c : ascii) : ascii :=
  if is_upper c || (in_range 192 222 c && negb (code c =? 215)%N)
  then ascii_of_N (code c + 32) else c.

(** [s.toLowerCase()] *)
Fixpoint toLowerCase (s : string) : string :=
  match s with
  | EmptyString => EmptyString
  | String c r => String (lower_char c) (toLowerCase r)
  end.

(** [s.startsWith(p)] *)
Definition startsWith (s p : string) : bool := String.prefix p s.

(** [s.endsWith(p)] *)
Definition endsWith (s p : string) : bool :=
  String.prefix (of_list (rev (to_list p))) (of_list (rev (to_list s))).

(** [s.split(sep)] for a one-character separator. *)
Fixpoint split (sep : ascii) (s : string) : list string :=
  match s with
  | EmptyString => [EmptyString]
  | String c r =>
      if bool_decide (c = sep) then EmptyString :: split sep r
      else match split sep r with
           | h :: t => String c h :: t
           | [] => [String c EmptyString]
           end
  end.

(** [l.join(sep)] *)
Fixpoint join (sep : string) (l : list string) : string :=
  match l with
  | [] => EmptyString
  | [x] => x
  | x :: r => x +:+ sep +:+ join sep r
  end.

(** [s.slice(0, -n)] for [n > 0]. *)
Definition drop_end (n : nat) (s : string) : string :=
  of_list (take (length (to_list s) - n)%nat (to_list s)).

(** Does [needle] occur in [s]? *)
Fixpoint contains (needle s : string) : bool :=
  String.prefix needle s ||
  match s with
  | EmptyString => false
  | String _ r => contains needle r
  end.

(** Replace every maximal run of characters of the class [p] by the single
    character [by]: [s.replace(/p+/g, by)]. *)
Fixpoint collapse_from (p : ascii -> bool) (by_ : ascii) (in_run : bool)
    (s : string) : string :=
  match s with
  | EmptyString => EmptyString
  | String c r =>
      if p c then
        if in_run then collapse_from p by_ true r
        else String by_ (collapse_from p by_ true r)
      else String c (collapse_from p by_ false r)
  end.

Definition collapse_runs (p : ascii -> bool) (by_ : ascii) (s : string) : string :=
  collapse_from p by_ false s.

(** Replace every character of the class [p] by [by_]: [s.replace(/p/g, by)]. *)
Fixpoint replace_each (p : ascii -> bool) (by_ : ascii) (s : string) : string :=
  match s with
  | EmptyString => EmptyString
  | String c r => String (if p c then by_ else c) (replace_each p by_ r)
  end.

Definition hex_digit (n : N) : ascii :=
  ascii_of_N (if (n <? 10)%N then 48 + n else 55 + n).

Definition percent (b : N) : string :=
  String "%" (String (hex_digit (b / 16)) (String (hex_digit (b mod 16)) EmptyString)).

(** The characters [encodeURIComponent] leaves as they are. *)
Definition is_unreserved (c : ascii) : bool :=
  is_alnum c || existsb (fun k => (code c =? k)%N) [45; 95; 46; 33; 126; 42; 39; 40; 41]%N.

(** [encodeURIComponent(s)]: the UTF-8 bytes of every other character,
    percent-encoded. *)
Fixpoint encodeURIComponent (s : string) : string :=
  match s with
  | EmptyString => EmptyString
  | String c r =>
      (if is_unreserved c then String c EmptyString
       else if (code c <? 128)%N then percent (code c)
       else percent (192 + code c / 64) +:+ percent (128 + code c mod 64))
      +:+ encodeURIComponent r
  end.

End JsString.

(** ** JavaScript values of a request payload *)

(** A number is either integral (with its value) or anything else: [NaN], an
    infinity or a finite non-integral value, kept by its rendering. *)
Inductive JsNumber :=
| NumInt (z : Z)
| NumOther (repr : string).

Inductive JsValue :=
| JUndefined
| JNull
| JBool (b : bool)
| JNumber (n : JsNumber)
| JString (s : string)
| JArray (items : list JsValue)
| JObject (fields : list (string * JsValue)).

(** A decoded URL: the three components the service reads. *)
Record URL := { protocol : string; hostname : string; pathname : string }.

(** What the service takes from the JavaScript engine and cannot be written
    down here in full: the WHATWG URL parser ([new URL(s)], [None] when the
    constructor throws), [StringToNumber] (the conversion [Number(s)] of a
    string), [Number.parseInt(s, 10)] ([None] when the result is [NaN] or not
    finite), the rendering of an integral number, and the working directory
    of the process ([process.cwd()]). *)
Class JsRuntime := {
  new_URL : string -> option URL;
  StringToNumber : string -> JsNumber;
  parseInt10 : string -> option Z;
  IntToString : Z -> string;
  process_cwd : string
}.

Module Js.
Import JsString.

Section WithRuntime.
Context `{JsRuntime}.

Definition NumberToString (n : JsNumber) : string :=
  match n with
  | NumInt z => IntToString z
  | NumOther r => r
  end.

(** [String(v)] of a value decoded from JSON; [None] when the conversion
    throws a [TypeError].  An object is converted by
    [Object.prototype.toString], unless it has a property [toString] of its
    own: that property holds no function, [valueOf] returns no primitive, and
    the object cannot be converted.  An array is converted by joining the
    conversions of its items, [null] and [undefined] counting as empty. *)
Fixpoint ToString (v : JsValue) : option string :=
  match v with
  | JUndefined => Some "undefined"
  | JNull => Some "null"
  | JBool b => Some (if b then "true" else "false")
  | JNumber n => Some (NumberToString n)
  | JString s => Some s
  | JArray items =>
      option_map (join ",")
        ((fix items_to_strings (l : list JsValue) : option (list string) :=
            match l with
            | [] => Some []
            | e :: r =>
                match match e with
                      | JUndefined | JNull => Some EmptyString
                      | _ => ToString e
                      end with
                | Some s => option_map (cons s) (items_to_strings r)
                | None => None
                end
            end) items)
  | JObject fields =>
      if existsb (eqb "toString") (map fst fields) then None
      else Some "[object Object]"
  end.

(** [Number(v)]; [None] when the conversion throws a [TypeError].  Objects
    and arrays are converted to a string first. *)
Definition ToNumber (v : JsValue) : option JsNumber :=
  match v with
  | JUndefined => Some (NumOther "NaN")
  | JNull => Some (NumInt 0)
  | JBool b => Some (NumInt (if b then 1 else 0))
  | JNumber n => Some n
  | JString s => Some (StringToNumber s)
  | JArray _ | JObject _ => option_map StringToNumber (ToString v)
  end.
End WithRuntime.

(** [o[k]] on a plain object: [undefined] when the key is absent. *)
Fixpoint get (fields : list (string * JsValue)) (k : string) : JsValue :=
  match fields with
  | [] => JUndefined
  | (k', v) :: r => if eqb k' k then v else get r k
  end.

(** [Object.keys(o)] *)
Definition keys (fields : list (string * JsValue)) : list string := map fst fields.

(** [v === undefined || v === null || v === ''] *)
Definition is_blank (v : JsValue) : bool :=
  match v with
  | JUndefined | JNull => true
  | JString s => eqb s EmptyString
  | _ => false
  end.

(** Is [v] truthy? *)
Definition truthy (v : JsValue) : bool :=
  match v with
  | JUndefined | JNull => false
  | JBool b => b
  | JNumber (NumInt z) => negb (z =? 0)
  | JNumber (NumOther r) => negb (eqb r "NaN")
  | JString s => negb (eqb s EmptyString)
  | JArray _ | JObject _ => true
  end.

(** [o || d] for an optional string. *)
Definition or_default (o : option string) (d : string) : string :=
  match o with
  | Some v => if eqb v EmptyString then d else v
  | None => d
  end.

(** [{ action: key, ...nested }]: [action] comes first and takes the value
    [nested] has for it, if any; the other properties of [nested] follow. *)
Definition spread_action (key : string) (nested : list (string * JsValue))
  : list (string * JsValue) :=
  ("action", if existsb (eqb "action") (keys nested)
             then get nested "action" else JString key)
    :: filter (fun kv => kv.1 ≠ "action") nested.
End Js.

(** ** errors.ts *)

(** Message templates of the [PlaywrightHttpError]s raised by the service. *)
Inductive ErrMsg :=
| MRequired (field : string)          (* Campo "<field>" e obrigatorio. *)
| MSessionInvalid (field : string)    (* Campo "<field>" invalido. Use apenas letras, ... *)
| MUrlInvalid (field : string)        (* Campo "<field>" deve conter URL valida. *)
| MDomainBlocked (field : string) (allowed : list string)
                                      (* Dominio bloqueado em "<field>". Permitidos: ... *)
| MNoActions                          (* Envie pelo menos 1 action em "actions". *)
| MTooManyActions (max : Z)           (* Limite excedido: maximo de <max> actions por job. *)
| MActionsNotArray                    (* Campo "actions" deve ser um array. *)
| MActionInvalid (path name : string) (* <path>.action invalida: "<name>". *)
| MWaitForNeedsArg (path : string)    (* <path>: informe "selector" e/ou "timeoutMs" para waitFor. *)
| MActionUnsupported (path : string)  (* <path>.action nao suportada. *)
| MNeedAction (path : string)         (* <path> deve conter "action" ou formato curto ... *)
| MShortInvalid (path key : string)   (* <path> action curta invalida: "<key>". *)
| MNotPositiveInt (field : string)    (* Campo "<field>" deve ser inteiro positivo. *)
| MExceeds (field : string) (max : Z) (* Campo "<field>" excede limite de <max>. *)
| MEnumInvalid (field : string) (allowed : list string)
                                      (* Campo "<field>" invalido. Aceitos: ... *)
| MNotBoolean (field : string)        (* Campo "<field>" deve ser boolean. *)
| MNotHttp (field : string)           (* Campo "<field>" deve usar http/https. *)
| MKeyNotAllowed (path key : string)  (* <path> contem campo nao permitido: "<key>". *)
| MNotObject (field : string)         (* Campo "<field>" deve ser objeto. *)
| MNotString (field : string)         (* Campo "<field>" deve ser string. *)
| MJobIdInvalid                       (* jobId invalido. *)
| MScreenshotEmpty                    (* Nome de screenshot nao pode ser vazio. *)
| MScreenshotInvalid                  (* Nome de screenshot invalido. *)
| MFileNameInvalid                    (* Nome de arquivo invalido. *)
| MOutsideRoot (label : string)       (* Tentativa de acesso invalido em <label>. *)
| MDownloadTimeout (timeoutMs : Z)    (* Timeout ao baixar uploadFromUrl (<ms>ms). *)
| MDownloadNetwork                    (* Falha de rede ao baixar uploadFromUrl. *)
| MDownloadStatus (status : Z)        (* Falha ao baixar uploadFromUrl: HTTP <status>. *)
| MDownloadNotImage (contentType : string)
                                      (* uploadFromUrl permite apenas image/*, recebido: ... *)
| MDownloadTooLarge (maxBytes : Z)    (* Arquivo em uploadFromUrl excede limite de <n>MB. *)
| MDownloadNoBody                     (* uploadFromUrl retornou resposta sem body. *)
| MDownloadEmpty                      (* uploadFromUrl retornou arquivo vazio. *)
| MUploadMissing (path : string)      (* Arquivo local nao encontrado para upload: <path> *)
| MJobTimeoutBefore (action : string) (* Timeout total do job antes da action "<action>". *)
| MJobTimeout                         (* Timeout total do job atingido. *)
| MStepTimeout (step : nat) (action : string)
                                      (* Timeout na action <step> (<action>). *)
| MStepFailed (step : nat) (action : string)
                                      (* Falha na action <step> (<action>). *)
| MUnsupported (action : string).     (* Action nao suportada: <action> *)

(** The [details] object attached by [normalizeActionError]. *)
Record ErrDetails := { d_step : nat; d_action : string; d_reason : string }.

(** [PlaywrightHttpError] *)
Record PlaywrightHttpError := {
  statusCode : Z;
  message : ErrMsg;
  details : option ErrDetails
}.

(** A thrown value: a [PlaywrightHttpError] or any other [Error], of which
    only [name] and [message] are read. *)
Inductive Exn :=
| HttpErr (e : PlaywrightHttpError)
| JsErr (name msg : string).

Definition http (status : Z) (m : ErrMsg) : Exn :=
  HttpErr {| statusCode := status; message := m; details := None |}.

(** The outcome of a call that returns or throws. *)
Inductive Result (A : Type) :=
| Ok (a : A)
| Throw (e : Exn).
Arguments Ok {A} a.
Arguments Throw {A} e.

Global Instance result_ret : MRet Result := fun A a => Ok a.
Global Instance result_bind : MBind Result := fun A B k r =>
  match r with
  | Ok a => k a
  | Throw e => Throw e
  end.

(** The [TypeError] of a conversion to a primitive value that has failed. *)
Definition TypeError_primitive : Exn :=
  JsErr "TypeError" "Cannot convert object to primitive value".

(** [String(v)] and [Number(v)] as calls that return or throw. *)
Definition Js_String `{JsRuntime} (v : JsValue) : Result string :=
  match Js.ToString v with
  | Some s => Ok s
  | None => Throw TypeError_primitive
  end.

Definition Js_Number `{JsRuntime} (v : JsValue) : Result JsNumber :=
  match Js.ToNumber v with
  | Some n => Ok n
  | None => Throw TypeError_primitive
  end.

(** [returns P r]: if [r] is a value, it satisfies [P]. *)
Definition returns {A} (P : A -> Prop) (r : Result A) : Prop :=
  match r with
  | Ok a => P a
  | Throw _ => True
  end.

(** [isPlaywrightTimeoutError]: the name is [TimeoutError] or the message
    matches [/timeout/i]. *)
Definition isPlaywrightTimeoutError (e : Exn) : bool :=
  match e with
  | HttpErr _ => false
  | JsErr name msg =>
      JsString.eqb name "TimeoutError"
      || JsString.contains "timeout" (JsString.toLowerCase msg)
  end.

(** ** types.ts *)

Inductive PlaywrightAction :=
| GotoAction (url : string) (waitUntil : option string)
| ClickAction (selector : string) (delayMs : option Z)
| FillAction (selector text : string)
| PressAction (selector key : string)
| WaitForAction (selector : option string) (state : option string) (timeoutMs : option Z)
| UploadAction (selector path : string)
| UploadFromUrlAction (selector url : string)
| ScreenshotAction (name : string) (fullPage : option bool)
| ExtractTextAction (selector key : string)
| ExtractAttrAction (selector attr key : string)
| SaveStorageAction (session : string)
| EvaluateAction (script : string) (arg : JsValue) (key : option string).

(** The [action] tag of an action. *)
Definition action_name (a : PlaywrightAction) : string :=
  match a with
  | GotoAction _ _ => "goto"
  | ClickAction _ _ => "click"
  | FillAction _ _ => "fill"
  | PressAction _ _ => "press"
  | WaitForAction _ _ _ => "waitFor"
  | UploadAction _ _ => "upload"
  | UploadFromUrlAction _ _ => "uploadFromUrl"
  | ScreenshotAction _ _ => "screenshot"
  | ExtractTextAction _ _ => "extractText"
  | ExtractAttrAction _ _ _ => "extractAttr"
  | SaveStorageAction _ => "saveStorage"
  | EvaluateAction _ _ _ => "evaluate"
  end.

Record Proxy := { server : string; username : option string; password : option string }.
Record Viewport := { width : Z; height : Z }.

Record PlaywrightRunRequest := {
  session : option string;
  timeoutMs : Z;
  proxy : option Proxy;
  blockResources : option (list string);
  userAgent : option string;
  viewport : option Viewport;
  actions : list PlaywrightAction
}.

Record PlaywrightRunnerConfig := {
  allowDomains : list string;
  storageDir : string;
  outputDir : string;
  tmpDir : string;
  artifactsRoutePrefix : string;
  defaultTimeoutMs : Z;
  maxUploadBytes : Z;
  maxUploadDownloadTimeoutMs : Z
}.

Record PlaywrightArtifact := { a_name : string; a_filename : string; a_url : string }.
Record PlaywrightStorageOutput := { s_session : string; s_file : string }.

Record PlaywrightJobOutputs := {
  artifacts : list PlaywrightArtifact;
  extracted : gmap string JsValue;
  storage : list PlaywrightStorageOutput
}.

(** ** validators.ts *)

Module Validators.
Import JsString.

Definition WAIT_UNTIL_VALUES : list string :=
  ["load"; "domcontentloaded"; "networkidle"; "commit"].
Definition WAIT_FOR_STATE_VALUES : list string :=
  ["attached"; "detached"; "visible"; "hidden"].
Definition ACTION_NAMES : list string :=
  ["goto"; "click"; "fill"; "press"; "waitFor"; "upload"; "uploadFromUrl";
   "screenshot"; "extractText"; "extractAttr"; "saveStorage"].

(** [set.has(x)] *)
Definition has (set : list string) (x : string) : bool := bool_decide (x ∈ set).

(** [Array.from(new Set(l))]: first occurrences, in order. *)
Fixpoint dedupe_from (seen l : list string) : list string :=
  match l with
  | [] => []
  | x :: r => if has seen x then dedupe_from seen r
              else x :: dedupe_from (x :: seen) r
  end.

Definition parseAllowDomains (rawValue : option string) : list string :=
  match rawValue with
  | None => []
  | Some raw =>
      if eqb raw EmptyString || eqb (trim raw) EmptyString then []
      else dedupe_from []
             (filter (fun item => item ≠ EmptyString)
                (map (fun item => toLowerCase (trim item)) (split "," raw)))
  end.

(** [/^[a-zA-Z0-9._-]{1,64}$/.test(s)] *)
Definition SESSION_REGEX (s : string) : bool :=
  (1 <=? String.length s)%nat && (String.length s <=? 64)%nat && all is_safe_char s.

Definition validateSessionName (value : JsValue) (fieldName : string) : Result string :=
  match value with
  | JString v =>
      if eqb (trim v) EmptyString then Throw (http 400 (MRequired fieldName))
      else
        let session := trim v in
        if negb (SESSION_REGEX session) then Throw (http 400 (MSessionInvalid fieldName))
        else Ok session
  | _ => Throw (http 400 (MRequired fieldName))
  end.

Definition parseOptionalSession (value : JsValue) : Result (option string) :=
  if Js.is_blank value then Ok None
  else s ← validateSessionName value "session"; Ok (Some s).

Definition requireObject (value : JsValue) (fieldName : string)
  : Result (list (string * JsValue)) :=
  match value with
  | JObject fields => Ok fields
  | _ => Throw (http 400 (MNotObject fieldName))
  end.

Definition requireNonEmptyString (value : JsValue) (fieldName : string) : Result string :=
  match value with
  | JString v => if eqb (trim v) EmptyString then Throw (http 400 (MRequired fieldName))
                 else Ok (trim v)
  | _ => Throw (http 400 (MRequired fieldName))
  end.

Definition requireString (value : JsValue) (fieldName : string) : Result string :=
  match value with
  | JString v => Ok v
  | _ => Throw (http 400 (MNotString fieldName))
  end.

Fixpoint assertOnlyAllowedKeys_loop (ks allowedKeys : list string) (fieldName : string)
  : Result unit :=
  match ks with
  | [] => Ok tt
  | k :: r => if negb (has allowedKeys k) then Throw (http 400 (MKeyNotAllowed fieldName k))
              else assertOnlyAllowedKeys_loop r allowedKeys fieldName
  end.

Definition assertOnlyAllowedKeys (value : list (string * JsValue))
    (allowedKeys : list string) (fieldName : string) : Result unit :=
  assertOnlyAllowedKeys_loop (Js.keys value) allowedKeys fieldName.

Definition parseOptionalBoolean (value : JsValue) (fieldName : string)
  : Result (option bool) :=
  if Js.is_blank value then Ok None
  else match value with
       | JBool b => Ok (Some b)
       | _ => Throw (http 400 (MNotBoolean fieldName))
       end.

Section WithRuntime.
Context `{JsRuntime}.

Definition assertAllowedDomain (urlValue : string) (allowDomains : list string)
    (fieldName : string) : Result unit :=
  if (length allowDomains =? 0)%nat then Ok tt
  else
    match new_URL urlValue with
    | None => Throw (http 400 (MUrlInvalid fieldName))
    | Some parsed =>
        let host := toLowerCase (hostname parsed) in
        let isAllowed :=
          existsb (fun domain => eqb host domain || endsWith host ("." +:+ domain))
            allowDomains in
        if negb isAllowed then Throw (http 400 (MDomainBlocked fieldName allowDomains))
        else Ok tt
    end.

Definition parsePositiveInteger (value : JsValue) (fieldName : string) (maxValue : Z)
  : Result Z :=
  parsed ← Js_Number value;
  match parsed with
  | NumOther _ => Throw (http 400 (MNotPositiveInt fieldName))
  | NumInt parsed =>
      if parsed <=? 0 then Throw (http 400 (MNotPositiveInt fieldName))
      else if parsed >? maxValue then Throw (http 400 (MExceeds fieldName maxValue))
      else Ok parsed
  end.

Definition parseTimeoutMs (value : JsValue) (defaultValue : Z) : Result Z :=
  if Js.is_blank value then Ok defaultValue
  else parsePositiveInteger value "timeoutMs" 600000.

Definition parseOptionalPositiveInteger (value : JsValue) (fieldName : string)
    (maxValue : Z) : Result (option Z) :=
  if Js.is_blank value then Ok None
  else n ← parsePositiveInteger value fieldName maxValue; Ok (Some n).

Definition parseOptionalEnum (value : JsValue) (allowed : list string)
    (fieldName : string) : Result (option string) :=
  if Js.is_blank value then Ok None
  else
    parsed ← Js_String value;
    if negb (has allowed parsed) then Throw (http 400 (MEnumInvalid fieldName allowed))
    else Ok (Some parsed).

Definition requireHttpUrl (value : JsValue) (fieldName : string) : Result string :=
  url ← requireNonEmptyString value fieldName;
  match new_URL url with
  | None => Throw (http 400 (MUrlInvalid fieldName))
  | Some parsed =>
      if negb (eqb (protocol parsed) "http:") && negb (eqb (protocol parsed) "https:")
      then Throw (http 400 (MNotHttp fieldName))
      else Ok url
  end.

Definition normalizeActionObject (value : JsValue) (fieldName : string)
  : Result (list (string * JsValue)) :=
  raw ← requireObject value fieldName;
  match Js.get raw "action" with
  | JString _ => Ok raw
  | _ =>
      match Js.keys raw with
      | [key] =>
          let nested := Js.get raw key in
          if negb (has ACTION_NAMES key)
          then Throw (http 400 (MShortInvalid fieldName key))
          else
            nestedObject ← requireObject nested (fieldName +:+ "." +:+ key);
            Ok (Js.spread_action key nestedObject)
      | _ => Throw (http 400 (MNeedAction fieldName))
      end
  end.

Definition parseAction (rawAction : JsValue) (index : nat) (allowDomains : list string)
  : Result PlaywrightAction :=
  let actionPath := "actions[" +:+ pretty index +:+ "]" in
  normalized ← normalizeActionObject rawAction actionPath;
  actionName ← Js_String (Js.get normalized "action");
  let field k := Js.get normalized k in
  let at_ k := actionPath +:+ "." +:+ k in
  if negb (has ACTION_NAMES actionName)
  then Throw (http 400 (MActionInvalid actionPath actionName))
  else if eqb actionName "goto" then
    assertOnlyAllowedKeys normalized ["action"; "url"; "waitUntil"] actionPath;;
    url ← requireHttpUrl (field "url") (at_ "url");
    assertAllowedDomain url allowDomains (at_ "url");;
    waitUntil ← parseOptionalEnum (field "waitUntil") WAIT_UNTIL_VALUES (at_ "waitUntil");
    Ok (GotoAction url waitUntil)
  else if eqb actionName "click" then
    assertOnlyAllowedKeys normalized ["action"; "selector"; "delayMs"] actionPath;;
    selector ← requireNonEmptyString (field "selector") (at_ "selector");
    delayMs ← parseOptionalPositiveInteger (field "delayMs") (at_ "delayMs") 10000;
    Ok (ClickAction selector delayMs)
  else if eqb actionName "fill" then
    assertOnlyAllowedKeys normalized ["action"; "selector"; "text"] actionPath;;
    selector ← requireNonEmptyString (field "selector") (at_ "selector");
    text ← requireString (field "text") (at_ "text");
    Ok (FillAction selector text)
  else if eqb actionName "press" then
    assertOnlyAllowedKeys normalized ["action"; "selector"; "key"] actionPath;;
    selector ← requireNonEmptyString (field "selector") (at_ "selector");
    key ← requireNonEmptyString (field "key") (at_ "key");
    Ok (PressAction selector key)
  else if eqb actionName "waitFor" then
    assertOnlyAllowedKeys normalized ["action"; "selector"; "state"; "timeoutMs"]
      actionPath;;
    selector ← (if Js.is_blank (field "selector") then Ok None
                else s ← requireNonEmptyString (field "selector") (at_ "selector");
                     Ok (Some s));
    state ← parseOptionalEnum (field "state") WAIT_FOR_STATE_VALUES (at_ "state");
    timeoutMs ← parseOptionalPositiveInteger (field "timeoutMs") (at_ "timeoutMs") 120000;
    match selector, timeoutMs with
    | None, None => Throw (http 400 (MWaitForNeedsArg actionPath))
    | _, _ => Ok (WaitForAction selector state timeoutMs)
    end
  else if eqb actionName "upload" then
    assertOnlyAllowedKeys normalized ["action"; "selector"; "path"] actionPath;;
    selector ← requireNonEmptyString (field "selector") (at_ "selector");
    localPath ← requireNonEmptyString (field "path") (at_ "path");
    Ok (UploadAction selector localPath)
  else if eqb actionName "uploadFromUrl" then
    assertOnlyAllowedKeys normalized ["action"; "selector"; "url"] actionPath;;
    selector ← requireNonEmptyString (field "selector") (at_ "selector");
    url ← requireHttpUrl (field "url") (at_ "url");
    assertAllowedDomain url allowDomains (at_ "url");;
    Ok (UploadFromUrlAction selector url)
  else if eqb actionName "screenshot" then
    assertOnlyAllowedKeys normalized ["action"; "name"; "fullPage"] actionPath;;
    name ← requireNonEmptyString (field "name") (at_ "name");
    fullPage ← parseOptionalBoolean (field "fullPage") (at_ "fullPage");
    Ok (ScreenshotAction name fullPage)
  else if eqb actionName "extractText" then
    assertOnlyAllowedKeys normalized ["action"; "selector"; "key"] actionPath;;
    selector ← requireNonEmptyString (field "selector") (at_ "selector");
    key ← requireNonEmptyString (field "key") (at_ "key");
    Ok (ExtractTextAction selector key)
  else if eqb actionName "extractAttr" then
    assertOnlyAllowedKeys normalized ["action"; "selector"; "attr"; "key"] actionPath;;
    selector ← requireNonEmptyString (field "selector") (at_ "selector");
    attr ← requireNonEmptyString (field "attr") (at_ "attr");
    key ← requireNonEmptyString (field "key") (at_ "key");
    Ok (ExtractAttrAction selector attr key)
  else if eqb actionName "saveStorage" then
    assertOnlyAllowedKeys normalized ["action"; "session"] actionPath;;
    session ← validateSessionName (field "session") (at_ "session");
    Ok (SaveStorageAction session)
  else Throw (http 400 (MActionUnsupported actionPath)).

(** [actionsRaw.map((rawAction, index) => parseAction(...))], from [index] on. *)
Fixpoint parseActions (actionsRaw : list JsValue) (index : nat)
    (allowDomains : list string) : Result (list PlaywrightAction) :=
  match actionsRaw with
  | [] => Ok []
  | rawAction :: rest =>
      a ← parseAction rawAction index allowDomains;
      l ← parseActions rest (S index) allowDomains;
      Ok (a :: l)
  end.

Definition resolveActionsArray (payload : list (string * JsValue))
  : Result (list JsValue) :=
  match Js.get payload "actions" with
  | JArray actions => Ok actions
  | _ =>
      match Js.get payload "commands" with
      | JArray commands => Ok commands
      | _ => Throw (http 400 MActionsNotArray)
      end
  end.

Record Options := {
  maxActions : Z;
  opt_defaultTimeoutMs : Z;
  opt_allowDomains : list string
}.

Definition parseRunRequestBody (body : JsValue) (options : Options)
  : Result PlaywrightRunRequest :=
  payload ← requireObject body "body";
  session ← parseOptionalSession (Js.get payload "session");
  timeoutMs ← parseTimeoutMs (Js.get payload "timeoutMs") (opt_defaultTimeoutMs options);
  actionsRaw ← resolveActionsArray payload;
  if (length actionsRaw =? 0)%nat then Throw (http 400 MNoActions)
  else if Z.of_nat (length actionsRaw) >? maxActions options
  then Throw (http 400 (MTooManyActions (maxActions options)))
  else
    actions ← parseActions actionsRaw 0 (opt_allowDomains options);
    Ok {| session := session; timeoutMs := timeoutMs; proxy := None;
          blockResources := None; userAgent := None; viewport := None;
          actions := actions |}.
End WithRuntime.
End Validators.

(** ** node:path (POSIX) *)

Module Path.
Import JsString.

(** One segment of [normalizeString] against the segments kept so far
    (innermost first): empty and [.] segments are dropped, [..] removes the
    last kept segment, or is itself kept when nothing can be removed and the
    path may climb above its start. *)
Definition norm_step (allowAboveRoot : bool) (kept : list string) (seg : string)
  : list string :=
  if eqb seg EmptyString || eqb seg "." then kept
  else if eqb seg ".." then
    match kept with
    | top :: below =>
        if eqb top ".." then (if allowAboveRoot then ".." :: kept else kept)
        else below
    | [] => if allowAboveRoot then [".."] else []
    end
  else seg :: kept.

Definition normalizeString (path : string) (allowAboveRoot : bool) : string :=
  join "/" (rev (fold_left (norm_step allowAboveRoot) (split "/" path) [])).

Definition isAbsolute (path : string) : bool := startsWith path "/".

(** The loop of [path.resolve]: arguments are taken from the right until an
    absolute one has been prepended. *)
Fixpoint resolve_loop (args_from_right : list string) (resolvedPath : string)
  : string * bool :=
  match args_from_right with
  | [] => (resolvedPath, false)
  | path :: rest =>
      if eqb path EmptyString then resolve_loop rest resolvedPath
      else
        let resolvedPath := path +:+ "/" +:+ resolvedPath in
        if isAbsolute path then (resolvedPath, true)
        else resolve_loop rest resolvedPath
  end.

Section WithRuntime.
Context `{JsRuntime}.

(** [path.resolve(...args)] *)
Definition resolve (args : list string) : string :=
  let '(resolvedPath, resolvedAbsolute) :=
    resolve_loop (rev args ++ [process_cwd]) EmptyString in
  let resolvedPath := normalizeString resolvedPath (negb resolvedAbsolute) in
  if resolvedAbsolute then "/" +:+ resolvedPath
  else if eqb resolvedPath EmptyString then "." else resolvedPath.
End WithRuntime.

(** [path.normalize(path)] *)
Definition normalize (path : string) : string :=
  if eqb path EmptyString then "."
  else
    let isAbs := isAbsolute path in
    let trailingSeparator := endsWith path "/" in
    let path := normalizeString path (negb isAbs) in
    if eqb path EmptyString then
      if isAbs then "/" else if trailingSeparator then "./" else "."
    else
      let path := if trailingSeparator then path +:+ "/" else path in
      if isAbs then "/" +:+ path else path.

(** [path.join(...args)] *)
Definition join (args : list string) : string :=
  match filter (fun a => a ≠ EmptyString) args with
  | [] => "."
  | parts => normalize (JsString.join "/" parts)
  end.

(** [path.basename(path)]: the last non-empty segment. *)
Definition basename (path : string) : string :=
  match filter (fun a => a ≠ EmptyString) (rev (split "/" path)) with
  | [] => EmptyString
  | b :: _ => b
  end.

Definition is_dot (c : ascii) : bool := (code c =? 46)%N.

(** [path.extname(path)]: from the last dot of the base name on, unless
    there is none, the base name starts with it, or the base name is [..]. *)
Definition extname (path : string) : string :=
  let b := basename path in
  let r := rev (to_list b) in
  let after := to_list (take_while (fun c => negb (is_dot c)) (of_list r)) in
  match drop (length after) r with
  | [] => EmptyString
  | dot :: before =>
      match before with
      | [] => EmptyString
      | _ => if eqb b ".." then EmptyString else of_list (dot :: rev after)
      end
  end.
End Path.

(** ** storage.ts (the functions that do not touch the file system) *)

Module Storage.
Import JsString.

(** [/^[a-zA-Z0-9._-]+$/.test(s)] *)
Definition SAFE_FILENAME_REGEX (s : string) : bool :=
  negb (eqb s EmptyString) && all is_safe_char s.

Definition is_hex (c : ascii) : bool :=
  is_digit c || in_range 97 102 c || in_range 65 70 c.

(** The UUID pattern, case-insensitive: groups of 8, 4, 4, 4 and 12
    hexadecimal digits, the third starting with [1-5] and the fourth with
    one of [89ab]. *)
Definition UUID_REGEX (s : string) : bool :=
  match split "-" s with
  | [g1; g2; g3; g4; g5] =>
      (String.length g1 =? 8)%nat && all is_hex g1
      && (String.length g2 =? 4)%nat && all is_hex g2
      && (String.length g3 =? 4)%nat && all is_hex g3
      && match g3 with String c _ => in_range 49 53 c | _ => false end
      && (String.length g4 =? 4)%nat && all is_hex g4
      && match g4 with
         | String c _ => in_range 56 57 c || in_range 97 98 c || in_range 65 66 c
         | _ => false
         end
      && (String.length g5 =? 12)%nat && all is_hex g5
  | _ => false
  end.

Definition validateJobId (value : string) : Result unit :=
  if negb (UUID_REGEX value) then Throw (http 400 MJobIdInvalid) else Ok tt.

Definition sanitizeArtifactFilename (name : string) : Result string :=
  let trimmed := trim name in
  if eqb trimmed EmptyString then Throw (http 400 MScreenshotEmpty)
  else
    let collapsed :=
      drop_while_end is_sep_char
        (drop_while is_sep_char
           (collapse_runs (fun c => (code c =? 45)%N) "-"
              (collapse_runs (fun c => (code c =? 95)%N) "_"
                 (replace_each (fun c => negb (is_safe_char c)) "_"
                    (collapse_runs is_space "-" trimmed))))) in
    let base := if eqb collapsed EmptyString then "screenshot" else collapsed in
    let withPng := if endsWith (toLowerCase base) ".png" then base else base +:+ ".png" in
    if negb (SAFE_FILENAME_REGEX withPng) then Throw (http 400 MScreenshotInvalid)
    else Ok withPng.

Definition validateArtifactFilename (filename : string) : Result unit :=
  if negb (SAFE_FILENAME_REGEX filename) then Throw (http 400 MFileNameInvalid)
  else if eqb filename "." || eqb filename ".." then Throw (http 400 MFileNameInvalid)
  else Ok tt.

Section WithRuntime.
Context `{JsRuntime}.

Definition resolveInsideRoot (rootDir targetPath label : string) : Result string :=
  let rootResolved := Path.resolve [rootDir] in
  let resolved := Path.resolve [rootDir; targetPath] in
  if eqb resolved rootResolved then Ok resolved
  else if negb (startsWith resolved (rootResolved +:+ "/"))
  then Throw (http 400 (MOutsideRoot label))
  else Ok resolved.

Definition getSessionStatePath (storageDir session : string) : Result string :=
  safeSession ← Validators.validateSessionName (JString session) "session";
  let fileName := safeSession +:+ ".json" in
  resolveInsideRoot storageDir fileName "session file".

Definition resolveArtifactPath (outputDir jobId filename : string) : Result string :=
  validateJobId jobId;;
  validateArtifactFilename filename;;
  resolveInsideRoot outputDir (Path.join [jobId; filename]) "artifact file".

Definition resolveLocalUploadPath (filePath : string) : string :=
  let absolutePath := Path.resolve [filePath] in
  absolutePath.
End WithRuntime.
End Storage.

(** ** The world a job runs in *)

(** A request issued to the browser, the network or the file system. *)
Inductive Call :=
| CallMkdir (dirs : list string)
| CallLaunch (proxy : option Proxy)
| CallNewContext (storageState : option string) (viewport : Viewport)
    (userAgent : string) (proxy : option Proxy)
| CallNewPage
| CallAddInitScript
| CallSetDefaultTimeout (timeout : Z)
| CallRoute (blocked : list string)
| CallGoto (url waitUntil : string) (timeout : Z)
| CallClick (selector : string) (timeout : Z) (delay : option Z)
| CallFill (selector text : string) (timeout : Z)
| CallPress (selector key : string) (timeout : Z)
| CallWaitForSelector (selector : string) (timeout : Z) (state : string)
| CallWaitForTimeout (timeout : Z)
| CallSetInputFiles (selector files : string) (timeout : Z)
| CallFetch (url : string) (timeoutMs : Z)
| CallScreenshot (path : string) (fullPage : bool) (timeout : Z)
| CallTextContent (selector : string) (timeout : Z)
| CallGetAttribute (selector attr : string) (timeout : Z)
| CallStorageState (path : string)
| CallEvaluate (script : string) (arg : JsValue)
| CallCloseContext
| CallCloseBrowser
| CallRm (path : string).

(** How a promise settles. *)
Inductive Answer :=
| Resolved (v : JsValue)
| Rejected (e : Exn).

(** The body of an HTTP response: the chunks read from the stream and the
    error, if any, with which the stream breaks off after them. *)
Record Body := { chunks : list (list Byte.byte); breaks : option Exn }.

Record Response := {
  r_ok : bool;
  r_status : Z;
  content_type : option string;
  content_length : option string;
  r_body : option Body
}.

(** An event of the page delivered to the listeners of the job. *)
Inductive PageEvent :=
| ConsoleMessage (type text : string)
| PageError (msg : string).

(** Everything outside the service, as an oracle: the readings of the wall
    clock in the order they are taken, the identifier [randomUUID()] returns,
    and for the n-th call issued how it settles, the response [fetch] resolves
    to, and the page events delivered while it is pending.  A write stream
    opens its file asynchronously: [opened n] tells whether the file of the
    stream made after [n] calls has been created by the time the pipeline of
    that stream fails. *)
Record World := {
  clock : nat -> Z;
  randomUUID : string;
  answer : nat -> Answer;
  response : nat -> Response;
  events : nat -> list PageEvent;
  opened : nat -> bool
}.

(** The [message] of the error a job fails with: a template of the service
    or the text of a foreign error. *)
Inductive Message :=
| Templ (m : ErrMsg)
| Raw (s : string).

(** [`${i + 1}/${request.actions.length} ${action.action}`] *)
Record StepLabel := { l_pos : nat; l_total : nat; l_action : string }.

(** The lines [appendLog] is called with. *)
Inductive LogMsg :=
| LJobStart (jobId : string) (nactions : nat) (session : string) (timeout_ms : Z)
                                     (* [playwright] start job=.. actions=.. *)
| LLoadedStorage (session : string)  (* [playwright] loaded storageState session=.. *)
| LNoStorage (session : string)      (* [playwright] no storageState found for session=.. *)
| LConsole (type text : string)      (* [browser:console:<type>] <text> *)
| LPageError (text : string)         (* [browser:pageerror] <text> *)
| LStepStart (label : StepLabel)     (* [step] start <label> *)
| LStepDone (label : StepLabel) (took_ms : Z)
                                     (* [step] done <label> took_ms=.. *)
| LDownloaded (bytes : Z) (file : string)
                                     (* [step] uploadFromUrl downloaded bytes=.. file=.. *)
| LSaveStorage (session file : string)
                                     (* [step] saveStorage session=.. file=.. *)
| LEvaluate (script_len : nat) (result : JsValue)
                                     (* [step] evaluate script_len=.. result=.. *)
| LSuccess (jobId : string) (took_ms : Z)
                                     (* [playwright] success job=.. took_ms=.. *)
| LError (jobId : string) (status : Z) (msg : Message).
                                     (* [playwright] error job=.. status=.. message=.. *)

(** A log line with the clock reading of its time stamp. *)
Record LogEntry := { at_ms : Z; line : LogMsg }.

(** The mutable state of a job and of the file system around it: the number
    of clock readings taken, the calls issued so far, the [logs] array, the
    [outputs] object, the regular files that exist, whether the page listeners
    are attached, and the variables [browser], [context] and
    [tmpPathToCleanup] of [runPlaywrightJob]. *)
Record JobState := {
  ticks : nat;
  calls : list Call;
  logs : list LogEntry;
  outputs : PlaywrightJobOutputs;
  files : gset string;
  listening : bool;
  browser : bool;
  context : bool;
  tmpPathToCleanup : string
}.

Definition set_ticks f (st : JobState) : JobState :=
  {| ticks := f (ticks st); calls := calls st; logs := logs st; outputs := outputs st;
     files := files st; listening := listening st; browser := browser st;
     context := context st; tmpPathToCleanup := tmpPathToCleanup st |}.
Definition set_calls f (st : JobState) : JobState :=
  {| ticks := ticks st; calls := f (calls st); logs := logs st; outputs := outputs st;
     files := files st; listening := listening st; browser := browser st;
     context := context st; tmpPathToCleanup := tmpPathToCleanup st |}.
Definition set_logs f (st : JobState) : JobState :=
  {| ticks := ticks st; calls := calls st; logs := f (logs st); outputs := outputs st;
     files := files st; listening := listening st; browser := browser st;
     context := context st; tmpPathToCleanup := tmpPathToCleanup st |}.
Definition set_outputs f (st : JobState) : JobState :=
  {| ticks := ticks st; calls := calls st; logs := logs st; outputs := f (outputs st);
     files := files st; listening := listening st; browser := browser st;
     context := context st; tmpPathToCleanup := tmpPathToCleanup st |}.
Definition set_files f (st : JobState) : JobState :=
  {| ticks := ticks st; calls := calls st; logs := logs st; outputs := outputs st;
     files := f (files st); listening := listening st; browser := browser st;
     context := context st; tmpPathToCleanup := tmpPathToCleanup st |}.
Definition set_listening b (st : JobState) : JobState :=
  {| ticks := ticks st; calls := calls st; logs := logs st; outputs := outputs st;
     files := files st; listening := b; browser := browser st;
     context := context st; tmpPathToCleanup := tmpPathToCleanup st |}.
Definition set_browser b (st : JobState) : JobState :=
  {| ticks := ticks st; calls := calls st; logs := logs st; outputs := outputs st;
     files := files st; listening := listening st; browser := b;
     context := context st; tmpPathToCleanup := tmpPathToCleanup st |}.
Definition set_context b (st : JobState) : JobState :=
  {| ticks := ticks st; calls := calls st; logs := logs st; outputs := outputs st;
     files := files st; listening := listening st; browser := browser st;
     context := b; tmpPathToCleanup := tmpPathToCleanup st |}.
Definition set_tmpPathToCleanup p (st : JobState) : JobState :=
  {| ticks := ticks st; calls := calls st; logs := logs st; outputs := outputs st;
     files := files st; listening := listening st; browser := browser st;
     context := context st; tmpPathToCleanup := p |}.

(** A computation of the job: from a state it returns or throws and leaves a
    state, or does not terminate ([None]). *)
Definition M (A : Type) : Type := JobState -> option (Result A * JobState).

Global Instance M_ret : MRet M := fun A a st => Some (Ok a, st).
Global Instance M_bind : MBind M := fun A B k m st =>
  match m st with
  | Some (Ok a, st') => k a st'
  | Some (Throw e, st') => Some (Throw e, st')
  | None => None
  end.

Definition throw {A} (e : Exn) : M A := fun st => Some (Throw e, st).
Definition lift {A} (r : Result A) : M A := fun st => Some (r, st).
Definition get_state : M JobState := fun st => Some (Ok st, st).
Definition modify (f : JobState -> JobState) : M unit := fun st => Some (Ok tt, f st).
Definition diverge {A} : M A := fun _ => None.

(** [try { m } catch (error) { handler(error) }] *)
Definition try_catch {A} (m : M A) (handler : Exn -> M A) : M A := fun st =>
  match m st with
  | Some (Throw e, st') => handler e st'
  | other => other
  end.

(** [try { m } finally { cleanup }] *)
Definition try_finally {A} (m : M A) (cleanup : M unit) : M A := fun st =>
  match m st with
  | Some (r, st') =>
      match cleanup st' with
      | Some (Ok _, st'') => Some (r, st'')
      | Some (Throw e, st'') => Some (Throw e, st'')
      | None => None
      end
  | None => None
  end.

(** [promise.catch(() => fallback)] *)
Definition or_else {A} (m : M A) (fallback : A) : M A :=
  try_catch m (fun _ => mret fallback).

Definition exn_name (e : Exn) : string :=
  match e with
  | HttpErr _ => "PlaywrightHttpError"
  | JsErr name _ => name
  end.

Section WithWorld.
Context `{JsRuntime} (W : World).
Import JsString.

(** [Date.now()] *)
Definition Date_now : M Z := fun st => Some (Ok (clock W (ticks st)), set_ticks S st).

Definition appendLog (msg : LogMsg) : M unit :=
  t ← Date_now;
  modify (set_logs (fun l => l ++ [{| at_ms := t; line := msg |}])).

Definition truncate (value : string) (maxChars : nat) : string :=
  if (String.length value <=? maxChars)%nat then value
  else String.substring 0 maxChars value +:+ "...[truncated]".

(** The listeners attached with [page.on]. *)
Definition deliver (e : PageEvent) : M unit :=
  match e with
  | ConsoleMessage type text => appendLog (LConsole type (truncate text 500))
  | PageError msg => appendLog (LPageError (truncate msg 500))
  end.

Fixpoint deliver_all (es : list PageEvent) : M unit :=
  match es with
  | [] => mret tt
  | e :: r => deliver e;; deliver_all r
  end.

(** Issue a call and wait for it: page events arrive meanwhile. *)
Definition await (c : Call) : M nat :=
  st ← get_state;
  let n := length (calls st) in
  modify (set_calls (fun l => l ++ [c]));;
  (if listening st then deliver_all (events W n) else mret tt);;
  mret n.

Definition call (c : Call) : M JsValue :=
  n ← await c;
  match answer W n with
  | Resolved v => mret v
  | Rejected e => throw e
  end.

Definition call_fetch (url : string) (timeoutMs : Z) : M Response :=
  n ← await (CallFetch url timeoutMs);
  match answer W n with
  | Resolved _ => mret (response W n)
  | Rejected e => throw e
  end.

(** [fs.stat(p)] succeeds and [isFile()] holds. *)
Definition fileExists (filePath : string) : M bool :=
  st ← get_state; mret (bool_decide (filePath ∈ files st)).

(** *** runner.ts: the deadline *)

Definition ensureTimeRemaining (deadline : Z) (actionName : string) : M unit :=
  now ← Date_now;
  let remaining := deadline - now in
  if remaining <=? 0 then throw (http 408 (MJobTimeoutBefore actionName))
  else mret tt.

Definition resolveStepTimeout (deadline : Z) (requestedTimeoutMs : option Z) : M Z :=
  now ← Date_now;
  let remaining := deadline - now in
  if remaining <=? 0 then throw (http 408 MJobTimeout)
  else
    match requestedTimeoutMs with
    | None => mret remaining
    | Some requested => mret (Z.max 1 (Z.min requested remaining))
    end.

(** *** downloads.ts *)

Definition mapImageExtension (contentType : string) : string :=
  if eqb contentType "image/jpeg" then ".jpg"
  else if eqb contentType "image/png" then ".png"
  else if eqb contentType "image/webp" then ".webp"
  else if eqb contentType "image/gif" then ".gif"
  else if eqb contentType "image/bmp" then ".bmp"
  else ".img".

(** [s.replace(/\.[^.]+$/, '')]: drop a last dot that is followed by at
    least one character. *)
Definition strip_extension (s : string) : string :=
  let r := rev (to_list s) in
  let after := to_list (take_while (fun c => negb (Path.is_dot c)) (of_list r)) in
  match after, drop (length after) r with
  | _ :: _, _ :: before => of_list (rev before)
  | _, _ => s
  end.

Definition createSafeFileName (urlValue extension : string) : string :=
  let pathname := match new_URL urlValue with
                  | Some u => pathname u
                  | None => EmptyString
                  end in
  let basename := if eqb (Path.basename pathname) EmptyString then "upload"
                  else Path.basename pathname in
  let stripped := strip_extension basename in
  let normalized :=
    drop_while_end is_sep_char
      (drop_while is_sep_char
         (replace_each (fun c => negb (is_safe_char c)) "_"
            (collapse_runs is_space "-" stripped))) in
  let safeBase := if eqb normalized EmptyString then "upload" else normalized in
  safeBase +:+ extension.

(** The stage [limitAndCount] of the pipeline over the chunks of the body:
    the value of [totalBytes] when the pipeline settles, and the error it
    rejects with, if any. *)
Fixpoint limitAndCount (source : list (list Byte.byte)) (breaks : option Exn)
    (totalBytes maxBytes : Z) : Z * option Exn :=
  match source with
  | [] => (totalBytes, breaks)
  | chunk :: rest =>
      let totalBytes := totalBytes + Z.of_nat (length chunk) in
      if totalBytes >? maxBytes then (totalBytes, Some (http 400 (MDownloadTooLarge maxBytes)))
      else limitAndCount rest breaks totalBytes maxBytes
  end.

Record Download := {
  filePath : string;
  fileName : string;
  contentType : string;
  bytes : Z
}.

(** The media type of a response: the [content-type] header up to its first
    semicolon, trimmed, in lower case; the empty string without header. *)
Definition response_content_type (response : Response) : string :=
  toLowerCase (trim (default EmptyString
                       (head (split ";" (default EmptyString (content_type response)))))).

(** Does the [content-length] header declare more than [maxBytes]? *)
Definition declares_too_large (response : Response) (maxBytes : Z) : bool :=
  match content_length response with
  | Some header =>
      if eqb header EmptyString then false
      else match parseInt10 header with
           | Some declaredSize => declaredSize >? maxBytes
           | None => false
           end
  | None => false
  end.

(** [await pipeline(stream, limitAndCount, createWriteStream(filePath))],
    given the error [failure] the pipeline rejects with, if any.  When the
    pipeline has completed, the file is written.  When it rejects, the file
    is there if the stream had opened it by then. *)
Definition pipeline (filePath : string) (failure : option Exn) : M unit :=
  match failure with
  | None => modify (set_files (fun fs => {[filePath]} ∪ fs))
  | Some e =>
      st ← get_state;
      (if opened W (length (calls st))
       then modify (set_files (fun fs => {[filePath]} ∪ fs))
       else mret tt);;
      throw e
  end.

Definition downloadImageFromUrl (url destinationDir : string) (maxBytes timeoutMs : Z)
    (allowDomains : list string) : M Download :=
  lift (Validators.assertAllowedDomain url allowDomains "uploadFromUrl.url");;
  response ← try_catch (call_fetch url timeoutMs)
               (fun error =>
                  if eqb (exn_name error) "AbortError"
                  then throw (http 400 (MDownloadTimeout timeoutMs))
                  else throw (http 400 MDownloadNetwork));
  if negb (r_ok response) then throw (http 400 (MDownloadStatus (r_status response)))
  else
    let contentType := response_content_type response in
    if negb (startsWith contentType "image/")
    then throw (http 400 (MDownloadNotImage contentType))
    else if declares_too_large response maxBytes
    then throw (http 400 (MDownloadTooLarge maxBytes))
    else
      match r_body response with
      | None => throw (http 400 MDownloadNoBody)
      | Some body =>
          let extension := mapImageExtension contentType in
          let fileName := createSafeFileName url extension in
          let filePath := Path.join [destinationDir; fileName] in
          let '(totalBytes, failure) :=
            limitAndCount (chunks body) (breaks body) 0 maxBytes in
          try_finally
            (pipeline filePath failure;;
             if totalBytes =? 0 then throw (http 400 MDownloadEmpty)
             else mret {| filePath := filePath; fileName := fileName;
                          contentType := contentType; bytes := totalBytes |})
            (if totalBytes =? 0
             then or_else (call (CallRm filePath);;
                           modify (set_files (fun fs => fs ∖ {[filePath]}))) tt
             else mret tt)
      end.

(** *** storage.ts: the functions that read or write the file system *)

Definition hasSessionState (storageDir session : string) : M bool :=
  sessionPath ← lift (Storage.getSessionStatePath storageDir session);
  fileExists sessionPath.

Definition ensureJobDirectories (outputDir tmpDir jobId : string) : M (string * string) :=
  lift (Storage.validateJobId jobId);;
  jobOutputDir ← lift (Storage.resolveInsideRoot outputDir jobId "job output directory");
  jobTmpDir ← lift (Storage.resolveInsideRoot tmpDir jobId "job tmp directory");
  call (CallMkdir [jobOutputDir; jobTmpDir]);;
  mret (jobOutputDir, jobTmpDir).

(** *** runner.ts *)

(** The loop of [resolveUniqueFileName], for at most [rounds] tests. *)
Fixpoint resolveUniqueFileName_loop (rounds : nat) (outputDir baseName ext candidate : string)
    (counter : nat) : M string :=
  match rounds with
  | O => diverge
  | S rounds =>
      taken ← fileExists (Path.join [outputDir; candidate]);
      if taken : bool
      then resolveUniqueFileName_loop rounds outputDir baseName ext
             (baseName +:+ "-" +:+ pretty counter +:+ ext) (S counter)
      else (mret candidate : M string)
  end.

(** [resolveUniqueFileName]: the loop is run for one round more than there
    are files, and has no outcome if it has not ended by then. *)
Definition resolveUniqueFileName (outputDir fileName : string) : M string :=
  let ext := Path.extname fileName in
  let baseName := if eqb ext EmptyString then fileName
                  else drop_end (String.length ext) fileName in
  st ← get_state;
  resolveUniqueFileName_loop (S (size (files st))) outputDir baseName ext fileName 1.

Definition push_artifact (a : PlaywrightArtifact) : M unit :=
  modify (set_outputs (fun o =>
    {| artifacts := artifacts o ++ [a]; extracted := extracted o; storage := storage o |})).

Definition set_extracted (key : string) (v : JsValue) : M unit :=
  modify (set_outputs (fun o =>
    {| artifacts := artifacts o; extracted := <[key := v]> (extracted o);
       storage := storage o |})).

Definition push_storage (x : PlaywrightStorageOutput) : M unit :=
  modify (set_outputs (fun o =>
    {| artifacts := artifacts o; extracted := extracted o; storage := storage o ++ [x] |})).

Definition executeAction (action : PlaywrightAction) (jobId : string) (deadline : Z)
    (config : PlaywrightRunnerConfig) (jobOutputDir jobTmpDir : string) : M unit :=
  ensureTimeRemaining deadline (action_name action);;
  match action with
  | GotoAction url waitUntil =>
      timeout ← resolveStepTimeout deadline None;
      call (CallGoto url (Js.or_default waitUntil "domcontentloaded") timeout);;
      mret tt
  | ClickAction selector delayMs =>
      timeout ← resolveStepTimeout deadline None;
      call (CallClick selector timeout delayMs);;
      mret tt
  | FillAction selector text =>
      timeout ← resolveStepTimeout deadline None;
      call (CallFill selector text timeout);;
      mret tt
  | PressAction selector key =>
      timeout ← resolveStepTimeout deadline None;
      call (CallPress selector key timeout);;
      mret tt
  | WaitForAction selector state timeoutMs =>
      timeout ← resolveStepTimeout deadline timeoutMs;
      if negb (eqb (Js.or_default selector EmptyString) EmptyString)
      then call (CallWaitForSelector (Js.or_default selector EmptyString) timeout
                   (Js.or_default state "visible"));;
           mret tt
      else call (CallWaitForTimeout (Z.max 1 timeout));;
           mret tt
  | UploadAction selector path =>
      let localPath := Storage.resolveLocalUploadPath path in
      isFile ← fileExists localPath;
      if negb isFile then throw (http 400 (MUploadMissing path))
      else
        timeout ← resolveStepTimeout deadline None;
        call (CallSetInputFiles selector localPath timeout);;
        mret tt
  | UploadFromUrlAction selector url =>
      stepTimeout ← resolveStepTimeout deadline None;
      download ← downloadImageFromUrl url jobTmpDir (maxUploadBytes config)
                   (Z.min stepTimeout (maxUploadDownloadTimeoutMs config))
                   (allowDomains config);
      appendLog (LDownloaded (bytes download) (fileName download));;
      timeout ← resolveStepTimeout deadline None;
      call (CallSetInputFiles selector (filePath download) timeout);;
      mret tt
  | ScreenshotAction name fullPage =>
      desiredFileName ← lift (Storage.sanitizeArtifactFilename name);
      fileName ← resolveUniqueFileName jobOutputDir desiredFileName;
      let absoluteFilePath := Path.join [jobOutputDir; fileName] in
      timeout ← resolveStepTimeout deadline None;
      call (CallScreenshot absoluteFilePath (default false fullPage) timeout);;
      modify (set_files (fun fs => {[absoluteFilePath]} ∪ fs));;
      push_artifact {| a_name := name; a_filename := fileName;
                       a_url := artifactsRoutePrefix config +:+ "/" +:+ jobId +:+ "/"
                                +:+ encodeURIComponent fileName |}
  | ExtractTextAction selector key =>
      timeout ← resolveStepTimeout deadline None;
      text ← call (CallTextContent selector timeout);
      text ← lift (Js_String (if Js.truthy text then text else JString EmptyString));
      set_extracted key (JString (trim text))
  | ExtractAttrAction selector attr key =>
      timeout ← resolveStepTimeout deadline None;
      attr ← call (CallGetAttribute selector attr timeout);
      attr ← lift (Js_String (if Js.truthy attr then attr else JString EmptyString));
      set_extracted key (JString attr)
  | SaveStorageAction session =>
      sessionPath ← lift (Storage.getSessionStatePath (storageDir config) session);
      call (CallStorageState sessionPath);;
      modify (set_files (fun fs => {[sessionPath]} ∪ fs));;
      push_storage {| s_session := session; s_file := Path.basename sessionPath |};;
      appendLog (LSaveStorage session (Path.basename sessionPath))
  | EvaluateAction script arg key =>
      result ← call (CallEvaluate script arg);
      (if negb (eqb (Js.or_default key EmptyString) EmptyString)
       then set_extracted (Js.or_default key EmptyString) result
       else mret tt);;
      appendLog (LEvaluate (String.length script) result)
  end.

Definition getErrorMessage (error : Exn) : Message :=
  match error with
  | HttpErr e => Templ (message e)
  | JsErr _ msg => Raw msg
  end.

Definition reason_text (error : Exn) : string :=
  match error with
  | HttpErr _ => EmptyString
  | JsErr _ msg => msg
  end.

Definition normalizeActionError (error : Exn) (action : PlaywrightAction) (index : nat)
  : Exn :=
  match error with
  | HttpErr _ => error
  | JsErr _ _ =>
      let details := {| d_step := index + 1; d_action := action_name action;
                        d_reason := reason_text error |} in
      if isPlaywrightTimeoutError error
      then HttpErr {| statusCode := 504;
                      message := MStepTimeout (index + 1) (action_name action);
                      details := Some details |}
      else HttpErr {| statusCode := 500;
                      message := MStepFailed (index + 1) (action_name action);
                      details := Some details |}
  end.

Definition resolveStatusCode (error : Exn) : Z :=
  match error with
  | HttpErr e => statusCode e
  | JsErr _ _ => if isPlaywrightTimeoutError error then 504 else 500
  end.

(** The [for] loop of [runPlaywrightJob] over the actions from index [i] on. *)
Fixpoint run_actions (rest : list PlaywrightAction) (i total : nat) (jobId : string)
    (deadline : Z) (config : PlaywrightRunnerConfig) (jobOutputDir jobTmpDir : string)
  : M unit :=
  match rest with
  | [] => mret tt
  | action :: rest =>
      let stepLabel := {| l_pos := i + 1; l_total := total;
                          l_action := action_name action |} in
      stepStartedAt ← Date_now;
      appendLog (LStepStart stepLabel);;
      try_catch (executeAction action jobId deadline config jobOutputDir jobTmpDir)
        (fun error => throw (normalizeActionError error action i));;
      finishedAt ← Date_now;
      appendLog (LStepDone stepLabel (finishedAt - stepStartedAt));;
      run_actions rest (S i) total jobId deadline config jobOutputDir jobTmpDir
  end.

Definition DEFAULT_VIEWPORT : Viewport := {| width := 1280; height := 800 |}.
Definition DEFAULT_USER_AGENT : string :=
  "Mozilla/5.0 (Windows NT 10.0; Win64; x64) AppleWebKit/537.36 (KHTML, like Gecko) Chrome/122.0.0.0 Safari/537.36".

(** [PlaywrightRunResult] and [PlaywrightJobError].  Their [logs] (and the
    [outputs] of a result) are the very arrays and object of the job, so they
    are read from the final [JobState].  [runPlaywrightJob] returns the one
    or throws the other; [JobOutcome] holds either, [Failed e] standing for
    the throw of the [PlaywrightJobError] [e], so that [Throw] is left for
    an error of any other kind. *)
Record PlaywrightRunResult := { jobId : string; tookMs : Z }.
Record PlaywrightJobError := {
  je_message : Message;
  je_statusCode : Z;
  je_jobId : string;
  je_tookMs : Z;
  je_details : option ErrDetails
}.
Inductive JobOutcome :=
| Succeeded (r : PlaywrightRunResult)
| Failed (e : PlaywrightJobError).

(** Everything of [runPlaywrightJob] before the loop over the actions: it
    returns the deadline and the two directories of the job. *)
Definition start_job (request : PlaywrightRunRequest) (config : PlaywrightRunnerConfig)
    (startedAt : Z) (jobId : string) : M (Z * string * string) :=
  appendLog (LJobStart jobId (length (actions request))
               (Js.or_default (session request) "-") (timeoutMs request));;
  dirs ← ensureJobDirectories (outputDir config) (tmpDir config) jobId;
  let '(jobOutputDir, jobTmpDir) := dirs in
  modify (set_tmpPathToCleanup jobTmpDir);;
  call (CallLaunch (proxy request));;
  modify (set_browser true);;
  storageState ←
    (let session := Js.or_default (session request) EmptyString in
     if negb (eqb session EmptyString) then
       sessionExists ← hasSessionState (storageDir config) session;
       if sessionExists : bool then
         sessionPath ← lift (Storage.getSessionStatePath (storageDir config) session);
         appendLog (LLoadedStorage session);;
         mret (Some sessionPath)
       else
         appendLog (LNoStorage session);;
         mret None
     else mret None);
  call (CallNewContext storageState (default DEFAULT_VIEWPORT (viewport request))
          (Js.or_default (userAgent request) DEFAULT_USER_AGENT) (proxy request));;
  modify (set_context true);;
  call CallNewPage;;
  call CallAddInitScript;;
  (match blockResources request with
   | Some (t :: ts) => call (CallRoute (t :: ts));; mret tt
   | _ => mret tt
   end);;
  modify (set_calls (fun l => l ++ [CallSetDefaultTimeout (Z.min 30000 (timeoutMs request))]));;
  modify (set_listening true);;
  mret (startedAt + timeoutMs request, jobOutputDir, jobTmpDir).

(** The [finally] block of [runPlaywrightJob]. *)
Definition cleanup_job : M unit :=
  st ← get_state;
  (if context st then or_else (call CallCloseContext;; mret tt) tt else mret tt);;
  (if browser st then or_else (call CallCloseBrowser;; mret tt) tt else mret tt);;
  (if negb (eqb (tmpPathToCleanup st) EmptyString)
   then or_else
          (call (CallRm (tmpPathToCleanup st));;
           modify (set_files (filter (fun p =>
             ¬ (p = tmpPathToCleanup st
                ∨ startsWith p (tmpPathToCleanup st +:+ "/") = true)))))
          tt
   else mret tt).

(** The variables [runPlaywrightJob] declares before its [try] block: empty
    [logs] and [outputs], no browser, no context, nothing to clean up. *)
Definition new_job (st : JobState) : JobState :=
  {| ticks := ticks st; calls := calls st; logs := [];
     outputs := {| artifacts := []; extracted := ∅; storage := [] |};
     files := files st; listening := false; browser := false; context := false;
     tmpPathToCleanup := EmptyString |}.

Definition runPlaywrightJob (request : PlaywrightRunRequest)
    (config : PlaywrightRunnerConfig) : M JobOutcome :=
  startedAt ← Date_now;
  let jobId := randomUUID W in
  modify new_job;;
  try_finally
    (try_catch
       (started ← start_job request config startedAt jobId;
        let '(deadline, jobOutputDir, jobTmpDir) := started in
        run_actions (actions request) 0 (length (actions request)) jobId deadline config
          jobOutputDir jobTmpDir;;
        call CallCloseContext;;
        modify (set_context false);;
        call CallCloseBrowser;;
        finishedAt ← Date_now;
        let tookMs := finishedAt - startedAt in
        appendLog (LSuccess jobId tookMs);;
        mret (Succeeded {| jobId := jobId; tookMs := tookMs |}))
       (fun error =>
          finishedAt ← Date_now;
          let tookMs := finishedAt - startedAt in
          let message := getErrorMessage error in
          let statusCode := resolveStatusCode error in
          let details := match error with
                         | HttpErr e => details e
                         | JsErr _ _ => None
                         end in
          appendLog (LError jobId statusCode message);;
          mret (Failed {| je_message := message; je_statusCode := statusCode;
                          je_jobId := jobId; je_tookMs := tookMs;
                          je_details := details |})))
    cleanup_job.
End WithWorld.


(** ** server.ts: the endpoints of the Playwright service

    What the handlers decide before they answer: the settings read from the
    environment, the bearer token, the file an artifact request is answered
    with, and the job a [save-state] request is turned into. *)

Module Server.
Import JsString.

(** [Buffer.from(s, 'utf8')] *)
Definition utf8_char (c : ascii) : list N :=
  if (code c <? 128)%N then [code c]
  else [(192 + code c / 64)%N; (128 + code c mod 64)%N].

Definition utf8 (s : string) : list N := flat_map utf8_char (to_list s).

(** [crypto.timingSafeEqual] is called on buffers of one length only. *)
Definition isTokenEqual (value expected : string) : bool :=
  let a := utf8 value in
  let b := utf8 expected in
  if negb (length a =? length b)%nat then false
  else bool_decide (a = b).

(** [s.slice(n)] *)
Definition slice_from (n : nat) (s : string) : string := of_list (drop n (to_list s)).

(** [requirePlaywrightAuth]: [true] when [next()] is called, [false] when
    the request is answered with status 401. *)
Definition requirePlaywrightAuth (authorization : option string) (PLAYWRIGHT_TOKEN : string)
  : bool :=
  let authHeader := trim (Js.or_default authorization EmptyString) in
  if negb (startsWith (toLowerCase authHeader) "bearer ") then false
  else
    let token := trim (slice_from 7 authHeader) in
    if eqb token EmptyString || negb (isTokenEqual token PLAYWRIGHT_TOKEN) then false
    else true.

Definition resolveArtifactContentType (filename : string) : option string :=
  let ext := toLowerCase (Path.extname filename) in
  if eqb ext ".png" then Some "image/png"
  else if eqb ext ".jpg" || eqb ext ".jpeg" then Some "image/jpeg"
  else if eqb ext ".webp" then Some "image/webp"
  else if eqb ext ".gif" then Some "image/gif"
  else if eqb ext ".bmp" then Some "image/bmp"
  else if eqb ext ".txt" then Some "text/plain; charset=utf-8"
  else if eqb ext ".json" then Some "application/json; charset=utf-8"
  else None.

(** The errors the [save-state] handler raises itself. *)
Inductive HandlerError :=
| EBodyInvalid            (* PlaywrightHttpError(400, 'Body invalido.') *)
| EStorageStateNotObject  (* PlaywrightHttpError(400, 'Campo "storageState" deve ser objeto JSON.') *)
| EThrown (e : Exn).      (* thrown by a function the handler calls *)

(** What the [save-state] handler goes on to do. *)
Inductive SaveStatePlan :=
| SaveRaw (session : string) (storageState : JsValue)  (* saveRawStorageState(...) *)
| SaveByJob (request : PlaywrightRunRequest).           (* runPlaywrightJob(...) *)

(** How [GET /playwright/artifacts/:jobId/:filename] is answered, up to the
    call of [res.sendFile]. *)
Inductive ArtifactReply :=
| ArtifactRefused (status : Z) (error : Message)
| ArtifactNotFound                                      (* status 404 *)
| ArtifactSent (path : string) (contentType : option string).

Section WithRuntime.
Context `{JsRuntime}.

(** [parsePositiveInteger(value, fallback)] for a setting of the environment. *)
Definition parsePositiveInteger (value : option string) (fallback : Z) : Z :=
  match parseInt10 (Js.or_default value EmptyString) with
  | Some parsed => if parsed <=? 0 then fallback else parsed
  | None => fallback
  end.

(** The steps [POST /playwright/save-state] takes from its payload:
    [actions] if that is an array, else [commands] if that is one, else
    none. *)
Definition save_state_actions (payload : list (string * JsValue)) : list JsValue :=
  match Js.get payload "actions" with
  | JArray actions => actions
  | _ => match Js.get payload "commands" with
         | JArray commands => commands
         | _ => []
         end
  end.

(** The body [POST /playwright/save-state] hands to [parseRunRequestBody]. *)
Definition save_state_body (payload : list (string * JsValue)) (session : string)
  : JsValue :=
  let actions := save_state_actions payload in
  JObject [("session", JString session);
           ("timeoutMs", Js.get payload "timeoutMs");
           ("actions",
            JArray (actions ++ [JObject [("action", JString "saveStorage");
                                         ("session", JString session)]]))].

Definition save_state (body : JsValue) (options : Validators.Options)
  : HandlerError + SaveStatePlan :=
  match body with
  | JObject payload =>
      match Validators.validateSessionName (Js.get payload "session") "session" with
      | Throw e => inl (EThrown e)
      | Ok session =>
          match Js.get payload "storageState" with
          | JUndefined =>
              match Validators.parseRunRequestBody (save_state_body payload session) options
              with
              | Throw e => inl (EThrown e)
              | Ok parsedRequest => inr (SaveByJob parsedRequest)
              end
          | JObject _ | JArray _ => inr (SaveRaw session (Js.get payload "storageState"))
          | _ => inl EStorageStateNotObject
          end
      end
  | _ => inl EBodyInvalid
  end.

Definition get_artifact (PLAYWRIGHT_OUTPUT_DIR jobId filename : string) (files : gset string)
  : ArtifactReply :=
  let jobId := trim jobId in
  let filename := trim filename in
  match Storage.resolveArtifactPath PLAYWRIGHT_OUTPUT_DIR jobId filename with
  | Throw (HttpErr error) => ArtifactRefused (statusCode error) (Templ (message error))
  | Throw (JsErr _ _) => ArtifactRefused 400 (Raw "Caminho de artefato invalido.")
  | Ok artifactPath =>
      if negb (bool_decide (artifactPath ∈ files)) then ArtifactNotFound
      else ArtifactSent artifactPath (resolveArtifactContentType filename)
  end.
End WithRuntime.
End Server.


(** ** A reference runtime

    An instance of [JsRuntime] on which the model can be run: URLs of the plain
    shape [scheme://host[:port][/path][?query][#fragment]], decimal numerals
    for [Number(s)] and [parseInt].  The general results below hold for every
    runtime; this one serves to evaluate the service on concrete requests. *)

Module RefRuntime.
Import JsString.

Definition is_scheme_char (c : ascii) : bool :=
  is_alnum c || (code c =? 43)%N || (code c =? 45)%N || (code c =? 46)%N.
Definition is_host_char (c : ascii) : bool :=
  is_alnum c || (code c =? 45)%N || (code c =? 46)%N.
Definition ends_authority (c : ascii) : bool :=
  (code c =? 47)%N || (code c =? 63)%N || (code c =? 35)%N.
Definition ends_path (c : ascii) : bool := (code c =? 63)%N || (code c =? 35)%N.
Definition is_colon (c : ascii) : bool := (code c =? 58)%N.

Definition parse_url (s : string) : option URL :=
  let scheme := take_while is_scheme_char s in
  let rest := drop_while is_scheme_char s in
  match scheme with
  | EmptyString => None
  | String c0 _ =>
      if negb (is_lower c0 || is_upper c0) then None
      else if negb (startsWith rest "://") then None
      else
        let after := String.substring 3 (String.length rest - 3) rest in
        let authority := take_while (fun c => negb (ends_authority c)) after in
        let tail := drop_while (fun c => negb (ends_authority c)) after in
        let host := take_while (fun c => negb (is_colon c)) authority in
        let port := drop_while (fun c => negb (is_colon c)) authority in
        if eqb host EmptyString || negb (all is_host_char host) then None
        else if negb (all is_digit (String.substring 1 (String.length port - 1) port))
        then None
        else
          let path := take_while (fun c => negb (ends_path c)) tail in
          Some {| protocol := toLowerCase scheme +:+ ":";
                  hostname := toLowerCase host;
                  pathname := if eqb path EmptyString then "/" else path |}
  end.

Definition digits_value (s : string) : Z :=
  fold_left (fun acc c => 10 * acc + (Z.of_N (code c) - 48)) (to_list s) 0.

Definition string_to_number (s : string) : JsNumber :=
  let t := trim s in
  if eqb t EmptyString then NumInt 0
  else if all is_digit t then NumInt (digits_value t)
  else NumOther "NaN".

Definition parse_int (s : string) : option Z :=
  let t := take_while is_digit (drop_while is_space s) in
  if eqb t EmptyString then None else Some (digits_value t).

#[export] Instance runtime : JsRuntime := {|
  new_URL := parse_url;
  StringToNumber := string_to_number;
  parseInt10 := parse_int;
  IntToString := pretty;
  process_cwd := "/app"
|}.
End RefRuntime.

(** ** A concrete setting

    A world whose clock advances by one millisecond per reading and in which
    every call succeeds, a configuration, and the state before a job. *)

Module Example.
Definition image : Response :=
  {| r_ok := true; r_status := 200; content_type := Some "image/png";
     content_length := None;
     r_body := Some {| chunks := [[Byte.x89; Byte.x50; Byte.x4e];
                                  [Byte.x47; Byte.x0d; Byte.x0a]];
                       breaks := None |} |}.

Definition world : World :=
  {| clock := fun n => 1000 + Z.of_nat n;
     randomUUID := "123e4567-e89b-42d3-a456-426614174000";
     answer := fun _ => Resolved JUndefined;
     response := fun _ => image;
     events := fun n => if (n =? 6)%nat then [ConsoleMessage "log" "[step] done"] else [];
     opened := fun _ => true |}.

Definition config : PlaywrightRunnerConfig :=
  {| allowDomains := []; storageDir := "/data/states"; outputDir := "/data/out";
     tmpDir := "/tmp/pw"; artifactsRoutePrefix := "/playwright/artifacts";
     defaultTimeoutMs := 60000; maxUploadBytes := 4;
     maxUploadDownloadTimeoutMs := 30000 |}.

Definition idle : JobState :=
  {| ticks := 0; calls := []; logs := [];
     outputs := {| artifacts := []; extracted := ∅; storage := [] |};
     files := ∅; listening := false; browser := false; context := false;
     tmpPathToCleanup := EmptyString |}.

Definition request (timeout : Z) (steps : list PlaywrightAction) : PlaywrightRunRequest :=
  {| session := None; timeoutMs := timeout; proxy := None; blockResources := None;
     userAgent := None; viewport := None; actions := steps |}.

Definition options : Validators.Options :=
  {| Validators.maxActions := 50; Validators.opt_defaultTimeoutMs := 60000;
     Validators.opt_allowDomains := [] |}.
(** The request [twitter_post_image.sh] posts to [/playwright/run], with the
    script texts shortened. *)
Definition twitter_post_image_payload : JsValue :=
  JObject
    [("session", JString "x-main");
     ("timeoutMs", JNumber (NumInt 120000));
     ("proxy", JObject [("server", JString "http://proxy:8080");
                        ("username", JString "user"); ("password", JString "pass")]);
     ("actions",
      JArray
        [JObject [("action", JString "goto"); ("url", JString "https://x.com/home");
                  ("waitUntil", JString "commit")];
         JObject [("action", JString "waitFor"); ("timeoutMs", JNumber (NumInt 30000))];
         JObject [("action", JString "evaluate");
                  ("script", JString "(text) => { return 1; }")];
         JObject [("action", JString "screenshot");
                  ("name", JString "final_post_result")]])].

(** A payload whose time limit is an object that has a property
    [toString]. *)
Definition payload_with_toString : JsValue :=
  JObject [("timeoutMs", JObject [("toString", JNumber (NumInt 1))]);
           ("actions", JArray [JObject [("action", JString "goto");
                                        ("url", JString "https://example.com")]])].

(** A payload that sets the browser options of a request. *)
Definition payload_with_browser_options : JsValue :=
  JObject [("timeoutMs", JNumber (NumInt 5000));
           ("proxy", JObject [("server", JString "http://proxy:8080")]);
           ("userAgent", JString "curl/8");
           ("viewport", JObject [("width", JNumber (NumInt 10));
                                 ("height", JNumber (NumInt 10))]);
           ("actions", JArray [JObject [("action", JString "goto");
                                        ("url", JString "https://example.com")]])].

(** A job of three steps, its state after the start-up and after two steps
    when it is given sixteen milliseconds. *)
Definition three_steps : list PlaywrightAction :=
  [GotoAction "https://example.com" None; ClickAction "#a" None; FillAction "#b" "x"].

Definition job_out : string := "/data/out/123e4567-e89b-42d3-a456-426614174000".
Definition job_tmp : string := "/tmp/pw/123e4567-e89b-42d3-a456-426614174000".

Definition started : JobState :=
  Eval vm_compute in
    match start_job (H := RefRuntime.runtime) world (request 16 three_steps) config 1000
            (randomUUID world) (new_job (set_ticks S idle)) with
    | Some (_, s) => s
    | None => idle
    end.

Definition after_two_steps : JobState :=
  Eval vm_compute in
    match run_actions (H := RefRuntime.runtime) world (take 2 three_steps) 0 3
            (randomUUID world) 1016 config job_out job_tmp started with
    | Some (_, s) => s
    | None => idle
    end.

(** A job that takes two screenshots named [shot], and the state it ends in
    when it is given five seconds. *)
Definition two_shots : list PlaywrightAction :=
  [GotoAction "https://example.com" None; ScreenshotAction "shot" None;
   ClickAction "#a" None; ScreenshotAction "shot" (Some true)].

Definition two_shots_done : JobState :=
  Eval vm_compute in
    match runPlaywrightJob (H := RefRuntime.runtime) world (request 5000 two_shots) config
            idle with
    | Some (_, s) => s
    | None => idle
    end.

(** The state of the started job after one more step, a screenshot named
    [My Shot.PNG]. *)
Definition after_shot : JobState :=
  Eval vm_compute in
    match executeAction (H := RefRuntime.runtime) world (ScreenshotAction "My Shot.PNG" None)
            (randomUUID world) 100000 config job_out job_tmp started with
    | Some (_, s) => s
    | None => idle
    end.

(** A job that takes a screenshot named [shot-1] before two named [shot]. *)
Definition three_shots : list PlaywrightAction :=
  [ScreenshotAction "shot-1" None; ScreenshotAction "shot" None;
   ScreenshotAction "shot" None].

(** A job that takes a screenshot named [home] besides two named [shot], and
    the state it ends in when it is given five seconds. *)
Definition mixed_shots : list PlaywrightAction :=
  [GotoAction "https://example.com" None; ScreenshotAction "home" None;
   ScreenshotAction "shot" None; ClickAction "#a" None;
   ScreenshotAction "shot" (Some true); ScreenshotAction "Shot" None].

Definition mixed_shots_done : JobState :=
  Eval vm_compute in
    match runPlaywrightJob (H := RefRuntime.runtime) world (request 5000 mixed_shots) config
            idle with
    | Some (_, s) => s
    | None => idle
    end.

(** The request of a session. *)
Definition request_of_session (name : string) (timeout : Z) (steps : list PlaywrightAction)
  : PlaywrightRunRequest :=
  {| session := Some name; timeoutMs := timeout; proxy := None; blockResources := None;
     userAgent := None; viewport := None; actions := steps |}.

(** A world in which the page does not load in time: the seventh call, the
    [goto] of the first step, is rejected with the [TimeoutError] of
    Playwright. *)
Definition world_of_late_page : World :=
  {| clock := clock world; randomUUID := randomUUID world;
     answer := fun n => if (n =? 6)%nat
                        then Rejected (JsErr "TimeoutError"
                                         "page.goto: Timeout 30000ms exceeded.")
                        else Resolved JUndefined;
     response := response world; events := events world; opened := opened world |}.

(** A world in which every download has a body without bytes. *)
Definition empty_image : Response :=
  {| r_ok := true; r_status := 200; content_type := Some "image/png";
     content_length := None;
     r_body := Some {| chunks := [[]; []]; breaks := None |} |}.

Definition world_of_empty_image : World :=
  {| clock := clock world; randomUUID := randomUUID world; answer := answer world;
     response := fun _ => empty_image; events := events world; opened := opened world |}.
End Example.

(** ** Vocabulary of the properties *)

(** [preserves R m]: every run of [m] relates the state before to the state
    after by [R], whether it returns or throws. *)
Definition preserves {A} (R : relation JobState) (m : M A) : Prop :=
  forall st r st', m st = Some (r, st') -> R st st'.

(** The number of bytes in the first [n] chunks of a stream. *)
Definition streamed_bytes (source : list (list Byte.byte)) (n : nat) : Z :=
  Z.of_nat (length (concat (take n source))).

(** The files are the same after as before. *)
Definition same_files : relation JobState := fun st st' => files st' = files st.

(** No call has been issued. *)
Definition same_calls : relation JobState := fun st st' => calls st' = calls st.

(** A string without the character [sep]. *)
Definition free_of (sep : ascii) (s : string) : Prop :=
  Forall (fun c => c <> sep) (JsString.to_list s).

(** A segment that [normalizeString] keeps as it is. *)
Definition plain_segment (s : string) : Prop :=
  s <> EmptyString /\ s <> "." /\ s <> ".." /\ free_of "/" s.

(** The steps whose completion is on the log, by the position [i + 1] their
    label carries, in the order of the lines. *)
Definition done_steps (l : list LogEntry) : list nat :=
  omap (fun e => match line e with
                 | LStepDone label _ => Some (l_pos label)
                 | _ => None
                 end) l.

(** A line that is not the completion line of a step. *)
Definition not_done (m : LogMsg) : Prop :=
  match m with
  | LStepDone _ _ => False
  | _ => True
  end.

(** No completion line has been added. *)
Definition same_done : relation JobState := fun st st' =>
  done_steps (logs st') = done_steps (logs st).

(** The extensions [mapImageExtension] can return. *)
Definition IMAGE_EXTENSIONS : list string := [".jpg"; ".png"; ".webp"; ".gif"; ".bmp"; ".img"].

(** An artifact stored under another name than [shot.png] and
    [shot-1.png]. *)
Definition other_artifact (a : PlaywrightArtifact) : Prop :=
  a_filename a <> "shot.png" /\ a_filename a <> "shot-1.png".

(** Does the action leave alone the files [p] and [q], which are [shot.png]
    and [shot-1.png] of the output directory of the job?  A screenshot does
    if the file name [sanitizeArtifactFilename] makes of its name is neither
    [shot.png] nor [shot-1.png]: none of the names tried for it is one of the
    two then.  An upload from a URL does if none of the files it can download
    to is [p] or [q]; [saveStorage] does if the session file is neither;
    every other action writes no file. *)
Definition spares `{JsRuntime} (config : PlaywrightRunnerConfig) (jobTmpDir p q : string)
    (a : PlaywrightAction) : bool :=
  match a with
  | ScreenshotAction name _ =>
      match Storage.sanitizeArtifactFilename name with
      | Ok desired =>
          negb (JsString.eqb desired "shot.png") && negb (JsString.eqb desired "shot-1.png")
      | Throw _ => true
      end
  | UploadFromUrlAction _ url =>
      forallb (fun ext =>
                 let f := Path.join [jobTmpDir; createSafeFileName url ext] in
                 negb (JsString.eqb f p) && negb (JsString.eqb f q))
        IMAGE_EXTENSIONS
  | SaveStorageAction session =>
      match Storage.getSessionStatePath (storageDir config) session with
      | Ok path => negb (JsString.eqb path p) && negb (JsString.eqb path q)
      | Throw _ => true
      end
  | _ => true
  end.

(** The files [p] and [q] are there after if and only if they were before,
    and the artifacts added are stored under other names than [shot.png] and
    [shot-1.png]. *)
Definition keeps (p q : string) : relation JobState := fun st st' =>
  (p ∈ files st' <-> p ∈ files st) /\ (q ∈ files st' <-> q ∈ files st)
  /\ exists added,
       artifacts (outputs st') = artifacts (outputs st) ++ added
       /\ Forall other_artifact added.

(** The artifacts are the same after as before. *)
Definition same_artifacts : relation JobState := fun st st' =>
  artifacts (outputs st') = artifacts (outputs st).

(** [returns_with P m]: what [m] returns satisfies [P]. *)
Definition returns_with {A} (P : A -> Prop) (m : M A) : Prop :=
  forall st a st', m st = Some (Ok a, st') -> P a.

(** Neither the files nor the outputs have changed. *)
Definition unchanged : relation JobState := fun st st' =>
  files st' = files st /\ outputs st' = outputs st.

(** The artifact record of a screenshot named [shot] stored as [filename]. *)
Definition shot_artifact (config : PlaywrightRunnerConfig) (jobId filename : string)
  : PlaywrightArtifact :=
  {| a_name := "shot"; a_filename := filename;
     a_url := artifactsRoutePrefix config +:+ "/" +:+ jobId +:+ "/" +:+ filename |}.

(** The names [resolveUniqueFileName] tries for [shot.png], in order:
    [shot.png], [shot-1.png], [shot-2.png], ... *)
Definition shot_name (k : nat) : string :=
  match k with
  | O => "shot.png"
  | S _ => "shot" +:+ "-" +:+ pretty k +:+ ".png"
  end.

(** [fails_with_400 r]: if [r] is an error, it is a [PlaywrightHttpError] of
    status 400 without details. *)
Definition fails_with_400 {A} (r : Result A) : Prop :=
  match r with
  | Ok _ => True
  | Throw e => exists m, e = http 400 m
  end.

(** Does the value hold, at any depth, an object with a property
    [toString]? *)
Fixpoint has_own_toString (v : JsValue) : bool :=
  match v with
  | JArray items => existsb has_own_toString items
  | JObject fields =>
      existsb (JsString.eqb "toString") (map fst fields)
      || existsb (fun kv => has_own_toString kv.2) fields
  | _ => false
  end.

(** [fails_with_400_or_TypeError T r]: if [r] is an error, it is a
    [PlaywrightHttpError] of status 400 without details, or it is the
    [TypeError] of a failed conversion and [T] holds. *)
Definition fails_with_400_or_TypeError (T : Prop) {A} (r : Result A) : Prop :=
  match r with
  | Ok _ => True
  | Throw e => (exists m, e = http 400 m) \/ (e = TypeError_primitive /\ T)
  end.

(** The URL an action makes the browser or the service load. *)
Definition action_url (a : PlaywrightAction) : option string :=
  match a with
  | GotoAction url _ => Some url
  | UploadFromUrlAction _ url => Some url
  | _ => None
  end.

(** A URL that parses, uses [http] or [https], and whose host, in lower
    case, is a domain of the allowlist or a subdomain of one, when the
    allowlist is not empty. *)
Definition permitted_url `{JsRuntime} (allowDomains : list string) (url : string) : Prop :=
  exists parsed,
    new_URL url = Some parsed
    /\ (protocol parsed = "http:" \/ protocol parsed = "https:")
    /\ (allowDomains = []
        \/ exists domain,
             domain ∈ allowDomains
             /\ (JsString.toLowerCase (hostname parsed) = domain
                 \/ JsString.endsWith (JsString.toLowerCase (hostname parsed))
                      ("." +:+ domain) = true)).

(** [throws P m]: every error that [m] throws satisfies [P]. *)
Definition throws {A} (P : Exn -> Prop) (m : M A) : Prop :=
  forall st e st', m st = Some (Throw e, st') -> P e.

(** The world fails with errors of its own, never with a
    [PlaywrightHttpError]: when a call is rejected and when the stream of a
    body breaks off. *)
Definition foreign_failures (W : World) : Prop :=
  (forall n e, answer W n = Rejected e -> exists name msg, e = JsErr name msg)
  /\ (forall n body e,
        r_body (response W n) = Some body -> breaks body = Some e ->
        exists name msg, e = JsErr name msg).

(** The status codes a job fails with. *)
Definition job_status (status : Z) : Prop :=
  status = 400 \/ status = 408 \/ status = 500 \/ status = 504.

Definition has_job_status (e : Exn) : Prop := job_status (resolveStatusCode e).

(** The variable [tmpPathToCleanup] is as before or holds [tmp]. *)
Definition tmp_is (tmp : string) : relation JobState := fun st st' =>
  tmpPathToCleanup st' = tmpPathToCleanup st \/ tmpPathToCleanup st' = tmp.

(** Is [p] the directory [dir] or a path below it? *)
Definition inside (dir p : string) : Prop :=
  p = dir \/ JsString.startsWith p (dir +:+ "/") = true.

(** Every file there is afterwards was there before or is one of [allowed]. *)
Definition writes_only (allowed : string -> Prop) : relation JobState := fun st st' =>
  forall p, p ∈ files st' -> p ∈ files st \/ allowed p.

(** The files a step can write: a screenshot one file of the output
    directory of the job, under a name [validateArtifactFilename] accepts; an
    upload from a URL the file it downloads to the temporary directory of the
    job; [saveStorage] the state file of its session.  No other step writes
    a file. *)
Definition written_by `{JsRuntime} (config : PlaywrightRunnerConfig)
    (jobOutputDir jobTmpDir : string) (action : PlaywrightAction) (p : string) : Prop :=
  match action with
  | ScreenshotAction _ _ =>
      exists filename,
        Storage.validateArtifactFilename filename = Ok tt
        /\ p = Path.join [jobOutputDir; filename]
  | UploadFromUrlAction _ url =>
      exists contentType,
        p = Path.join [jobTmpDir; createSafeFileName url (mapImageExtension contentType)]
  | SaveStorageAction session =>
      Storage.getSessionStatePath (storageDir config) session = Ok p
  | _ => False
  end.

(** [always_ends m]: from every state, [m] returns or throws. *)
Definition always_ends {A} (m : M A) : Prop :=
  forall st, exists r st', m st = Some (r, st').

(** The names [resolveUniqueFileName] tries for a file name [b.ext], in
    order: [b.ext], [b-1.ext], [b-2.ext], ... *)
Definition candidate_name (baseName ext : string) (k : nat) : string :=
  match k with
  | O => baseName +:+ ext
  | S _ => baseName +:+ "-" +:+ pretty k +:+ ext
  end.

(** Only the clock and the log have moved. *)
Definition log_only : relation JobState := fun st st' =>
  calls st' = calls st /\ files st' = files st /\ outputs st' = outputs st
  /\ listening st' = listening st /\ browser st' = browser st
  /\ context st' = context st /\ tmpPathToCleanup st' = tmpPathToCleanup st.

(** * Properties *)

(** ** Tools for computations of the job *)

Ltac unfold_M :=
  unfold mbind, M_bind, mret, M_ret, throw, lift, get_state, modify, diverge,
    try_catch, try_finally, or_else in *.

(** ** The deadline of a job *)

Lemma Date_now_eq W st : Date_now W st = Some (Ok (clock W (ticks st)), set_ticks S st).
Proof. reflexivity. Qed.

Lemma ensureTimeRemaining_late W st d name :
  d - clock W (ticks st) <= 0 ->
  ensureTimeRemaining W d name st
  = Some (Throw (http 408 (MJobTimeoutBefore name)), set_ticks S st).
Proof.
  intros Hlate. unfold ensureTimeRemaining. unfold_M. rewrite Date_now_eq.
  destruct (Z.leb_spec (d - clock W (ticks st)) 0) as [_|Hgt]; [reflexivity | lia].
Qed.

Lemma ensureTimeRemaining_in_time W st d name :
  0 < d - clock W (ticks st) ->
  ensureTimeRemaining W d name st = Some (Ok tt, set_ticks S st).
Proof.
  intros Hok. unfold ensureTimeRemaining. unfold_M. rewrite Date_now_eq.
  destruct (Z.leb_spec (d - clock W (ticks st)) 0) as [Hle|_]; [lia | reflexivity].
Qed.

Lemma executeAction_late `{JsRuntime} W st action jobId d config out tmp :
  d - clock W (ticks st) <= 0 ->
  executeAction W action jobId d config out tmp st
  = Some (Throw (http 408 (MJobTimeoutBefore (action_name action))), set_ticks S st).
Proof.
  intros Hlate. unfold executeAction.
  unfold mbind at 1. unfold M_bind at 1.
  rewrite (ensureTimeRemaining_late W st d _ Hlate). reflexivity.
Qed.

(** C3. With [t] the clock reading taken by the call and [d] the deadline:
    when [d - t > 0], [resolveStepTimeout d r] for a request [r >= 1] returns
    [min r (d - t)], [resolveStepTimeout d] without request returns [d - t],
    and the value returned never exceeds [d - t]; when [d - t <= 0], both
    [resolveStepTimeout] and [ensureTimeRemaining] throw the status-408 error
    of the exhausted job, and [executeAction] throws it before any call is
    issued: the state it leaves differs only in the clock reading taken. *)
Theorem resolveStepTimeout_spec `{JsRuntime} (W : World) (st : JobState) (d : Z) :
  let t := clock W (ticks st) in
  (0 < d - t ->
   (forall r, 1 <= r ->
      resolveStepTimeout W d (Some r) st = Some (Ok (Z.min r (d - t)), set_ticks S st))
   /\ resolveStepTimeout W d None st = Some (Ok (d - t), set_ticks S st)
   /\ (forall r timeout st',
         resolveStepTimeout W d r st = Some (Ok timeout, st') -> timeout <= d - t))
  /\ (d - t <= 0 ->
      (forall r, resolveStepTimeout W d r st
                 = Some (Throw (http 408 MJobTimeout), set_ticks S st))
      /\ (forall name, ensureTimeRemaining W d name st
                       = Some (Throw (http 408 (MJobTimeoutBefore name)), set_ticks S st))
      /\ (forall action jobId config out tmp,
            executeAction W action jobId d config out tmp st
            = Some (Throw (http 408 (MJobTimeoutBefore (action_name action))),
                    set_ticks S st)
            /\ calls (set_ticks S st) = calls st)).
Proof.
  intros t. subst t. split.
  - intros Hpos. repeat split.
    + intros r Hr. unfold resolveStepTimeout. unfold_M. rewrite Date_now_eq.
      destruct (Z.leb_spec (d - clock W (ticks st)) 0) as [Hle|_]; [lia|].
      do 3 f_equal. lia.
    + unfold resolveStepTimeout. unfold_M. rewrite Date_now_eq.
      destruct (Z.leb_spec (d - clock W (ticks st)) 0) as [Hle|_]; [lia | reflexivity].
    + intros r timeout st'. unfold resolveStepTimeout. unfold_M. rewrite Date_now_eq.
      destruct (Z.leb_spec (d - clock W (ticks st)) 0) as [Hle|_]; [lia|].
      destruct r as [r|]; intros [= <- _]; lia.
  - intros Hlate. repeat split.
    + intros r. unfold resolveStepTimeout. unfold_M. rewrite Date_now_eq.
      destruct (Z.leb_spec (d - clock W (ticks st)) 0) as [_|Hgt]; [reflexivity | lia].
    + intros name. by apply ensureTimeRemaining_late.
    + by apply executeAction_late.
Qed.

Lemma resolveStepTimeout_spec_witness :
  resolveStepTimeout Example.world 1010 (Some 3) Example.idle
  = Some (Ok 3, set_ticks S Example.idle)
  /\ resolveStepTimeout Example.world 1010 (Some 30) Example.idle
     = Some (Ok 10, set_ticks S Example.idle)
  /\ resolveStepTimeout Example.world 1010 None Example.idle
     = Some (Ok 10, set_ticks S Example.idle)
  /\ resolveStepTimeout Example.world 1000 (Some 3) Example.idle
     = Some (Throw (http 408 MJobTimeout), set_ticks S Example.idle)
  /\ ensureTimeRemaining Example.world 1000 "goto" Example.idle
     = Some (Throw (http 408 (MJobTimeoutBefore "goto")), set_ticks S Example.idle).
Proof.
  destruct (resolveStepTimeout_spec (H := RefRuntime.runtime) Example.world Example.idle 1010)
    as [Hin _].
  destruct (resolveStepTimeout_spec (H := RefRuntime.runtime) Example.world Example.idle 1000)
    as [_ Hlate].
  destruct Hin as (Hreq & Hnone & _); [simpl; lia|].
  destruct Hlate as (Hst & Hens & _); [simpl; lia|].
  split; [exact (Hreq 3 ltac:(lia))|].
  split; [exact (Hreq 30 ltac:(lia))|].
  split; [exact Hnone|].
  split; [exact (Hst (Some 3)) | exact (Hens "goto")].
Defined.

(** ** The domain allowlist *)

Import Validators.

Lemma assertAllowedDomain_parsed `{JsRuntime} url parsed allowed field :
  allowed <> [] ->
  new_URL url = Some parsed ->
  assertAllowedDomain url allowed field
  = if existsb (fun domain =>
                  JsString.eqb (JsString.toLowerCase (hostname parsed)) domain
                  || JsString.endsWith (JsString.toLowerCase (hostname parsed))
                       ("." +:+ domain)) allowed
    then Ok tt else Throw (http 400 (MDomainBlocked field allowed)).
Proof.
  intros Hne Hurl. unfold assertAllowedDomain. rewrite Hurl.
  destruct allowed as [|d ds]; [done|]. simpl length. cbv beta iota.
  change (S (length ds) =? 0)%nat with false. cbv iota.
  by destruct (existsb _ _).
Qed.

(** C4 (as stated, refuted).  With an empty allowlist a string that is not a
    URL is let through: [assertAllowedDomain] returns before it parses. *)
Lemma assertAllowedDomain_empty_allowlist_skips_parsing :
  new_URL (JsRuntime := RefRuntime.runtime) "not a url" = None
  /\ assertAllowedDomain (H := RefRuntime.runtime) "not a url" [] "actions[0].url" = Ok tt.
Proof. split; reflexivity. Qed.

(** C4 (amended).  For a string that does not parse as a URL, a non-empty
    allowlist makes [assertAllowedDomain] throw the status-400 error "the
    field must hold a valid URL", which is not the blocked-domain error; with
    an empty allowlist the string is accepted unparsed. *)
Theorem assertAllowedDomain_malformed `{JsRuntime} (url : string) (allowed : list string)
    (field : string) :
  new_URL url = None ->
  (allowed <> [] -> assertAllowedDomain url allowed field = Throw (http 400 (MUrlInvalid field)))
  /\ assertAllowedDomain url [] field = Ok tt
  /\ (forall domains, http 400 (MUrlInvalid field) <> http 400 (MDomainBlocked field domains)).
Proof.
  intros Hurl. repeat split.
  - intros Hne. unfold assertAllowedDomain. rewrite Hurl.
    by destruct allowed.
  - intros domains [=].
Qed.

Lemma assertAllowedDomain_malformed_witness :
  assertAllowedDomain (H := RefRuntime.runtime) "not a url" ["example.com"] "actions[0].url"
  = Throw (http 400 (MUrlInvalid "actions[0].url"))
  /\ assertAllowedDomain (H := RefRuntime.runtime) "not a url" [] "actions[0].url" = Ok tt.
Proof.
  destruct (assertAllowedDomain_malformed (H := RefRuntime.runtime)
              "not a url" ["example.com"] "actions[0].url" ltac:(reflexivity))
    as (Hthrow & Hempty & _).
  split; [apply Hthrow; discriminate | exact Hempty].
Defined.

(** C7.  With the allowlist [["example.com"]] and a parser that gives the four
    URLs their host names, [https://example.com/x] and
    [https://sub.example.com/x] are permitted, [https://notexample.com/x] and
    [https://example.com.evil.net/x] are rejected with the blocked-domain
    error; in general a URL is permitted exactly when its host name, in lower
    case, is [example.com] or ends with [.example.com]. *)
Theorem assertAllowedDomain_example_com `{JsRuntime} (field : string) :
  hostname <$> new_URL "https://example.com/x" = Some "example.com" ->
  hostname <$> new_URL "https://sub.example.com/x" = Some "sub.example.com" ->
  hostname <$> new_URL "https://notexample.com/x" = Some "notexample.com" ->
  hostname <$> new_URL "https://example.com.evil.net/x" = Some "example.com.evil.net" ->
  assertAllowedDomain "https://example.com/x" ["example.com"] field = Ok tt
  /\ assertAllowedDomain "https://sub.example.com/x" ["example.com"] field = Ok tt
  /\ assertAllowedDomain "https://notexample.com/x" ["example.com"] field
     = Throw (http 400 (MDomainBlocked field ["example.com"]))
  /\ assertAllowedDomain "https://example.com.evil.net/x" ["example.com"] field
     = Throw (http 400 (MDomainBlocked field ["example.com"]))
  /\ (forall url parsed, new_URL url = Some parsed ->
        assertAllowedDomain url ["example.com"] field
        = if JsString.eqb (JsString.toLowerCase (hostname parsed)) "example.com"
             || JsString.endsWith (JsString.toLowerCase (hostname parsed)) ".example.com"
          then Ok tt else Throw (http 400 (MDomainBlocked field ["example.com"]))).
Proof.
  assert (Hgen : forall url parsed, new_URL url = Some parsed ->
            assertAllowedDomain url ["example.com"] field
            = if JsString.eqb (JsString.toLowerCase (hostname parsed)) "example.com"
                 || JsString.endsWith (JsString.toLowerCase (hostname parsed)) ".example.com"
              then Ok tt else Throw (http 400 (MDomainBlocked field ["example.com"]))).
  { intros url parsed Hurl.
    rewrite (assertAllowedDomain_parsed url parsed ["example.com"] field); [|done|done].
    simpl existsb. rewrite orb_false_r. reflexivity. }
  intros H1 H2 H3 H4.
  destruct (new_URL "https://example.com/x") as [p1|] eqn:E1; [|done].
  destruct (new_URL "https://sub.example.com/x") as [p2|] eqn:E2; [|done].
  destruct (new_URL "https://notexample.com/x") as [p3|] eqn:E3; [|done].
  destruct (new_URL "https://example.com.evil.net/x") as [p4|] eqn:E4; [|done].
  simpl in H1, H2, H3, H4.
  injection H1 as H1. injection H2 as H2. injection H3 as H3. injection H4 as H4.
  repeat split.
  - rewrite (Hgen _ _ E1), H1. reflexivity.
  - rewrite (Hgen _ _ E2), H2. reflexivity.
  - rewrite (Hgen _ _ E3), H3. reflexivity.
  - rewrite (Hgen _ _ E4), H4. reflexivity.
  - exact Hgen.
Qed.

Lemma assertAllowedDomain_example_com_witness :
  assertAllowedDomain (H := RefRuntime.runtime) "https://sub.example.com/x" ["example.com"]
    "actions[0].url" = Ok tt
  /\ assertAllowedDomain (H := RefRuntime.runtime) "https://example.com.evil.net/x"
       ["example.com"] "actions[0].url"
     = Throw (http 400 (MDomainBlocked "actions[0].url" ["example.com"])).
Proof.
  destruct (assertAllowedDomain_example_com (H := RefRuntime.runtime) "actions[0].url"
              ltac:(reflexivity) ltac:(reflexivity) ltac:(reflexivity) ltac:(reflexivity))
    as (_ & Hsub & _ & Hevil & _).
  split; [exact Hsub | exact Hevil].
Defined.

(** ** The validator *)

Lemma returns_bind {A B} (P : B -> Prop) (m : Result A) (k : A -> Result B) :
  (forall a, returns P (k a)) -> returns P (m ≫= k).
Proof. intros Hk. destruct m as [a|e]; [apply Hk | exact I]. Qed.

Ltac returns_tac :=
  repeat first
    [ apply returns_bind; intros
    | match goal with
      | |- returns _ (if ?c then _ else _) => destruct c
      | |- returns _ (match ?x with _ => _ end) => destruct x
      end
    | exact I
    | simpl; discriminate ].

Ltac case_result :=
  match goal with
  | H : context [match ?x with _ => _ end] |- _ =>
      let E := fresh "E" in destruct x eqn:E; try discriminate H
  end.

(** C1.  A step whose [action] is the string [evaluate] is rejected by
    [parseAction] with the status-400 error "invalid action", whatever its
    other fields; so is the short form [{ evaluate: {...} }]; and no step at
    all is turned into an [EvaluateAction]. *)
Theorem parseAction_rejects_evaluate `{JsRuntime} (index : nat) (allowed : list string) :
  (forall fields,
     Js.get fields "action" = JString "evaluate" ->
     parseAction (JObject fields) index allowed
     = Throw (http 400 (MActionInvalid ("actions[" +:+ pretty index +:+ "]") "evaluate")))
  /\ (forall nested,
        parseAction (JObject [("evaluate", nested)]) index allowed
        = Throw (http 400 (MShortInvalid ("actions[" +:+ pretty index +:+ "]") "evaluate")))
  /\ (forall rawAction action,
        parseAction rawAction index allowed = Ok action ->
        action_name action <> "evaluate").
Proof.
  repeat split.
  - intros fields Haction.
    unfold parseAction, normalizeActionObject, requireObject.
    unfold mbind, result_bind. cbv zeta. rewrite !Haction. reflexivity.
  - intros rawAction action Hparse.
    assert (Hall : returns (fun a => action_name a <> "evaluate")
                     (parseAction rawAction index allowed)).
    { unfold parseAction. cbv zeta. returns_tac. }
    rewrite Hparse in Hall. exact Hall.
Qed.

Lemma parseAction_rejects_evaluate_witness :
  parseAction (H := RefRuntime.runtime)
    (JObject [("action", JString "evaluate"); ("script", JString "(text) => { return 1; }")])
    2 []
  = Throw (http 400 (MActionInvalid "actions[2]" "evaluate")).
Proof.
  exact (proj1 (parseAction_rejects_evaluate (H := RefRuntime.runtime) 2 [])
           [("action", JString "evaluate");
            ("script", JString "(text) => { return 1; }")]
           ltac:(reflexivity)).
Defined.

(** The request of the repository's own client script is turned down at its
    third step. *)
Example parseRunRequestBody_twitter_post_image :
  parseRunRequestBody (H := RefRuntime.runtime) Example.twitter_post_image_payload Example.options
  = Throw (http 400 (MActionInvalid "actions[2]" "evaluate")).
Proof. vm_compute. reflexivity. Qed.

(** C9.  A request accepted by [parseRunRequestBody] has no [proxy],
    [blockResources], [userAgent] or [viewport], whatever the payload held;
    the values the runner derives from them are its defaults. *)
Theorem parseRunRequestBody_browser_options_unset `{JsRuntime} (body : JsValue)
    (options : Options) (request : PlaywrightRunRequest) :
  parseRunRequestBody body options = Ok request ->
  proxy request = None /\ blockResources request = None
  /\ userAgent request = None /\ viewport request = None
  /\ default DEFAULT_VIEWPORT (viewport request) = DEFAULT_VIEWPORT
  /\ Js.or_default (userAgent request) DEFAULT_USER_AGENT = DEFAULT_USER_AGENT.
Proof.
  unfold parseRunRequestBody, mbind, result_bind. intros Hparse.
  repeat case_result.
  injection Hparse as <-. repeat split.
Qed.

Lemma parseRunRequestBody_browser_options_unset_witness :
  parseRunRequestBody (H := RefRuntime.runtime) Example.payload_with_browser_options Example.options
  = Ok (Example.request 5000 [GotoAction "https://example.com" None])
  /\ proxy (Example.request 5000 [GotoAction "https://example.com" None]) = None
  /\ userAgent (Example.request 5000 [GotoAction "https://example.com" None]) = None
  /\ viewport (Example.request 5000 [GotoAction "https://example.com" None]) = None.
Proof.
  assert (Hparse : parseRunRequestBody (H := RefRuntime.runtime)
                     Example.payload_with_browser_options Example.options
                   = Ok (Example.request 5000 [GotoAction "https://example.com" None])).
  { vm_compute. reflexivity. }
  destruct (parseRunRequestBody_browser_options_unset (H := RefRuntime.runtime)
              Example.payload_with_browser_options Example.options
              (Example.request 5000 [GotoAction "https://example.com" None]) Hparse)
    as (Hp & _ & Hu & Hv & _).
  split; [exact Hparse | split; [exact Hp | split; [exact Hu | exact Hv]]].
Defined.

(** ** What a computation leaves unchanged *)

Section Frame.
Context (R : relation JobState) `{!PreOrder R}.

Lemma preserves_ret {A} (a : A) : preserves R (mret a).
Proof. intros st r st' [= <- <-]. reflexivity. Qed.

Lemma preserves_throw {A} (e : Exn) : preserves R (throw (A := A) e).
Proof. intros st r st' [= <- <-]. reflexivity. Qed.

Lemma preserves_lift {A} (x : Result A) : preserves R (lift x).
Proof. intros st r st' [= <- <-]. reflexivity. Qed.

Lemma preserves_get_state : preserves R get_state.
Proof. intros st r st' [= <- <-]. reflexivity. Qed.

Lemma preserves_diverge {A} : preserves R (diverge (A := A)).
Proof. intros st r st' [=]. Qed.

Lemma preserves_modify (f : JobState -> JobState) :
  (forall st, R st (f st)) -> preserves R (modify f).
Proof. intros Hf st r st' [= <- <-]. apply Hf. Qed.

Lemma preserves_bind {A B} (m : M A) (k : A -> M B) :
  preserves R m -> (forall a, preserves R (k a)) -> preserves R (m ≫= k).
Proof.
  intros Hm Hk st r st'. unfold mbind, M_bind.
  destruct (m st) as [[[a|e] st1]|] eqn:Em; [| |done].
  - intros Hrun. etrans; [exact (Hm _ _ _ Em) | exact (Hk _ _ _ _ Hrun)].
  - intros [= <- <-]. exact (Hm _ _ _ Em).
Qed.

Lemma preserves_lift_bind {A B} (x : Result A) (k : A -> M B) :
  (forall a, x = Ok a -> preserves R (k a)) -> preserves R (lift x ≫= k).
Proof.
  intros Hk st r st'. unfold mbind, M_bind, lift. destruct x as [a|e].
  - by apply Hk.
  - intros [= <- <-]. reflexivity.
Qed.

Lemma preserves_try_catch {A} (m : M A) (handler : Exn -> M A) :
  preserves R m -> (forall e, preserves R (handler e)) -> preserves R (try_catch m handler).
Proof.
  intros Hm Hh st r st'. unfold try_catch.
  destruct (m st) as [[[a|e] st1]|] eqn:Em; [| |done].
  - intros [= <- <-]. exact (Hm _ _ _ Em).
  - intros Hrun. etrans; [exact (Hm _ _ _ Em) | exact (Hh _ _ _ _ Hrun)].
Qed.

Lemma preserves_try_finally {A} (m : M A) (cleanup : M unit) :
  preserves R m -> preserves R cleanup -> preserves R (try_finally m cleanup).
Proof.
  intros Hm Hc st r st'. unfold try_finally.
  destruct (m st) as [[r1 st1]|] eqn:Em; [|done].
  destruct (cleanup st1) as [[[u|e] st2]|] eqn:Ec; [| |done].
  - intros [= <- <-]. etrans; [exact (Hm _ _ _ Em) | exact (Hc _ _ _ Ec)].
  - intros [= <- <-]. etrans; [exact (Hm _ _ _ Em) | exact (Hc _ _ _ Ec)].
Qed.

Lemma preserves_or_else {A} (m : M A) (fallback : A) :
  preserves R m -> preserves R (or_else m fallback).
Proof.
  intros Hm. apply preserves_try_catch; [exact Hm|]. intros e. apply preserves_ret.
Qed.

(** Computations that only read the clock, write benign log lines and issue
    calls, for a relation that tolerates those effects. *)
Context (benign : LogMsg -> Prop).
Hypothesis R_ticks : forall st, R st (set_ticks S st).
Hypothesis R_calls : forall f st, R st (set_calls f st).
Hypothesis R_logs : forall t msg st,
  benign msg -> R st (set_logs (fun l => l ++ [{| at_ms := t; line := msg |}]) st).
Hypothesis benign_console : forall type text, benign (LConsole type text).
Hypothesis benign_pageerror : forall text, benign (LPageError text).
Context (W : World).

Lemma preserves_Date_now : preserves R (Date_now W).
Proof. intros st r st' [= <- <-]. apply R_ticks. Qed.

Lemma preserves_appendLog msg : benign msg -> preserves R (appendLog W msg).
Proof.
  intros Hmsg. unfold appendLog. apply preserves_bind; [apply preserves_Date_now|].
  intros t. apply preserves_modify. intros st. by apply R_logs.
Qed.

Lemma preserves_deliver_all es : preserves R (deliver_all W es).
Proof.
  induction es as [|e es IH]; simpl; [apply preserves_ret|].
  apply preserves_bind; [|intros _; exact IH].
  destruct e; simpl; apply preserves_appendLog; auto.
Qed.

Lemma preserves_await c : preserves R (await W c).
Proof.
  unfold await. apply preserves_bind; [apply preserves_get_state|]. intros st0.
  apply preserves_bind; [apply preserves_modify; intros; apply R_calls|]. intros _.
  apply preserves_bind; [|intros _; apply preserves_ret].
  destruct (listening st0); [apply preserves_deliver_all | apply preserves_ret].
Qed.

Lemma preserves_call c : preserves R (call W c).
Proof.
  unfold call. apply preserves_bind; [apply preserves_await|]. intros n.
  destruct (answer W n); [apply preserves_ret | apply preserves_throw].
Qed.

Lemma preserves_call_fetch url timeoutMs : preserves R (call_fetch W url timeoutMs).
Proof.
  unfold call_fetch. apply preserves_bind; [apply preserves_await|]. intros n.
  destruct (answer W n); [apply preserves_ret | apply preserves_throw].
Qed.

Lemma preserves_fileExists p : preserves R (fileExists p).
Proof.
  unfold fileExists. apply preserves_bind; [apply preserves_get_state|].
  intros st0. apply preserves_ret.
Qed.

Lemma preserves_ensureTimeRemaining d name : preserves R (ensureTimeRemaining W d name).
Proof.
  unfold ensureTimeRemaining. apply preserves_bind; [apply preserves_Date_now|].
  intros now. destruct (_ <=? _); [apply preserves_throw | apply preserves_ret].
Qed.

Lemma preserves_resolveStepTimeout d r : preserves R (resolveStepTimeout W d r).
Proof.
  unfold resolveStepTimeout. apply preserves_bind; [apply preserves_Date_now|].
  intros now. destruct (_ <=? _); [apply preserves_throw|].
  destruct r; apply preserves_ret.
Qed.
End Frame.

(** [await] always returns, with the position of the call in the trace. *)
Lemma deliver_all_returns W es st :
  exists st', deliver_all W es st = Some (Ok tt, st').
Proof.
  revert st. induction es as [|e es IH]; intros st; simpl; [by eexists|].
  unfold mbind, M_bind.
  assert (Hd : exists st1, deliver W e st = Some (Ok tt, st1)).
  { destruct e; simpl; unfold appendLog; unfold_M; rewrite Date_now_eq; by eexists. }
  destruct Hd as [st1 ->]. apply IH.
Qed.

Lemma await_returns W c st :
  exists st', await W c st = Some (Ok (length (calls st)), st').
Proof.
  unfold await. unfold_M. destruct (listening st); [|by eexists].
  destruct (deliver_all_returns W (events W (length (calls st)))
              (set_calls (fun l => l ++ [c]) st)) as [st1 ->].
  by eexists.
Qed.

(** ** Downloads *)

Lemma limitAndCount_exceeds source breaks acc maxBytes n :
  acc <= maxBytes ->
  maxBytes < acc + streamed_bytes source n ->
  exists total,
    limitAndCount source breaks acc maxBytes
    = (total, Some (http 400 (MDownloadTooLarge maxBytes)))
    /\ maxBytes < total.
Proof.
  revert acc n. induction source as [|chunk rest IH]; intros acc n Hacc Hover.
  - unfold streamed_bytes in Hover. rewrite take_nil in Hover. simpl in Hover. lia.
  - simpl. destruct (Z.gtb_spec (acc + Z.of_nat (length chunk)) maxBytes) as [Hgt|Hle].
    + eexists. split; [reflexivity | lia].
    + destruct n as [|n].
      { unfold streamed_bytes in Hover. simpl in Hover. lia. }
      apply (IH _ n); [lia|].
      unfold streamed_bytes in *. simpl in Hover. rewrite length_app in Hover. lia.
Qed.

#[local] Instance same_files_preorder : PreOrder same_files.
Proof.
  split; [intros st; reflexivity|].
  intros a b c Hab Hbc. unfold same_files in *. congruence.
Qed.

Lemma await_same_files W c st st' n :
  await W c st = Some (Ok n, st') -> files st' = files st.
Proof.
  intros Hrun.
  by apply (preserves_await same_files (fun _ => True) (fun _ => eq_refl)
              (fun _ _ => eq_refl) (fun _ _ _ _ => eq_refl) (fun _ _ => I) (fun _ => I)
              W c st (Ok n) st').
Qed.

#[local] Instance same_calls_preorder : PreOrder same_calls.
Proof.
  split; [intros st; reflexivity|].
  intros a b c Hab Hbc. unfold same_calls in *. congruence.
Qed.

Lemma await_calls W c st st' n :
  await W c st = Some (Ok n, st') -> calls st' = calls st ++ [c].
Proof.
  unfold await. unfold_M. destruct (listening st).
  - destruct (deliver_all W (events W (length (calls st)))
                (set_calls (fun l => l ++ [c]) st)) as [[[[]|e] s]|] eqn:Hrun;
      intros [= _ <-];
      exact (preserves_deliver_all same_calls (fun _ => True) (fun _ => eq_refl)
               (fun _ _ _ _ => eq_refl) (fun _ _ => I) (fun _ => I) W _ _ _ _ Hrun).
  - by intros [= _ <-].
Qed.

(** C2 (as stated, refuted).  A response without [content-length] whose two
    chunks of three bytes exceed a limit of four bytes, in a world where the
    write stream has opened its file when the pipeline fails: the download
    fails with the size-limit error, no removal has been called, and the
    destination file is there when the call has failed. *)
Lemma downloadImageFromUrl_oversize_file_left_behind :
  content_length Example.image = None
  /\ match downloadImageFromUrl (H := RefRuntime.runtime) Example.world
           "https://example.com/a/pic.png" "/tmp/pw/job" 4 30000 [] Example.idle with
     | Some (Throw e, st') =>
         e = http 400 (MDownloadTooLarge 4)
         /\ elements (files st') = ["/tmp/pw/job/pic.png"]
         /\ calls st' = [CallFetch "https://example.com/a/pic.png" 30000]
     | _ => False
     end.
Proof. vm_compute. repeat split. Qed.

(** C2 (amended).  When the download reaches the body and the bytes streamed
    exceed a limit [maxBytes >= 0], with or without [content-length] header,
    [downloadImageFromUrl] fails with the status-400 size-limit error and
    does not delete the destination file: the fetch is the only call it has
    made, no removal among them, so the file is there in the state the call
    leaves if the write stream had created it by then, and no other file has
    changed. *)
Theorem downloadImageFromUrl_oversize `{JsRuntime} (W : World) (url dir : string)
    (maxBytes timeoutMs : Z) (allowed : list string) (st : JobState)
    (fetched : Response) (body : Body) (n : nat) (v : JsValue) :
  assertAllowedDomain url allowed "uploadFromUrl.url" = Ok tt ->
  answer W (length (calls st)) = Resolved v ->
  response W (length (calls st)) = fetched ->
  r_ok fetched = true ->
  JsString.startsWith (response_content_type fetched) "image/" = true ->
  declares_too_large fetched maxBytes = false ->
  r_body fetched = Some body ->
  0 <= maxBytes ->
  maxBytes < streamed_bytes (chunks body) n ->
  exists st',
    downloadImageFromUrl W url dir maxBytes timeoutMs allowed st
    = Some (Throw (http 400 (MDownloadTooLarge maxBytes)), st')
    /\ calls st' = calls st ++ [CallFetch url timeoutMs]
    /\ files st'
       = if opened W (S (length (calls st)))
         then {[Path.join [dir; createSafeFileName url
                                  (mapImageExtension (response_content_type fetched))]]}
              ∪ files st
         else files st.
Proof.
  intros Hallow Hanswer Hresp Hok Himage Hdeclared Hbody Hmax Hover.
  destruct (limitAndCount_exceeds (chunks body) (breaks body) 0 maxBytes n Hmax
              ltac:(lia)) as (total & Hcount & Htotal).
  destruct (await_returns W (CallFetch url timeoutMs) st) as [st1 Hawait].
  pose proof (await_same_files _ _ _ _ _ Hawait) as Hfiles.
  pose proof (await_calls _ _ _ _ _ Hawait) as Hcalls.
  assert (Hlen : length (calls st1) = S (length (calls st))).
  { rewrite Hcalls, length_app. simpl. lia. }
  set (path := Path.join [dir; createSafeFileName url
                                 (mapImageExtension (response_content_type fetched))]).
  exists (if opened W (S (length (calls st)))
          then set_files (fun fs => {[path]} ∪ fs) st1 else st1).
  split; [|split].
  - unfold downloadImageFromUrl.
    unfold mbind at 1. unfold M_bind at 1. unfold lift. rewrite Hallow.
    unfold mbind at 1. unfold M_bind at 1.
    unfold try_catch at 1. unfold call_fetch.
    unfold mbind at 1. unfold M_bind at 1. rewrite Hawait, Hanswer.
    unfold mret at 1. unfold M_ret at 1. rewrite Hresp.
    rewrite Hok. cbv zeta. rewrite Himage, Hdeclared, Hbody. simpl negb. cbv iota.
    rewrite Hcount. fold path. unfold try_finally, pipeline, modify. unfold_M.
    change (negb true) with false. cbv beta iota. rewrite Hlen.
    destruct (Z.eqb_spec total 0) as [Hz|_]; [lia|].
    by destruct (opened W (S (length (calls st)))).
  - by destruct (opened W (S (length (calls st)))).
  - destruct (opened W (S (length (calls st)))); simpl; by rewrite Hfiles.
Qed.

Lemma downloadImageFromUrl_oversize_witness :
  exists st',
    downloadImageFromUrl (H := RefRuntime.runtime) Example.world
      "https://example.com/a/pic.png" "/tmp/pw/job" 4 30000 [] Example.idle
    = Some (Throw (http 400 (MDownloadTooLarge 4)), st')
    /\ calls st' = calls Example.idle ++ [CallFetch "https://example.com/a/pic.png" 30000]
    /\ files st'
       = if opened Example.world (S (length (calls Example.idle)))
         then {[Path.join ["/tmp/pw/job";
                           createSafeFileName (H := RefRuntime.runtime)
                             "https://example.com/a/pic.png"
                             (mapImageExtension (response_content_type Example.image))]]}
              ∪ files Example.idle
         else files Example.idle.
Proof.
  apply (downloadImageFromUrl_oversize (H := RefRuntime.runtime) Example.world
           "https://example.com/a/pic.png" "/tmp/pw/job" 4 30000 [] Example.idle
           Example.image
           {| chunks := [[Byte.x89; Byte.x50; Byte.x4e]; [Byte.x47; Byte.x0d; Byte.x0a]];
              breaks := None |} 2 JUndefined);
    first [reflexivity | lia | (vm_compute; lia)].
Defined.

(** ** Strings and paths *)

Import JsString.

Lemma append_cons (x : ascii) (a b : string) : String x a +:+ b = String x (a +:+ b).
Proof. reflexivity. Qed.

Lemma append_nil (b : string) : EmptyString +:+ b = b.
Proof. reflexivity. Qed.

Lemma append_assoc (a b c : string) : (a +:+ b) +:+ c = a +:+ (b +:+ c).
Proof.
  induction a as [|x a IH]; [reflexivity|]. rewrite !append_cons. by f_equal.
Qed.

Lemma append_empty_r (a : string) : a +:+ EmptyString = a.
Proof. induction a as [|x a IH]; [reflexivity|]. rewrite append_cons. by f_equal. Qed.

Lemma append_inv_head (a b c : string) : a +:+ b = a +:+ c -> b = c.
Proof. apply String.app_inj. Qed.

Lemma length_append (a b : string) :
  String.length (a +:+ b) = (String.length a + String.length b)%nat.
Proof.
  induction a as [|x a IH]; [reflexivity|]. rewrite append_cons. simpl. by rewrite IH.
Qed.

Lemma eqb_true (a b : string) : eqb a b = true <-> a = b.
Proof. unfold eqb. apply bool_decide_eq_true. Qed.

Lemma eqb_false (a b : string) : eqb a b = false <-> a <> b.
Proof. unfold eqb. apply bool_decide_eq_false. Qed.

Lemma eqb_refl (a : string) : eqb a a = true.
Proof. by apply eqb_true. Qed.

Lemma prefix_append (a b : string) : String.prefix a (a +:+ b) = true.
Proof.
  induction a as [|x a IH]; [by destruct b|]. rewrite append_cons. simpl.
  destruct (ascii_dec x x); [exact IH | done].
Qed.

Lemma split_nonempty sep s : split sep s <> [].
Proof.
  destruct s as [|c s]; simpl; [done|].
  destruct (bool_decide (c = sep)); [done|]. by destruct (split sep s).
Qed.

Lemma split_free sep s : free_of sep s -> split sep s = [s].
Proof.
  unfold free_of. induction s as [|c s IH]; simpl; [done|].
  intros Hfree. apply Forall_cons in Hfree as [Hc Hs].
  rewrite bool_decide_eq_false_2 by done. by rewrite IH.
Qed.

Lemma split_app_free sep (a b : string) :
  free_of sep a ->
  split sep (a +:+ String sep b) = a :: split sep b.
Proof.
  unfold free_of. induction a as [|c a IH].
  - intros _. rewrite append_nil. simpl. by rewrite bool_decide_eq_true_2.
  - intros Hfree. apply Forall_cons in Hfree as [Hc Ha].
    rewrite append_cons. simpl.
    rewrite bool_decide_eq_false_2 by done. by rewrite IH.
Qed.

Lemma split_app sep (a b : string) :
  split sep (a +:+ String sep b) = split sep a ++ split sep b.
Proof.
  induction a as [|c a IH].
  - rewrite append_nil. simpl. by rewrite bool_decide_eq_true_2.
  - rewrite append_cons. simpl.
    destruct (bool_decide (c = sep)); [by rewrite IH|].
    rewrite IH. destruct (split sep a) as [|h t] eqn:E; [|done].
    by destruct (split_nonempty sep a).
Qed.

Lemma join_snoc sep (l : list string) (x : string) :
  JsString.join sep (l ++ [x])
  = match l with
    | [] => x
    | _ => JsString.join sep l +:+ sep +:+ x
    end.
Proof.
  induction l as [|y l IH]; [reflexivity|].
  destruct l as [|z l]; [reflexivity|].
  change (JsString.join sep ((y :: z :: l) ++ [x]))
    with (y +:+ sep +:+ JsString.join sep ((z :: l) ++ [x])).
  rewrite IH. cbv iota.
  change (JsString.join sep (y :: z :: l)) with (y +:+ sep +:+ JsString.join sep (z :: l)).
  by rewrite !append_assoc.
Qed.

Lemma norm_step_plain b kept seg :
  plain_segment seg -> Path.norm_step b kept seg = seg :: kept.
Proof.
  intros (Hne & Hdot & Hdots & _). unfold Path.norm_step.
  rewrite (proj2 (eqb_false seg EmptyString)), (proj2 (eqb_false seg ".")),
    (proj2 (eqb_false seg "..")) by done.
  reflexivity.
Qed.

Lemma norm_step_empty b kept : Path.norm_step b kept EmptyString = kept.
Proof. reflexivity. Qed.

Lemma fold_norm_plain b segs kept :
  Forall plain_segment segs ->
  fold_left (Path.norm_step b) segs kept = rev segs ++ kept.
Proof.
  revert kept. induction segs as [|s segs IH]; intros kept Hall; [reflexivity|].
  apply Forall_cons in Hall as [Hs Hsegs]. simpl.
  rewrite norm_step_plain by done. rewrite IH by done.
  by rewrite <- app_assoc.
Qed.

Lemma split_join_plain segs :
  Forall plain_segment segs -> segs <> [] ->
  split "/" (JsString.join "/" segs) = segs.
Proof.
  induction segs as [|s segs IH]; [done|]. intros Hall _.
  apply Forall_cons in Hall as [Hs Hsegs].
  destruct segs as [|t segs].
  - simpl. apply split_free. apply Hs.
  - change (JsString.join "/" (s :: t :: segs))
      with (s +:+ String "/" (JsString.join "/" (t :: segs))).
    rewrite split_app_free by apply Hs. by rewrite IH.
Qed.

Lemma resolve_loop_acc l acc :
  Path.resolve_loop l acc
  = ((Path.resolve_loop l EmptyString).1 +:+ acc, (Path.resolve_loop l EmptyString).2).
Proof.
  revert acc. induction l as [|p l IH]; intros acc; [reflexivity|].
  simpl. destruct (eqb p EmptyString); [apply IH|].
  destruct (Path.isAbsolute p).
  - simpl. by rewrite !append_assoc.
  - rewrite IH. rewrite (IH (p +:+ "/" +:+ EmptyString)). simpl.
    by rewrite !append_assoc.
Qed.

(** The path built by the loop of [path.resolve] is empty or ends with a
    separator. *)
Lemma resolve_loop_ends_with_sep l acc :
  (acc = EmptyString \/ exists q, acc = q +:+ "/") ->
  (Path.resolve_loop l acc).1 = EmptyString
  \/ exists q, (Path.resolve_loop l acc).1 = q +:+ "/".
Proof.
  revert acc. induction l as [|p l IH]; intros acc Hacc; [exact Hacc|].
  simpl. destruct (eqb p EmptyString); [by apply IH|].
  assert (Hnew : p +:+ "/" +:+ acc = EmptyString \/ exists q, p +:+ "/" +:+ acc = q +:+ "/").
  { right. destruct Hacc as [->|[q ->]].
    - exists p. reflexivity.
    - exists (p +:+ "/" +:+ q). by rewrite !append_assoc. }
  destruct (Path.isAbsolute p); [exact Hnew | by apply IH].
Qed.

Lemma resolve_loop_absolute root cwd :
  Path.isAbsolute cwd = true ->
  (Path.resolve_loop [root; cwd] EmptyString).2 = true.
Proof.
  intros Habs. simpl.
  destruct (eqb root EmptyString).
  - destruct (eqb cwd EmptyString) eqn:E.
    + apply eqb_true in E. by subst.
    + by rewrite Habs.
  - destruct (Path.isAbsolute root); [reflexivity|].
    destruct (eqb cwd EmptyString) eqn:E.
    + apply eqb_true in E. by subst.
    + by rewrite Habs.
Qed.

Lemma plain_not_absolute f : plain_segment f -> Path.isAbsolute f = false.
Proof.
  intros (Hne & _ & _ & Hfree). destruct f as [|c f]; [done|].
  unfold free_of in Hfree. simpl in Hfree. apply Forall_cons in Hfree as [Hc _].
  unfold Path.isAbsolute, startsWith.
  change (String.prefix "/" (String c f))
    with (if ascii_dec "/" c then String.prefix EmptyString f else false).
  destruct (ascii_dec "/" c) as [<-|]; [done | reflexivity].
Qed.

Lemma fold_norm_child b p f :
  plain_segment f ->
  (p = EmptyString \/ exists q, p = q +:+ "/") ->
  fold_left (Path.norm_step b) (split "/" (p +:+ f +:+ "/" +:+ EmptyString)) []
  = f :: fold_left (Path.norm_step b) (split "/" p) [].
Proof.
  intros Hf [->|[q ->]].
  - rewrite append_nil.
    change (f +:+ "/" +:+ EmptyString) with (f +:+ String "/" EmptyString).
    rewrite split_app_free by apply Hf. simpl.
    rewrite (norm_step_plain b [] f) by done. by rewrite !norm_step_empty.
  - change (q +:+ "/") with (q +:+ String "/" EmptyString).
    rewrite append_assoc.
    change (String "/" EmptyString +:+ f +:+ "/" +:+ EmptyString)
      with (String "/" (f +:+ String "/" EmptyString)).
    rewrite !split_app. rewrite (split_free "/" f) by apply Hf.
    simpl split. rewrite !fold_left_app. simpl.
    rewrite !norm_step_empty. by rewrite (norm_step_plain b _ f).
Qed.

(** The shape of [path.resolve(root)] and [path.resolve(root, f)] for a plain
    segment [f], in a process whose working directory is absolute. *)
Lemma resolve_child `{JsRuntime} root f :
  plain_segment f ->
  Path.isAbsolute process_cwd = true ->
  exists kept,
    Path.resolve [root] = "/" +:+ JsString.join "/" (rev kept)
    /\ Path.resolve [root; f] = "/" +:+ JsString.join "/" (rev kept ++ [f]).
Proof.
  intros Hf Hcwd.
  exists (fold_left (Path.norm_step false)
            (split "/" (Path.resolve_loop [root; process_cwd] EmptyString).1) []).
  pose proof (resolve_loop_absolute root process_cwd Hcwd) as Habs.
  pose proof (resolve_loop_ends_with_sep [root; process_cwd] EmptyString (or_introl eq_refl))
    as Hshape.
  unfold Path.resolve. split.
  - change (rev [root] ++ [process_cwd]) with [root; process_cwd].
    destruct (Path.resolve_loop [root; process_cwd] EmptyString) as [p a].
    simpl in Habs. subst a. reflexivity.
  - change (rev [root; f] ++ [process_cwd]) with (f :: [root; process_cwd]).
    assert (Hstep : Path.resolve_loop (f :: [root; process_cwd]) EmptyString
                    = Path.resolve_loop [root; process_cwd] (f +:+ "/" +:+ EmptyString)).
    { change (Path.resolve_loop (f :: [root; process_cwd]) EmptyString)
        with (if eqb f EmptyString then Path.resolve_loop [root; process_cwd] EmptyString
              else if Path.isAbsolute f then (f +:+ "/" +:+ EmptyString, true)
                   else Path.resolve_loop [root; process_cwd] (f +:+ "/" +:+ EmptyString)).
      rewrite (proj2 (eqb_false f EmptyString)) by apply Hf.
      by rewrite plain_not_absolute. }
    rewrite Hstep, resolve_loop_acc.
    destruct (Path.resolve_loop [root; process_cwd] EmptyString) as [p a].
    simpl in Habs, Hshape. subst a. simpl fst. simpl snd. cbv beta iota zeta.
    unfold Path.normalizeString. simpl negb.
    rewrite fold_norm_child by done. reflexivity.
Qed.

Lemma resolveInsideRoot_child `{JsRuntime} root f label :
  plain_segment f ->
  Path.isAbsolute process_cwd = true ->
  Path.resolve [root] <> "/" ->
  Storage.resolveInsideRoot root f label = Ok (Path.resolve [root] +:+ "/" +:+ f)
  /\ Path.resolve [root; f] = Path.resolve [root] +:+ "/" +:+ f.
Proof.
  intros Hf Hcwd Hroot.
  destruct (resolve_child root f Hf Hcwd) as (kept & Hr & Hc).
  assert (Hchild : Path.resolve [root; f] = Path.resolve [root] +:+ "/" +:+ f).
  { rewrite Hc, Hr, join_snoc. destruct (rev kept) as [|k ks] eqn:E.
    - rewrite Hr in Hroot. done.
    - by rewrite !append_assoc. }
  split; [|exact Hchild].
  unfold Storage.resolveInsideRoot. rewrite Hchild.
  assert (Hneq : Path.resolve [root] +:+ "/" +:+ f <> Path.resolve [root]).
  { intros Heq. apply (f_equal String.length) in Heq.
    rewrite !length_append in Heq. simpl in Heq. lia. }
  rewrite (proj2 (eqb_false _ _) Hneq).
  unfold startsWith. rewrite <- append_assoc, prefix_append. reflexivity.
Qed.

(** ** Session files *)

Lemma safe_char_not_slash c : is_safe_char c = true -> c <> "/"%char.
Proof. intros Hsafe ->. vm_compute in Hsafe. discriminate. Qed.

Lemma safe_char_not_space c : is_safe_char c = true -> is_space c = false.
Proof.
  destruct c as [[] [] [] [] [] [] [] []]; vm_compute; intros; congruence.
Qed.

Lemma to_list_append (a b : string) : to_list (a +:+ b) = to_list a ++ to_list b.
Proof.
  induction a as [|x a IH]; [reflexivity|]. rewrite append_cons. simpl. by f_equal.
Qed.

Lemma all_Forall p s : all p s = true <-> Forall (fun c => p c = true) (to_list s).
Proof.
  unfold all. rewrite forallb_forall, Forall_forall.
  split; intros Hall c Hc; apply Hall; by apply list_elem_of_In.
Qed.

Lemma safe_free s : all is_safe_char s = true -> free_of "/" s.
Proof.
  rewrite all_Forall. unfold free_of. intros Hsafe.
  eapply Forall_impl; [exact Hsafe|]. intros c. apply safe_char_not_slash.
Qed.

Lemma session_file_plain s :
  SESSION_REGEX s = true -> plain_segment (s +:+ ".json").
Proof.
  unfold SESSION_REGEX. intros Hre.
  apply andb_prop in Hre as [_ Hsafe].
  assert (Hlen : (5 <= String.length (s +:+ ".json"))%nat).
  { rewrite length_append. simpl. lia. }
  repeat split.
  - intros Heq. rewrite Heq in Hlen. simpl in Hlen. lia.
  - intros Heq. rewrite Heq in Hlen. simpl in Hlen. lia.
  - intros Heq. rewrite Heq in Hlen. simpl in Hlen. lia.
  - unfold free_of. rewrite to_list_append. apply Forall_app. split.
    + by apply safe_free.
    + repeat constructor; discriminate.
Qed.

Lemma drop_while_none p s :
  Forall (fun c => p c = false) (to_list s) -> drop_while p s = s.
Proof.
  destruct s as [|c s]; [done|]. simpl. intros Hall.
  apply Forall_cons in Hall as [-> _]. reflexivity.
Qed.

Lemma drop_while_end_none p s :
  Forall (fun c => p c = false) (to_list s) -> drop_while_end p s = s.
Proof.
  intros Hall. unfold drop_while_end, to_list, of_list.
  rewrite drop_while_none.
  - rewrite list_ascii_of_string_of_list_ascii, rev_involutive.
    apply string_of_list_ascii_of_string.
  - unfold to_list. rewrite list_ascii_of_string_of_list_ascii.
    apply Forall_forall. intros c Hc. apply list_elem_of_In, in_rev in Hc.
    rewrite Forall_forall in Hall. apply Hall. by apply list_elem_of_In.
Qed.

Lemma trim_safe s : all is_safe_char s = true -> trim s = s.
Proof.
  rewrite all_Forall. intros Hsafe.
  assert (Hns : Forall (fun c => is_space c = false) (to_list s)).
  { eapply Forall_impl; [exact Hsafe|]. intros c. apply safe_char_not_space. }
  unfold trim. rewrite (drop_while_none is_space s Hns).
  by apply drop_while_end_none.
Qed.

Lemma validateSessionName_ok v field :
  SESSION_REGEX (trim v) = true ->
  validateSessionName (JString v) field = Ok (trim v).
Proof.
  intros Hre. unfold validateSessionName. rewrite Hre.
  destruct (eqb (trim v) EmptyString) eqn:E; [|reflexivity].
  apply eqb_true in E. rewrite E in Hre. discriminate.
Qed.

Lemma validateSessionName_rejects v field :
  SESSION_REGEX (trim v) = false ->
  exists m, validateSessionName (JString v) field = Throw (http 400 m).
Proof.
  intros Hre. unfold validateSessionName. rewrite Hre.
  destruct (eqb (trim v) EmptyString); by eexists.
Qed.

(** C5 (as stated, refuted).  The string [" a"] does not match the pattern,
    yet [getSessionStatePath] returns a path for it: the name is trimmed before
    it is tested. *)
Lemma getSessionStatePath_accepts_padded_name :
  SESSION_REGEX " a" = false
  /\ Storage.getSessionStatePath (H := RefRuntime.runtime) "/data/states" " a"
     = Ok "/data/states/a.json".
Proof. split; reflexivity. Qed.

(** With the file-system root as storage directory every name is refused:
    the prefix tested is then [//]. *)
Example getSessionStatePath_at_root :
  Storage.getSessionStatePath (H := RefRuntime.runtime) "/" "a"
  = Throw (http 400 (MOutsideRoot "session file")).
Proof. reflexivity. Qed.

(** C5 (amended).  In a process with an absolute working directory:
    for a session whose trimmed value matches [[A-Za-z0-9._-]{1,64}] and a
    storage directory that does not resolve to [/], [getSessionStatePath]
    returns the resolved root, a separator, and the file name
    [<trimmed>.json], which holds no separator: a path strictly inside the
    root; for a session whose trimmed value does not match, it throws a
    status-400 error; a string that matches the pattern is its own trimmed
    value. *)
Theorem getSessionStatePath_spec `{JsRuntime} (storageDir session : string) :
  Path.isAbsolute process_cwd = true ->
  (SESSION_REGEX (trim session) = true ->
   Path.resolve [storageDir] <> "/" ->
   Storage.getSessionStatePath storageDir session
   = Ok (Path.resolve [storageDir] +:+ "/" +:+ (trim session +:+ ".json"))
   /\ free_of "/" (trim session +:+ ".json")
   /\ Path.resolve [storageDir] +:+ "/" +:+ (trim session +:+ ".json")
      <> Path.resolve [storageDir]
   /\ startsWith (Path.resolve [storageDir] +:+ "/" +:+ (trim session +:+ ".json"))
        (Path.resolve [storageDir] +:+ "/") = true)
  /\ (SESSION_REGEX (trim session) = false ->
      exists m, Storage.getSessionStatePath storageDir session = Throw (http 400 m))
  /\ (SESSION_REGEX session = true -> trim session = session).
Proof.
  intros Hcwd. repeat split.
  - unfold Storage.getSessionStatePath. rewrite validateSessionName_ok by done.
    unfold mbind, result_bind.
    by apply resolveInsideRoot_child; [apply session_file_plain| |].
  - by apply session_file_plain.
  - intros Heq. apply (f_equal String.length) in Heq.
    rewrite !length_append in Heq. simpl in Heq. lia.
  - unfold startsWith. rewrite <- append_assoc. apply prefix_append.
  - intros Hre. unfold Storage.getSessionStatePath.
    destruct (validateSessionName_rejects session "session" Hre) as [m ->].
    by exists m.
  - intros Hre. apply trim_safe. unfold SESSION_REGEX in Hre.
    by apply andb_prop in Hre as [_ Hsafe].
Qed.

Lemma getSessionStatePath_spec_witness :
  Storage.getSessionStatePath (H := RefRuntime.runtime) "storageStates" " x-main "
  = Ok "/app/storageStates/x-main.json"
  /\ (exists m, Storage.getSessionStatePath (H := RefRuntime.runtime) "storageStates" "a/b"
                = Throw (http 400 m)).
Proof.
  destruct (getSessionStatePath_spec (H := RefRuntime.runtime) "storageStates" " x-main "
              ltac:(reflexivity)) as (Hin & _ & _).
  destruct (getSessionStatePath_spec (H := RefRuntime.runtime) "storageStates" "a/b"
              ltac:(reflexivity)) as (_ & Hout & _).
  split.
  - exact (proj1 (Hin ltac:(reflexivity) ltac:(vm_compute; discriminate))).
  - exact (Hout ltac:(reflexivity)).
Defined.

(** ** Uploads of local files *)

#[local] Instance log_only_preorder : PreOrder log_only.
Proof.
  split.
  - intros st. by repeat split.
  - intros a b c (?&?&?&?&?&?&?) (?&?&?&?&?&?&?). unfold log_only.
    repeat split; congruence.
Qed.

Lemma log_only_ticks st : log_only st (set_ticks S st).
Proof. by repeat split. Qed.

Lemma log_only_logs t msg st :
  log_only st (set_logs (fun l => l ++ [{| at_ms := t; line := msg |}]) st).
Proof. by repeat split. Qed.

Lemma await_spec W c st :
  exists st', await W c st = Some (Ok (length (calls st)), st')
              /\ log_only (set_calls (fun l => l ++ [c]) st) st'.
Proof.
  unfold await. unfold_M. destruct (listening st) eqn:El.
  - destruct (deliver_all_returns W (events W (length (calls st)))
                (set_calls (fun l => l ++ [c]) st)) as [st1 Hrun].
    rewrite Hrun. eexists. split; [reflexivity|].
    exact (preserves_deliver_all log_only (fun _ => True) log_only_ticks
             (fun t msg st _ => log_only_logs t msg st) (fun _ _ => I) (fun _ => I)
             W _ _ _ _ Hrun).
  - eexists. split; [reflexivity | reflexivity].
Qed.

Lemma isAbsolute_slash s : Path.isAbsolute ("/" +:+ s) = true.
Proof. by destruct s. Qed.

Lemma resolve_absolute_plain `{JsRuntime} segs :
  Forall plain_segment segs ->
  Path.resolve ["/" +:+ JsString.join "/" segs] = "/" +:+ JsString.join "/" segs.
Proof.
  intros Hsegs. unfold Path.resolve.
  change (rev ["/" +:+ JsString.join "/" segs] ++ [process_cwd])
    with ["/" +:+ JsString.join "/" segs; process_cwd].
  change (Path.resolve_loop ["/" +:+ JsString.join "/" segs; process_cwd] EmptyString)
    with (if Path.isAbsolute ("/" +:+ JsString.join "/" segs)
          then (("/" +:+ JsString.join "/" segs) +:+ "/" +:+ EmptyString, true)
          else Path.resolve_loop [process_cwd]
                 (("/" +:+ JsString.join "/" segs) +:+ "/" +:+ EmptyString)).
  rewrite isAbsolute_slash. cbv beta iota zeta. f_equal. unfold Path.normalizeString. simpl negb.
  change (("/" +:+ JsString.join "/" segs) +:+ "/" +:+ EmptyString)
    with (EmptyString +:+ String "/" (JsString.join "/" segs +:+ String "/" EmptyString)).
  rewrite !split_app. simpl split at 1. simpl split at 2.
  rewrite !fold_left_app. simpl fold_left at 2. simpl fold_left at 2.
  rewrite norm_step_empty.
  destruct segs as [|s segs]; [reflexivity|].
  rewrite split_join_plain by done.
  rewrite (fold_norm_plain false (s :: segs)) by done.
  change (fold_left (Path.norm_step false) [EmptyString] (rev (s :: segs) ++ []))
    with (rev (s :: segs) ++ []).
  by rewrite app_nil_r, rev_involutive.
Qed.

Lemma bind_ok {A B} (m : M A) (k : A -> M B) st a st1 :
  m st = Some (Ok a, st1) -> (m ≫= k) st = k a st1.
Proof. intros Hm. unfold mbind, M_bind. by rewrite Hm. Qed.

Lemma bind_throw {A B} (m : M A) (k : A -> M B) st e st1 :
  m st = Some (Throw e, st1) -> (m ≫= k) st = Some (Throw e, st1).
Proof. intros Hm. unfold mbind, M_bind. by rewrite Hm. Qed.

Lemma fileExists_eq p st : fileExists p st = Some (Ok (bool_decide (p ∈ files st)), st).
Proof. reflexivity. Qed.

Lemma call_spec W c st :
  exists st',
    call W c st
    = Some (match answer W (length (calls st)) with
            | Resolved v => Ok v
            | Rejected e => Throw e
            end, st')
    /\ log_only (set_calls (fun l => l ++ [c]) st) st'.
Proof.
  destruct (await_spec W c st) as (st' & Hrun & Hlog).
  exists st'. split; [|exact Hlog].
  unfold call. unfold mbind, M_bind. rewrite Hrun.
  by destruct (answer W (length (calls st))).
Qed.

Lemma resolveStepTimeout_in_time W st d :
  0 < d - clock W (ticks st) ->
  resolveStepTimeout W d None st = Some (Ok (d - clock W (ticks st)), set_ticks S st).
Proof.
  intros Hok. unfold resolveStepTimeout. unfold_M. rewrite Date_now_eq.
  destruct (Z.leb_spec (d - clock W (ticks st)) 0) as [Hle|_]; [lia | reflexivity].
Qed.

(** C10.  [resolveLocalUploadPath] is [path.resolve] and nothing more: it
    returns a path for every string, and an absolute path made of plain
    segments comes back unchanged, wherever it points.  The runner then only
    asks whether that path is a regular file: if it is, and time remains, the
    one call issued is [setInputFiles] with the path; if it is not, the step
    fails with the status-400 error "local file not found" and no call. *)
Theorem resolveLocalUploadPath_unconfined `{JsRuntime} (W : World) :
  (forall p, Storage.resolveLocalUploadPath p = Path.resolve [p])
  /\ (forall segs,
        Forall plain_segment segs ->
        Storage.resolveLocalUploadPath ("/" +:+ JsString.join "/" segs)
        = "/" +:+ JsString.join "/" segs)
  /\ (forall selector path jobId d config out tmp st,
        0 < d - clock W (ticks st) ->
        0 < d - clock W (S (ticks st)) ->
        Path.resolve [path] ∈ files st ->
        exists r st',
          executeAction W (UploadAction selector path) jobId d config out tmp st
          = Some (r, st')
          /\ calls st'
             = calls st ++ [CallSetInputFiles selector (Path.resolve [path])
                              (d - clock W (S (ticks st)))])
  /\ (forall selector path jobId d config out tmp st,
        0 < d - clock W (ticks st) ->
        Path.resolve [path] ∉ files st ->
        executeAction W (UploadAction selector path) jobId d config out tmp st
        = Some (Throw (http 400 (MUploadMissing path)), set_ticks S st)).
Proof.
  split; [reflexivity|]. split; [intros segs; apply resolve_absolute_plain|]. split.
  - intros selector path jobId d config out tmp st Ht1 Ht2 Hfile.
    destruct (call_spec W (CallSetInputFiles selector (Path.resolve [path])
                             (d - clock W (S (ticks st))))
                (set_ticks S (set_ticks S st))) as (st' & Hcall & Hlog).
    unfold executeAction, Storage.resolveLocalUploadPath.
    rewrite (bind_ok _ _ _ _ _ (ensureTimeRemaining_in_time W st d _ Ht1)).
    rewrite (bind_ok _ _ _ _ _ (fileExists_eq _ _)).
    change (files (set_ticks S st)) with (files st).
    rewrite bool_decide_eq_true_2 by exact Hfile.
    change (negb true) with false. cbv iota.
    rewrite (bind_ok _ _ _ _ _ (resolveStepTimeout_in_time W (set_ticks S st) d Ht2)).
    change (ticks (set_ticks S st)) with (S (ticks st)).
    destruct Hlog as (Hcalls & _).
    change (length (calls (set_ticks S (set_ticks S st)))) with (length (calls st)) in Hcall.
    destruct (answer W (length (calls st))).
    + rewrite (bind_ok _ _ _ _ _ Hcall). by eexists _, st'.
    + rewrite (bind_throw _ _ _ _ _ Hcall). by eexists _, st'.
  - intros selector path jobId d config out tmp st Ht1 Hfile.
    unfold executeAction, Storage.resolveLocalUploadPath.
    rewrite (bind_ok _ _ _ _ _ (ensureTimeRemaining_in_time W st d _ Ht1)).
    rewrite (bind_ok _ _ _ _ _ (fileExists_eq _ _)).
    change (files (set_ticks S st)) with (files st).
    rewrite bool_decide_eq_false_2 by exact Hfile. reflexivity.
Qed.

Lemma resolveLocalUploadPath_unconfined_witness :
  Storage.resolveLocalUploadPath (H := RefRuntime.runtime) "/etc/passwd" = "/etc/passwd"
  /\ executeAction (H := RefRuntime.runtime) Example.world
       (UploadAction "#file" "/etc/passwd") (randomUUID Example.world) 2000 Example.config
       "/data/out/job" "/tmp/pw/job" Example.idle
     = Some (Throw (http 400 (MUploadMissing "/etc/passwd")), set_ticks S Example.idle).
Proof.
  destruct (resolveLocalUploadPath_unconfined (H := RefRuntime.runtime) Example.world)
    as (_ & Hplain & _ & Hmissing).
  split.
  - exact (Hplain ["etc"; "passwd"]
             ltac:(repeat constructor; first [discriminate | by repeat constructor])).
  - apply Hmissing; [simpl; lia | set_solver].
Defined.

(** ** Completion lines of the log *)

#[local] Instance same_done_preorder : PreOrder same_done.
Proof.
  split; [intros st; reflexivity|].
  intros a b c Hab Hbc. unfold same_done in *. congruence.
Qed.

Lemma done_steps_snoc l t msg :
  done_steps (l ++ [{| at_ms := t; line := msg |}])
  = done_steps l ++ match msg with
                    | LStepDone label _ => [l_pos label]
                    | _ => []
                    end.
Proof.
  unfold done_steps. rewrite omap_app. f_equal. by destruct msg.
Qed.

Lemma same_done_logs t msg st :
  not_done msg -> same_done st (set_logs (fun l => l ++ [{| at_ms := t; line := msg |}]) st).
Proof.
  intros Hmsg. unfold same_done. simpl. rewrite done_steps_snoc.
  destruct msg; try done; by rewrite app_nil_r.
Qed.

Section SameDone.
Context `{JsRuntime} (W : World).

Lemma sd_Date_now : preserves same_done (Date_now W).
Proof. by apply preserves_Date_now. Qed.

Lemma sd_appendLog msg : not_done msg -> preserves same_done (appendLog W msg).
Proof.
  apply (preserves_appendLog same_done not_done); [done|].
  intros; by apply same_done_logs.
Qed.

Lemma sd_call c : preserves same_done (call W c).
Proof.
  apply (preserves_call same_done not_done); try done.
  intros; by apply same_done_logs.
Qed.

Lemma sd_call_fetch url t : preserves same_done (call_fetch W url t).
Proof.
  apply (preserves_call_fetch same_done not_done); try done.
  intros; by apply same_done_logs.
Qed.

Lemma sd_fileExists p : preserves same_done (fileExists p).
Proof. apply preserves_fileExists; apply _. Qed.

Lemma sd_ensureTimeRemaining d name : preserves same_done (ensureTimeRemaining W d name).
Proof. apply preserves_ensureTimeRemaining; [apply _ | by intros st]. Qed.

Lemma sd_resolveStepTimeout d r : preserves same_done (resolveStepTimeout W d r).
Proof. apply preserves_resolveStepTimeout; [apply _ | by intros st]. Qed.
End SameDone.

(** One step of a proof of [preserves R m] along the structure of [m]. *)
Ltac frame_step R :=
  first
    [ apply (preserves_ret R) | apply (preserves_throw R) | apply (preserves_lift R)
    | apply (preserves_get_state R) | apply (preserves_diverge R)
    | apply (preserves_bind R); [|intros]
    | apply (preserves_try_catch R); [|intros]
    | apply (preserves_try_finally R)
    | apply (preserves_or_else R)
    | match goal with
      | |- preserves _ (if ?c then _ else _) => destruct c
      | |- preserves _ (match ?x with _ => _ end) => destruct x
      end ].

Ltac sd_step :=
  first
    [ apply sd_Date_now | apply sd_call | apply sd_call_fetch | apply sd_fileExists
    | apply sd_ensureTimeRemaining | apply sd_resolveStepTimeout
    | apply sd_appendLog; exact I
    | apply (preserves_modify same_done); intros; reflexivity
    | frame_step same_done ].

Section SameDoneJob.
Context `{JsRuntime} (W : World).

Lemma sd_downloadImageFromUrl url dir maxBytes timeoutMs allowed :
  preserves same_done (downloadImageFromUrl W url dir maxBytes timeoutMs allowed).
Proof. unfold downloadImageFromUrl, pipeline. cbv zeta. repeat sd_step. Qed.

Lemma sd_resolveUniqueFileName_loop rounds dir base ext candidate counter :
  preserves same_done (resolveUniqueFileName_loop rounds dir base ext candidate counter).
Proof.
  revert candidate counter. induction rounds as [|rounds IH]; intros candidate counter;
    simpl; [apply (preserves_diverge same_done)|].
  apply (preserves_bind same_done); [apply sd_fileExists|].
  intros [|]; [apply IH | apply (preserves_ret same_done)].
Qed.

Lemma sd_resolveUniqueFileName dir name :
  preserves same_done (resolveUniqueFileName dir name).
Proof.
  unfold resolveUniqueFileName. cbv zeta.
  apply (preserves_bind same_done); [apply (preserves_get_state same_done)|]. intros st.
  apply sd_resolveUniqueFileName_loop.
Qed.

Lemma sd_executeAction action jobId d config out tmp :
  preserves same_done (executeAction W action jobId d config out tmp).
Proof.
  unfold executeAction, push_artifact, set_extracted, push_storage.
  apply (preserves_bind same_done); [apply sd_ensureTimeRemaining|]. intros _.
  destruct action; cbv zeta;
    repeat first [apply sd_downloadImageFromUrl | apply sd_resolveUniqueFileName | sd_step].
Qed.

Lemma sd_ensureJobDirectories outDir tmpDir jobId :
  preserves same_done (ensureJobDirectories W outDir tmpDir jobId).
Proof. unfold ensureJobDirectories. repeat sd_step. Qed.

Lemma sd_hasSessionState dir session : preserves same_done (hasSessionState dir session).
Proof. unfold hasSessionState. repeat sd_step. Qed.

Lemma sd_start_job request config startedAt jobId :
  preserves same_done (start_job W request config startedAt jobId).
Proof.
  unfold start_job. cbv zeta.
  repeat first [apply sd_ensureJobDirectories | apply sd_hasSessionState | sd_step].
Qed.

Lemma sd_cleanup_job : preserves same_done (cleanup_job W).
Proof. unfold cleanup_job. repeat sd_step. Qed.
End SameDoneJob.

(** ** The loop over the actions *)

Lemma bind_inv {A B} (m : M A) (k : A -> M B) st r st' :
  (m ≫= k) st = Some (r, st') ->
  (exists a st1, m st = Some (Ok a, st1) /\ k a st1 = Some (r, st'))
  \/ (exists e, m st = Some (Throw e, st') /\ r = Throw e).
Proof.
  unfold mbind, M_bind. destruct (m st) as [[[a|e] st1]|]; [| |done].
  - intros Hk. left. by exists a, st1.
  - intros [= <- <-]. right. by exists e.
Qed.

Lemma appendLog_eq W msg st :
  appendLog W msg st
  = Some (Ok tt, set_logs (fun l => l ++ [{| at_ms := clock W (ticks st); line := msg |}])
                   (set_ticks S st)).
Proof. reflexivity. Qed.

Section Loop.
Context `{JsRuntime} (W : World) (total : nat) (jobId : string) (d : Z)
  (config : PlaywrightRunnerConfig) (out tmp : string).

(** A step that starts when the deadline has passed fails with the
    total-timeout error, adds no completion line and issues no call. *)
Lemma run_actions_late action rest i st :
  d - clock W (S (S (ticks st))) <= 0 ->
  exists st',
    run_actions W (action :: rest) i total jobId d config out tmp st
    = Some (Throw (http 408 (MJobTimeoutBefore (action_name action))), st')
    /\ same_done st st' /\ calls st' = calls st.
Proof.
  intros Hlate. eexists. split.
  - simpl run_actions.
    rewrite (bind_ok _ _ _ _ _ (Date_now_eq W st)).
    rewrite (bind_ok _ _ _ _ _ (appendLog_eq W _ _)).
    erewrite bind_throw; [reflexivity|].
    unfold try_catch. rewrite executeAction_late; [reflexivity|exact Hlate].
  - split; [|reflexivity]. unfold same_done. simpl. by rewrite done_steps_snoc, app_nil_r.
Qed.

(** A run of the loop that returns has written one completion line per
    action, in order, and a longer list of actions continues from where it
    ended. *)
Lemma run_actions_prefix l1 l2 i st st1 :
  run_actions W l1 i total jobId d config out tmp st = Some (Ok tt, st1) ->
  run_actions W (l1 ++ l2) i total jobId d config out tmp st
  = run_actions W l2 (i + length l1) total jobId d config out tmp st1
  /\ done_steps (logs st1) = done_steps (logs st) ++ seq (S i) (length l1).
Proof.
  revert i st. induction l1 as [|action l1 IH]; intros i st Hrun.
  - injection Hrun as <-. simpl. by rewrite Nat.add_0_r, app_nil_r.
  - simpl in Hrun.
    rewrite (bind_ok _ _ _ _ _ (Date_now_eq W st)) in Hrun.
    rewrite (bind_ok _ _ _ _ _ (appendLog_eq W _ _)) in Hrun.
    apply bind_inv in Hrun as [(u & sa & Hexec & Hrun)|(e & _ & [=])].
    rewrite (bind_ok _ _ _ _ _ (Date_now_eq W sa)) in Hrun.
    rewrite (bind_ok _ _ _ _ _ (appendLog_eq W _ _)) in Hrun.
    destruct (IH _ _ Hrun) as [Hcont Hdone].
    split.
    + change ((action :: l1) ++ l2) with (action :: (l1 ++ l2)). simpl run_actions.
      rewrite (bind_ok _ _ _ _ _ (Date_now_eq W st)).
      rewrite (bind_ok _ _ _ _ _ (appendLog_eq W _ _)).
      rewrite (bind_ok _ _ _ _ _ Hexec).
      rewrite (bind_ok _ _ _ _ _ (Date_now_eq W sa)).
      rewrite (bind_ok _ _ _ _ _ (appendLog_eq W _ _)).
      rewrite Hcont. simpl length. by rewrite Nat.add_succ_r.
    + rewrite Hdone. simpl logs. rewrite done_steps_snoc. simpl l_pos.
      assert (Hsame : done_steps (logs sa) = done_steps (logs st)).
      { assert (Hsd : same_done
                        (set_logs (fun l => l ++ [{| at_ms := clock W (ticks (set_ticks S st));
                                                      line := LStepStart
                                                        {| l_pos := i + 1; l_total := total;
                                                           l_action := action_name action |} |}])
                           (set_ticks S (set_ticks S st))) sa).
        { apply (preserves_try_catch same_done _ _
                   (sd_executeAction W action jobId d config out tmp)
                   (fun e => preserves_throw same_done _) _ _ _ Hexec). }
        unfold same_done in Hsd. rewrite Hsd. simpl. by rewrite done_steps_snoc, app_nil_r. }
      rewrite Hsame, <- app_assoc. f_equal. simpl. f_equal. lia.
Qed.
End Loop.

(** The [finally] block always completes. *)
Lemma or_else_call_returns W c (k : M unit) st :
  (forall s, exists s', k s = Some (Ok tt, s')) ->
  exists st', or_else (call W c;; k) tt st = Some (Ok tt, st').
Proof.
  intros Hk. destruct (call_spec W c st) as (s1 & Hcall & _).
  unfold or_else, try_catch.
  destruct (answer W (length (calls st))).
  - rewrite (bind_ok _ _ _ _ _ Hcall). destruct (Hk s1) as [s2 ->]. by eexists.
  - rewrite (bind_throw _ _ _ _ _ Hcall). by eexists.
Qed.

Lemma cleanup_job_returns W st : exists st', cleanup_job W st = Some (Ok tt, st').
Proof.
  unfold cleanup_job.
  rewrite (bind_ok get_state _ st st st eq_refl).
  assert (Hret : forall s, exists s', (mret tt : M unit) s = Some (Ok tt, s')).
  { intros s. by eexists. }
  assert (H1 : exists s1,
             (if context st then or_else (call W CallCloseContext;; mret tt) tt else mret tt) st
             = Some (Ok tt, s1)).
  { destruct (context st); [by apply or_else_call_returns | by eexists]. }
  destruct H1 as [s1 H1]. rewrite (bind_ok _ _ _ _ _ H1).
  assert (H2 : exists s2,
             (if browser st then or_else (call W CallCloseBrowser;; mret tt) tt else mret tt) s1
             = Some (Ok tt, s2)).
  { destruct (browser st); [by apply or_else_call_returns | by eexists]. }
  destruct H2 as [s2 H2]. rewrite (bind_ok _ _ _ _ _ H2).
  destruct (negb _); [|by eexists].
  apply or_else_call_returns. intros s. by eexists.
Qed.

(** C6.  Let a job get through its start-up, let the loop return on the
    first [k] actions, and let the deadline have passed at the clock reading
    that [ensureTimeRemaining] takes in step [k] (counting from 0).  Then the
    job fails with status 408 and the message of the total timeout before
    that action, and the completion lines on its log are those of the steps
    labelled [1] to [k], that is of steps [0] to [k - 1], in order: none for
    step [k] or a later one. *)
Theorem runPlaywrightJob_deadline_before_step `{JsRuntime} (W : World)
    (request : PlaywrightRunRequest) (config : PlaywrightRunnerConfig)
    (st s0 s1 : JobState) (k : nat) (action : PlaywrightAction) (d : Z) (out tmp : string) :
  start_job W request config (clock W (ticks st)) (randomUUID W) (new_job (set_ticks S st))
  = Some (Ok (d, out, tmp), s0) ->
  actions request !! k = Some action ->
  run_actions W (take k (actions request)) 0 (length (actions request)) (randomUUID W) d
    config out tmp s0 = Some (Ok tt, s1) ->
  d - clock W (S (S (ticks s1))) <= 0 ->
  exists failure st',
    runPlaywrightJob W request config st = Some (Ok (Failed failure), st')
    /\ je_statusCode failure = 408
    /\ je_message failure = Templ (MJobTimeoutBefore (action_name action))
    /\ done_steps (logs st') = seq 1 k.
Proof.
  intros Hstart Haction Hprefix Hlate.
  assert (Hsplit : actions request = take k (actions request) ++ action :: drop (S k) (actions request)).
  { rewrite <- (take_drop k (actions request)) at 1. f_equal.
    by apply drop_S. }
  assert (Hk : length (take k (actions request)) = k).
  { apply length_take_le. apply lookup_lt_Some in Haction. lia. }
  destruct (run_actions_prefix W (length (actions request)) (randomUUID W) d config out tmp
              _ (action :: drop (S k) (actions request)) 0 s0 s1 Hprefix)
    as [Hcont Hdone].
  rewrite <- Hsplit, Hk, Nat.add_0_l in Hcont.
  destruct (run_actions_late W (length (actions request)) (randomUUID W) d config out tmp
              action (drop (S k) (actions request)) k s1 Hlate)
    as (s2 & Hstep & Hsame2 & Hcalls2).
  rewrite Hstep in Hcont.
  set (s3 := set_logs (fun l => l ++ [{| at_ms := clock W (ticks (set_ticks S s2));
                                         line := LError (randomUUID W) 408
                                                   (Templ (MJobTimeoutBefore
                                                             (action_name action))) |}])
               (set_ticks S (set_ticks S s2))).
  destruct (cleanup_job_returns W s3) as [s4 Hclean].
  exists {| je_message := Templ (MJobTimeoutBefore (action_name action));
            je_statusCode := 408; je_jobId := randomUUID W;
            je_tookMs := clock W (ticks s2) - clock W (ticks st);
            je_details := None |}, s4.
  split; [|split; [reflexivity|split; [reflexivity|]]].
  - unfold runPlaywrightJob.
    rewrite (bind_ok _ _ _ _ _ (Date_now_eq W st)).
    rewrite (bind_ok (modify new_job) _ _ tt (new_job (set_ticks S st)) eq_refl).
    unfold try_finally, try_catch.
    rewrite (bind_ok _ _ _ _ _ Hstart). cbv beta iota zeta.
    rewrite (bind_throw _ _ _ _ _ Hcont).
    rewrite (bind_ok _ _ _ _ _ (Date_now_eq W s2)).
    rewrite (bind_ok _ _ _ _ _ (appendLog_eq W _ _)).
    unfold mret, M_ret. fold s3. simpl resolveStatusCode. simpl getErrorMessage.
    fold s3. by rewrite Hclean.
  - pose proof (sd_cleanup_job W s3 _ _ Hclean) as H4.
    pose proof (sd_start_job W request config _ _ _ _ _ Hstart) as H0.
    unfold same_done in H4, H0, Hsame2. rewrite H4.
    unfold s3. simpl logs. rewrite done_steps_snoc, app_nil_r.
    rewrite Hsame2, Hdone, H0, Hk. reflexivity.
Qed.

Lemma runPlaywrightJob_deadline_before_step_witness :
  exists failure st',
    runPlaywrightJob (H := RefRuntime.runtime) Example.world
      (Example.request 16 Example.three_steps) Example.config Example.idle
    = Some (Ok (Failed failure), st')
    /\ je_statusCode failure = 408
    /\ je_message failure = Templ (MJobTimeoutBefore "fill")
    /\ done_steps (logs st') = [1; 2]%nat.
Proof.
  apply (runPlaywrightJob_deadline_before_step (H := RefRuntime.runtime) Example.world
           (Example.request 16 Example.three_steps) Example.config Example.idle
           Example.started Example.after_two_steps 2 (FillAction "#b" "x") 1016
           Example.job_out Example.job_tmp).
  - vm_compute. reflexivity.
  - reflexivity.
  - vm_compute. reflexivity.
  - vm_compute. discriminate.
Defined.

(** ** Files of a job directory *)

Lemma prefix_empty s : String.prefix EmptyString s = true.
Proof. by destruct s. Qed.

Lemma isAbsolute_append x y : x <> EmptyString -> Path.isAbsolute (x +:+ y) = Path.isAbsolute x.
Proof.
  destruct x as [|c x]; [done|]. intros _. rewrite append_cons.
  unfold Path.isAbsolute, startsWith.
  change (String.prefix "/" (String c (x +:+ y)))
    with (if ascii_dec "/" c then String.prefix EmptyString (x +:+ y) else false).
  change (String.prefix "/" (String c x))
    with (if ascii_dec "/" c then String.prefix EmptyString x else false).
  by rewrite !prefix_empty.
Qed.

Lemma of_list_cons c l : of_list (c :: l) = String c (of_list l).
Proof. reflexivity. Qed.

(** A string whose last character is not the separator does not end with it. *)
Lemma endsWith_sep_plain a f :
  f <> EmptyString -> free_of "/" f -> endsWith (a +:+ f) "/" = false.
Proof.
  intros Hne Hfree. unfold endsWith. rewrite to_list_append, rev_app_distr.
  destruct (rev (to_list f)) as [|c r] eqn:E.
  - apply (f_equal (@rev ascii)) in E. rewrite rev_involutive in E. simpl in E.
    destruct f; [done | discriminate].
  - assert (Hc : c <> "/"%char).
    { unfold free_of in Hfree. rewrite Forall_forall in Hfree. apply Hfree.
      apply list_elem_of_In, in_rev. rewrite E. by left. }
    simpl app. rewrite of_list_cons.
    change (of_list (rev (to_list "/"))) with (String "/" EmptyString).
    change (String.prefix (String "/" EmptyString) (String c (of_list (r ++ rev (to_list a)))))
      with (if ascii_dec "/" c then String.prefix EmptyString (of_list (r ++ rev (to_list a)))
            else false).
    destruct (ascii_dec "/" c) as [<-|]; [done | reflexivity].
Qed.

Lemma join_snoc_nonempty l f : f <> EmptyString -> JsString.join "/" (l ++ [f]) <> EmptyString.
Proof.
  intros Hf. rewrite join_snoc. destruct l as [|x l]; [done|].
  intros Heq. apply (f_equal String.length) in Heq.
  rewrite !length_append in Heq. destruct f; [done|]. simpl in Heq. lia.
Qed.

(** [path.join(dir, f)] for a plain segment [f]: what [dir] normalises to,
    followed by [f] as the last segment. *)
Lemma join_child dir :
  exists pre kept, forall f,
    plain_segment f ->
    Path.join [dir; f] = pre +:+ JsString.join "/" (rev kept ++ [f]).
Proof.
  destruct (decide (dir = EmptyString)) as [->|Hdir].
  - exists EmptyString, []. intros f Hf.
    pose proof Hf as (Hne & _ & _ & Hfree).
    unfold Path.join.
    rewrite filter_cons_False by (intros Hx; by apply Hx).
    rewrite filter_cons_True by done. rewrite filter_nil.
    change (JsString.join "/" [f]) with f. unfold Path.normalize.
    rewrite (proj2 (eqb_false f EmptyString)) by done.
    rewrite plain_not_absolute by done.
    rewrite (endsWith_sep_plain EmptyString f Hne Hfree : endsWith f "/" = false).
    unfold Path.normalizeString. rewrite split_free by done. simpl fold_left.
    rewrite norm_step_plain by done.
    change (JsString.join "/" (rev [f])) with f.
    by rewrite (proj2 (eqb_false f EmptyString)).
  - exists (if Path.isAbsolute dir then "/" else EmptyString),
      (fold_left (Path.norm_step (negb (Path.isAbsolute dir))) (split "/" dir) []).
    intros f Hf. pose proof Hf as (Hne & _ & _ & Hfree).
    unfold Path.join.
    rewrite filter_cons_True by done. rewrite filter_cons_True by done. rewrite filter_nil.
    change (JsString.join "/" [dir; f]) with (dir +:+ String "/" f).
    unfold Path.normalize.
    assert (Hnonempty : dir +:+ String "/" f <> EmptyString).
    { destruct dir; [done | discriminate]. }
    assert (Hends : endsWith (dir +:+ String "/" f) "/" = false).
    { replace (dir +:+ String "/" f) with ((dir +:+ "/") +:+ f)
        by (by rewrite append_assoc).
      by apply endsWith_sep_plain. }
    assert (Habs : Path.isAbsolute (dir +:+ String "/" f) = Path.isAbsolute dir).
    { by apply isAbsolute_append. }
    assert (Hnorm : forall b,
              Path.normalizeString (dir +:+ String "/" f) b
              = JsString.join "/" (rev (fold_left (Path.norm_step b) (split "/" dir) []) ++ [f])).
    { intros b. unfold Path.normalizeString.
      rewrite split_app, (split_free "/" f) by done.
      rewrite fold_left_app. simpl fold_left at 1.
      by rewrite (norm_step_plain _ _ f). }
    rewrite (proj2 (eqb_false _ EmptyString) Hnonempty).
    rewrite !Habs, !Hends, !Hnorm.
    rewrite (proj2 (eqb_false _ EmptyString)) by (by apply join_snoc_nonempty).
    by destruct (Path.isAbsolute dir).
Qed.

Lemma join_child_inj dir f g :
  plain_segment f -> plain_segment g ->
  Path.join [dir; f] = Path.join [dir; g] -> f = g.
Proof.
  intros Hf Hg. destruct (join_child dir) as (pre & kept & Hjoin).
  rewrite (Hjoin f Hf), (Hjoin g Hg), !join_snoc.
  intros Heq. apply append_inv_head in Heq.
  destruct (rev kept); [done|].
  by apply append_inv_head, append_inv_head in Heq.
Qed.

Lemma plain_shot : plain_segment "shot.png".
Proof. repeat split; try discriminate. repeat constructor; discriminate. Qed.

Lemma plain_shot_1 : plain_segment "shot-1.png".
Proof. repeat split; try discriminate. repeat constructor; discriminate. Qed.

(** ** Screenshots *)

#[local] Instance same_artifacts_preorder : PreOrder same_artifacts.
Proof.
  split; [intros st; reflexivity|].
  intros a b c Hab Hbc. unfold same_artifacts in *. congruence.
Qed.

Lemma mapImageExtension_in contentType :
  mapImageExtension contentType ∈ IMAGE_EXTENSIONS.
Proof.
  unfold mapImageExtension, IMAGE_EXTENSIONS.
  repeat match goal with |- context [if ?c then _ else _] => destruct c end;
    set_solver.
Qed.

#[local] Instance unchanged_preorder : PreOrder unchanged.
Proof.
  split; [by intros st|].
  intros a b c [Hf1 Ho1] [Hf2 Ho2]. unfold unchanged. split; congruence.
Qed.

Section Unchanged.
Context `{JsRuntime} (W : World).

Lemma un_ensureTimeRemaining d name : preserves unchanged (ensureTimeRemaining W d name).
Proof. apply (preserves_ensureTimeRemaining unchanged). by intros st. Qed.

Lemma un_resolveStepTimeout d r : preserves unchanged (resolveStepTimeout W d r).
Proof. apply (preserves_resolveStepTimeout unchanged). by intros st. Qed.

Lemma un_call c : preserves unchanged (call W c).
Proof. by apply (preserves_call unchanged (fun _ => True)). Qed.
End Unchanged.

Lemma resolveUniqueFileName_loop_unfold rounds dir base ext candidate counter :
  resolveUniqueFileName_loop (S rounds) dir base ext candidate counter
  = (fileExists (Path.join [dir; candidate])
     ≫= fun taken : bool =>
          if taken
          then resolveUniqueFileName_loop rounds dir base ext
                 (base +:+ "-" +:+ pretty counter +:+ ext) (S counter)
          else mret candidate).
Proof. reflexivity. Qed.

Lemma resolveUniqueFileName_shot_prelude dir st :
  resolveUniqueFileName dir "shot.png" st
  = resolveUniqueFileName_loop (S (size (files st))) dir "shot" ".png" "shot.png" 1 st.
Proof. reflexivity. Qed.

Lemma resolveUniqueFileName_loop_state rounds dir base ext candidate counter st r st' :
  resolveUniqueFileName_loop rounds dir base ext candidate counter st = Some (r, st') ->
  st' = st.
Proof.
  revert candidate counter. induction rounds as [|rounds IH]; intros candidate counter; [done|].
  rewrite resolveUniqueFileName_loop_unfold.
  rewrite (bind_ok _ _ _ _ _ (fileExists_eq _ _)).
  destruct (bool_decide _); [apply IH | by intros [= _ ->]].
Qed.

(** The first screenshot named [shot] in a directory without [shot.png]. *)
Lemma resolveUniqueFileName_shot_free dir st :
  Path.join [dir; "shot.png"] ∉ files st ->
  resolveUniqueFileName dir "shot.png" st = Some (Ok "shot.png", st).
Proof.
  intros Hfree. rewrite resolveUniqueFileName_shot_prelude.
  rewrite resolveUniqueFileName_loop_unfold.
  rewrite (bind_ok _ _ _ _ _ (fileExists_eq _ _)).
  by rewrite bool_decide_eq_false_2.
Qed.

(** The next one, with [shot.png] there and [shot-1.png] not. *)
Lemma resolveUniqueFileName_shot_taken dir st :
  Path.join [dir; "shot.png"] ∈ files st ->
  Path.join [dir; "shot-1.png"] ∉ files st ->
  resolveUniqueFileName dir "shot.png" st = Some (Ok "shot-1.png", st).
Proof.
  intros Htaken Hfree. rewrite resolveUniqueFileName_shot_prelude.
  destruct (size (files st)) as [|n] eqn:Esize.
  { apply size_empty_inv in Esize. set_solver. }
  rewrite resolveUniqueFileName_loop_unfold.
  rewrite (bind_ok _ _ _ _ _ (fileExists_eq _ _)).
  rewrite bool_decide_eq_true_2 by done.
  change ("shot" +:+ "-" +:+ pretty 1%nat +:+ ".png") with "shot-1.png".
  rewrite resolveUniqueFileName_loop_unfold.
  rewrite (bind_ok _ _ _ _ _ (fileExists_eq _ _)).
  by rewrite bool_decide_eq_false_2.
Qed.

(** The suffix is inserted before the extension and incremented until a
    free name is found. *)
Lemma append_inv_tail (a b c : string) : a +:+ c = b +:+ c -> a = b.
Proof.
  intros Heq. apply (f_equal to_list) in Heq. rewrite !to_list_append in Heq.
  apply app_inv_tail in Heq. apply (f_equal of_list) in Heq.
  unfold of_list, to_list in Heq. by rewrite !string_of_list_ascii_of_string in Heq.
Qed.

Lemma pretty_N_char_free x : pretty_N_char x <> "/"%char.
Proof. unfold pretty_N_char. repeat case_match; discriminate. Qed.

Lemma pretty_N_go_free x s : free_of "/" s -> free_of "/" (pretty_N_go x s).
Proof.
  revert s. induction (N.lt_wf_0 x) as [x _ IH]. intros s Hs.
  destruct (decide (x = 0%N)) as [->|Hx]; [by rewrite pretty_N_go_0|].
  rewrite pretty_N_go_step by lia. apply IH.
  - apply N.div_lt; lia.
  - apply Forall_cons. split; [apply pretty_N_char_free | exact Hs].
Qed.

Lemma pretty_nat_free (k : nat) : free_of "/" (pretty k).
Proof.
  unfold pretty, pretty_nat, pretty, pretty_N.
  destruct (decide _); [repeat constructor; discriminate|].
  apply pretty_N_go_free. constructor.
Qed.

Lemma plain_shot_name k : plain_segment (shot_name k).
Proof.
  destruct k as [|k]; [apply plain_shot|]. unfold shot_name.
  repeat split; try (rewrite !append_cons; discriminate).
  unfold free_of. rewrite !to_list_append. repeat apply Forall_app_2.
  - repeat constructor; discriminate.
  - repeat constructor; discriminate.
  - apply pretty_nat_free.
  - repeat constructor; discriminate.
Qed.

#[local] Instance shot_name_inj : Inj (=) (=) shot_name.
Proof.
  intros [|a] [|b] Heq; unfold shot_name in Heq.
  - done.
  - change "shot.png" with ("shot" +:+ ".png") in Heq.
    apply append_inv_head in Heq. rewrite append_cons in Heq. discriminate.
  - change "shot.png" with ("shot" +:+ ".png") in Heq.
    apply append_inv_head in Heq. rewrite append_cons in Heq. discriminate.
  - apply append_inv_head, append_inv_head, append_inv_tail in Heq.
    by apply (inj pretty) in Heq.
Qed.

Lemma resolveUniqueFileName_loop_shot dir st n rounds k :
  (k <= n)%nat -> (n - k < rounds)%nat ->
  (forall j, (k <= j < n)%nat -> Path.join [dir; shot_name j] ∈ files st) ->
  Path.join [dir; shot_name n] ∉ files st ->
  resolveUniqueFileName_loop rounds dir "shot" ".png" (shot_name k) (S k) st
  = Some (Ok (shot_name n), st).
Proof.
  revert k. induction rounds as [|rounds IH]; intros k Hk Hrounds Htaken Hfree; [lia|].
  rewrite resolveUniqueFileName_loop_unfold.
  rewrite (bind_ok _ _ _ _ _ (fileExists_eq _ _)).
  destruct (decide (k = n)) as [->|Hne].
  - by rewrite bool_decide_eq_false_2.
  - rewrite bool_decide_eq_true_2 by (apply Htaken; lia).
    apply (IH (S k)); [lia | lia | | done]. intros j Hj. apply Htaken. lia.
Qed.

Lemma shot_names_taken_size dir (fs : gset string) n :
  (forall j, (j < n)%nat -> Path.join [dir; shot_name j] ∈ fs) -> (n <= size fs)%nat.
Proof.
  intros Htaken.
  set (l := (fun j => Path.join [dir; shot_name j]) <$> seq 0 n).
  assert (Hdup : NoDup l).
  { apply NoDup_fmap_2; [|apply NoDup_seq].
    intros a b Heq. apply join_child_inj in Heq; [|apply plain_shot_name..].
    by apply (inj shot_name). }
  assert (Hsub : list_to_set (C := gset string) l ⊆ fs).
  { intros x Hx. apply elem_of_list_to_set, list_elem_of_fmap in Hx as (j & -> & Hj).
    apply elem_of_seq in Hj. apply Htaken. lia. }
  apply subseteq_size in Hsub. rewrite size_list_to_set in Hsub by done.
  unfold l in Hsub. by rewrite length_fmap, length_seq in Hsub.
Qed.

(** With [shot.png], [shot-1.png], ..., up to the suffix [n - 1] there and
    the one of suffix [n] not, [resolveUniqueFileName] returns the latter. *)
Lemma resolveUniqueFileName_shot_nth dir st n :
  (forall j, (j < n)%nat -> Path.join [dir; shot_name j] ∈ files st) ->
  Path.join [dir; shot_name n] ∉ files st ->
  resolveUniqueFileName dir "shot.png" st = Some (Ok (shot_name n), st).
Proof.
  intros Htaken Hfree. rewrite resolveUniqueFileName_shot_prelude.
  apply (resolveUniqueFileName_loop_shot dir st n _ 0%nat); [lia | | | done].
  - pose proof (shot_names_taken_size dir (files st) n Htaken). lia.
  - intros j Hj. apply Htaken. lia.
Qed.

Section ScreenshotStep.
Context `{JsRuntime} (W : World) (jobId : string) (d : Z) (config : PlaywrightRunnerConfig)
  (out tmp : string).

Lemma screenshot_shot_inv fullPage st st' :
  executeAction W (ScreenshotAction "shot" fullPage) jobId d config out tmp st
  = Some (Ok tt, st') ->
  exists s filename,
    files s = files st /\ outputs s = outputs st
    /\ resolveUniqueFileName out "shot.png" s = Some (Ok filename, s)
    /\ files st' = {[Path.join [out; filename]]} ∪ files st
    /\ artifacts (outputs st')
       = artifacts (outputs st)
         ++ [{| a_name := "shot"; a_filename := filename;
                a_url := artifactsRoutePrefix config +:+ "/" +:+ jobId +:+ "/"
                         +:+ encodeURIComponent filename |}].
Proof.
  unfold executeAction. intros Hrun.
  apply bind_inv in Hrun as [(u & s1 & H1 & Hrun)|(e & _ & [=])].
  apply (un_ensureTimeRemaining W) in H1 as [Hf1 Ho1].
  rewrite (bind_ok (lift (Storage.sanitizeArtifactFilename "shot")) _ s1 "shot.png" s1 eq_refl)
    in Hrun.
  apply bind_inv in Hrun as [(filename & s1' & Hname & Hrun)|(e & _ & [=])].
  assert (s1' = s1) as ->.
  { unfold resolveUniqueFileName in Hname. cbv zeta in Hname.
    rewrite (bind_ok get_state _ s1 s1 s1 eq_refl) in Hname.
    by apply resolveUniqueFileName_loop_state in Hname. }
  cbv zeta in Hrun.
  apply bind_inv in Hrun as [(t & s2 & H2 & Hrun)|(e & _ & [=])].
  apply (un_resolveStepTimeout W) in H2 as [Hf2 Ho2].
  apply bind_inv in Hrun as [(v & s3 & H3 & Hrun)|(e & _ & [=])].
  apply (un_call W) in H3 as [Hf3 Ho3].
  rewrite (bind_ok (modify _) _ s3 tt _ eq_refl) in Hrun.
  injection Hrun as <-.
  exists s1, filename. simpl.
  rewrite Hf3, Hf2, Ho3, Ho2, Hf1, Ho1. by repeat split.
Qed.

Lemma screenshot_first fullPage st st' :
  executeAction W (ScreenshotAction "shot" fullPage) jobId d config out tmp st
  = Some (Ok tt, st') ->
  Path.join [out; "shot.png"] ∉ files st ->
  files st' = {[Path.join [out; "shot.png"]]} ∪ files st
  /\ artifacts (outputs st')
     = artifacts (outputs st) ++ [shot_artifact config jobId "shot.png"].
Proof.
  intros Hrun Hfree.
  destruct (screenshot_shot_inv _ _ _ Hrun) as (s & filename & Hf & Ho & Hname & Hfiles & Hart).
  rewrite resolveUniqueFileName_shot_free in Hname by (by rewrite Hf).
  injection Hname as <-. by split.
Qed.

Lemma screenshot_second fullPage st st' :
  executeAction W (ScreenshotAction "shot" fullPage) jobId d config out tmp st
  = Some (Ok tt, st') ->
  Path.join [out; "shot.png"] ∈ files st ->
  Path.join [out; "shot-1.png"] ∉ files st ->
  artifacts (outputs st')
  = artifacts (outputs st) ++ [shot_artifact config jobId "shot-1.png"].
Proof.
  intros Hrun Htaken Hfree.
  destruct (screenshot_shot_inv _ _ _ Hrun) as (s & filename & Hf & Ho & Hname & Hfiles & Hart).
  rewrite resolveUniqueFileName_shot_taken in Hname by (by rewrite Hf).
  by injection Hname as <-.
Qed.
End ScreenshotStep.

Lemma try_finally_ok_inv {A} (m : M A) (c : M unit) st a st' :
  try_finally m c st = Some (Ok a, st') ->
  exists s1, m st = Some (Ok a, s1) /\ c s1 = Some (Ok tt, st').
Proof.
  unfold try_finally. destruct (m st) as [[r s1]|] eqn:Hm; [|done].
  destruct (c s1) as [[[[]|e] s2]|] eqn:Hc; [| |done].
  - intros [= -> ->]. by exists s1.
  - intros [=].
Qed.

Lemma try_catch_ok_inv {A} (m : M A) (h : Exn -> M A) st a st' :
  try_catch m h st = Some (Ok a, st') ->
  m st = Some (Ok a, st')
  \/ exists e s1, m st = Some (Throw e, s1) /\ h e s1 = Some (Ok a, st').
Proof.
  unfold try_catch. destruct (m st) as [[[a'|e] s1]|] eqn:Hm; [| |done].
  - intros [= -> ->]. by left.
  - intros Hh. right. by exists e, s1.
Qed.

Lemma returns_with_bind {A B} (Q : A -> Prop) (P : B -> Prop) (m : M A) (k : A -> M B) :
  returns_with Q m -> (forall a, Q a -> returns_with P (k a)) -> returns_with P (m ≫= k).
Proof.
  intros Hm Hk st b st' Hrun.
  apply bind_inv in Hrun as [(a & s1 & H1 & Hrun)|(e & _ & [=])].
  exact (Hk a (Hm _ _ _ H1) _ _ _ Hrun).
Qed.

Lemma returns_with_any {A} (m : M A) : returns_with (fun _ => True) m.
Proof. by intros st a st' _. Qed.

Lemma returns_with_seq {A B} (P : B -> Prop) (m : M A) (k : A -> M B) :
  (forall a, returns_with P (k a)) -> returns_with P (m ≫= k).
Proof.
  intros Hk. apply (returns_with_bind (fun _ => True)); [apply returns_with_any|].
  intros a _. apply Hk.
Qed.

Lemma returns_with_ret {A} (P : A -> Prop) (a : A) : P a -> returns_with P (mret a).
Proof. by intros Ha st b st' [= <- _]. Qed.

Lemma returns_with_lift {A} (P : A -> Prop) (r : Result A) :
  (forall a, r = Ok a -> P a) -> returns_with P (lift r).
Proof. intros Hr st b st' [= -> _]. by apply Hr. Qed.

Lemma resolveInsideRoot_value `{JsRuntime} root target label path :
  Storage.resolveInsideRoot root target label = Ok path ->
  path = Path.resolve [root; target].
Proof.
  unfold Storage.resolveInsideRoot.
  destruct (eqb _ _); [by intros [= <-]|].
  destruct (negb _); [done | by intros [= <-]].
Qed.

Section StartJob.
Context `{JsRuntime} (W : World).

Lemma ensureJobDirectories_value outDir tmpDir jobId :
  returns_with (fun dirs => dirs = (Path.resolve [outDir; jobId], Path.resolve [tmpDir; jobId]))
    (ensureJobDirectories W outDir tmpDir jobId).
Proof.
  unfold ensureJobDirectories. apply returns_with_seq. intros _.
  eapply returns_with_bind.
  { apply returns_with_lift. intros a Ha. exact (resolveInsideRoot_value _ _ _ _ Ha). }
  intros o ->. eapply returns_with_bind.
  { apply returns_with_lift. intros a Ha. exact (resolveInsideRoot_value _ _ _ _ Ha). }
  intros t ->. apply returns_with_seq. intros _. by apply returns_with_ret.
Qed.

Lemma start_job_value request config startedAt jobId :
  returns_with (fun started =>
                  started.1.2 = Path.resolve [outputDir config; jobId]
                  /\ started.2 = Path.resolve [tmpDir config; jobId])
    (start_job W request config startedAt jobId).
Proof.
  unfold start_job. apply returns_with_seq. intros _.
  eapply returns_with_bind; [apply ensureJobDirectories_value|].
  intros dirs ->. cbv beta iota.
  repeat (apply returns_with_seq; intros ?).
  by apply returns_with_ret.
Qed.
End StartJob.


Section SameArtifacts.
Context `{JsRuntime} (W : World).

Lemma sa_Date_now : preserves same_artifacts (Date_now W).
Proof. apply (preserves_Date_now same_artifacts). by intros st. Qed.

Lemma sa_appendLog msg : preserves same_artifacts (appendLog W msg).
Proof. by apply (preserves_appendLog same_artifacts (fun _ => True)). Qed.

Lemma sa_call c : preserves same_artifacts (call W c).
Proof. by apply (preserves_call same_artifacts (fun _ => True)). Qed.
End SameArtifacts.

Ltac sa_step :=
  first
    [ apply sa_Date_now | apply sa_call | apply sa_appendLog
    | apply (preserves_modify same_artifacts); intros; reflexivity
    | frame_step same_artifacts ].

Section SameArtifactsJob.
Context `{JsRuntime} (W : World).

Lemma sa_cleanup_job : preserves same_artifacts (cleanup_job W).
Proof. unfold cleanup_job. repeat sa_step. Qed.

(** What [runPlaywrightJob] does after the loop over the actions. *)
Lemma sa_close_job startedAt jobId :
  preserves same_artifacts
    (call W CallCloseContext;;
     modify (set_context false);;
     call W CallCloseBrowser;;
     finishedAt ← Date_now W;
     appendLog W (LSuccess jobId (finishedAt - startedAt));;
     mret (Succeeded {| jobId := jobId; tookMs := finishedAt - startedAt |})).
Proof. repeat sa_step. Qed.
End SameArtifactsJob.

Section LoopInversion.
Context `{JsRuntime} (W : World) (total : nat) (jobId : string) (d : Z)
  (config : PlaywrightRunnerConfig) (out tmp : string).

(** A run of the loop that returns has executed its first action, between
    two lines of the log, and then the loop over the other actions. *)
Lemma run_actions_cons_inv action rest i st st' :
  run_actions W (action :: rest) i total jobId d config out tmp st = Some (Ok tt, st') ->
  exists sa sb sc,
    files sa = files st /\ outputs sa = outputs st
    /\ executeAction W action jobId d config out tmp sa = Some (Ok tt, sb)
    /\ files sc = files sb /\ outputs sc = outputs sb
    /\ run_actions W rest (S i) total jobId d config out tmp sc = Some (Ok tt, st').
Proof.
  intros Hrun. simpl in Hrun.
  rewrite (bind_ok _ _ _ _ _ (Date_now_eq W st)) in Hrun.
  rewrite (bind_ok _ _ _ _ _ (appendLog_eq W _ _)) in Hrun.
  apply bind_inv in Hrun as [([] & sb & Hexec & Hrun)|(e & _ & [=])].
  rewrite (bind_ok _ _ _ _ _ (Date_now_eq W sb)) in Hrun.
  rewrite (bind_ok _ _ _ _ _ (appendLog_eq W _ _)) in Hrun.
  apply try_catch_ok_inv in Hexec as [Hexec|(e & s1 & _ & [=])].
  eexists _, sb, _.
  split; [|split; [|split; [exact Hexec|split; [|split; [|exact Hrun]]]]]; reflexivity.
Qed.

Lemma run_actions_app_inv l1 l2 i st st' :
  run_actions W (l1 ++ l2) i total jobId d config out tmp st = Some (Ok tt, st') ->
  exists s1,
    run_actions W l1 i total jobId d config out tmp st = Some (Ok tt, s1)
    /\ run_actions W l2 (i + length l1) total jobId d config out tmp s1 = Some (Ok tt, st').
Proof.
  revert i st. induction l1 as [|action l1 IH]; intros i st Hrun.
  - exists st. split; [done|]. simpl length. by rewrite Nat.add_0_r.
  - change ((action :: l1) ++ l2) with (action :: (l1 ++ l2)) in Hrun.
    simpl run_actions in Hrun.
    rewrite (bind_ok _ _ _ _ _ (Date_now_eq W st)) in Hrun.
    rewrite (bind_ok _ _ _ _ _ (appendLog_eq W _ _)) in Hrun.
    apply bind_inv in Hrun as [([] & sb & Hexec & Hrun)|(e & _ & [=])].
    rewrite (bind_ok _ _ _ _ _ (Date_now_eq W sb)) in Hrun.
    rewrite (bind_ok _ _ _ _ _ (appendLog_eq W _ _)) in Hrun.
    destruct (IH _ _ Hrun) as (s1 & Hl1 & Hl2).
    exists s1. split.
    + simpl run_actions.
      rewrite (bind_ok _ _ _ _ _ (Date_now_eq W st)).
      rewrite (bind_ok _ _ _ _ _ (appendLog_eq W _ _)).
      rewrite (bind_ok _ _ _ _ _ Hexec).
      rewrite (bind_ok _ _ _ _ _ (Date_now_eq W sb)).
      rewrite (bind_ok _ _ _ _ _ (appendLog_eq W _ _)).
      exact Hl1.
    + simpl length. by rewrite Nat.add_succ_r.
Qed.
End LoopInversion.

(** * Further properties *)

(** ** The validator of requests *)

Lemma dedupe_from_spec seen l :
  NoDup (dedupe_from seen l)
  /\ forall x, x ∈ dedupe_from seen l <-> x ∈ l /\ x ∉ seen.
Proof.
  revert seen. induction l as [|y l IH]; intros seen; simpl.
  - split; [constructor|]. intros x. rewrite elem_of_nil. tauto.
  - unfold has. destruct (bool_decide_reflect (y ∈ seen)) as [Hin|Hout].
    + destruct (IH seen) as [Hnd Hel]. split; [exact Hnd|].
      intros x. rewrite Hel, elem_of_cons. split; [tauto|].
      intros [[->|Hx] Hs]; [done | tauto].
    + destruct (IH (y :: seen)) as [Hnd Hel]. split.
      * apply NoDup_cons. split; [|exact Hnd].
        rewrite Hel, elem_of_cons. tauto.
      * intros x. rewrite !elem_of_cons, Hel, elem_of_cons.
        split; [intros [->|[Hx Hs]]; tauto|].
        intros [[->|Hx] Hs]; [tauto|].
        destruct (decide (x = y)); tauto.
Qed.

Lemma drop_while_all p s :
  Forall (fun c => p c = true) (to_list s) -> drop_while p s = EmptyString.
Proof.
  induction s as [|c s IH]; [done|]. simpl. intros Hall.
  apply Forall_cons in Hall as [-> Hs]. by apply IH.
Qed.

Lemma drop_while_empty p s :
  drop_while p s = EmptyString -> Forall (fun c => p c = true) (to_list s).
Proof.
  induction s as [|c s IH]; simpl; [constructor|].
  destruct (p c) eqn:E; [|done]. intros Hs. constructor; [done | by apply IH].
Qed.

Lemma drop_while_head p s c r : drop_while p s = String c r -> p c = false.
Proof.
  induction s as [|d s IH]; simpl; [done|].
  destruct (p d) eqn:E; [exact IH|]. by intros [= <- _].
Qed.

Lemma of_list_to_list s : of_list (to_list s) = s.
Proof. apply string_of_list_ascii_of_string. Qed.

Lemma to_list_of_list l : to_list (of_list l) = l.
Proof. apply list_ascii_of_string_of_list_ascii. Qed.

Lemma drop_while_end_empty p s :
  drop_while_end p s = EmptyString -> Forall (fun c => p c = true) (to_list s).
Proof.
  unfold drop_while_end. intros Heq.
  apply (f_equal to_list) in Heq. rewrite to_list_of_list in Heq.
  change (to_list EmptyString) with (@nil ascii) in Heq.
  apply (f_equal (@rev ascii)) in Heq. rewrite rev_involutive in Heq. simpl in Heq.
  apply (f_equal of_list) in Heq. rewrite of_list_to_list in Heq.
  apply drop_while_empty in Heq. rewrite to_list_of_list in Heq.
  apply Forall_forall. intros c Hc. rewrite Forall_forall in Heq. apply Heq.
  apply list_elem_of_In, in_rev. rewrite rev_involutive. by apply list_elem_of_In.
Qed.

(** A string that [trim] empties holds white space only. *)
Lemma trim_empty s : trim s = EmptyString -> Forall (fun c => is_space c = true) (to_list s).
Proof.
  unfold trim. intros Heq. apply drop_while_end_empty in Heq.
  destruct (drop_while is_space s) as [|c r] eqn:E; [by apply drop_while_empty|].
  apply drop_while_head in E. apply Forall_cons in Heq as [Hc _]. congruence.
Qed.

Lemma trim_all_space s : Forall (fun c => is_space c = true) (to_list s) -> trim s = EmptyString.
Proof. intros Hall. unfold trim. by rewrite drop_while_all. Qed.

(** X1.  [parseAllowDomains] returns the items of the comma-separated value,
    trimmed and in lower case, without the empty ones and without
    repetition; nothing else. *)
Theorem parseAllowDomains_spec (raw : string) :
  NoDup (parseAllowDomains (Some raw))
  /\ (forall domain,
        domain ∈ parseAllowDomains (Some raw)
        <-> domain <> EmptyString
            /\ exists item, item ∈ split "," raw /\ domain = toLowerCase (trim item))
  /\ parseAllowDomains None = [].
Proof.
  split; [|split; [|reflexivity]].
  - unfold parseAllowDomains. destruct (_ || _); [constructor|]. apply dedupe_from_spec.
  - intros domain. unfold parseAllowDomains.
    destruct (eqb raw EmptyString || eqb (trim raw) EmptyString) eqn:Hblank.
    + rewrite elem_of_nil. split; [tauto|]. intros (Hne & item & Hitem & ->).
      assert (Htrim : trim raw = EmptyString).
      { apply orb_prop in Hblank as [E|E]; apply eqb_true in E; [by rewrite E | exact E]. }
      assert (Hsplit : split "," raw = [raw]).
      { apply split_free. unfold free_of. eapply Forall_impl; [exact (trim_empty raw Htrim)|].
        intros c Hc ->. vm_compute in Hc. discriminate. }
      rewrite Hsplit in Hitem. apply list_elem_of_singleton in Hitem. subst item.
      apply Hne. by rewrite Htrim.
    + rewrite (proj2 (dedupe_from_spec [] _)), list_elem_of_filter.
      rewrite list_elem_of_In, in_map_iff.
      split.
      * intros [[Hne (item & <- & Hin)] _]. split; [exact Hne|].
        exists item. by rewrite list_elem_of_In.
      * intros (Hne & item & Hin & ->). split; [|apply not_elem_of_nil].
        split; [exact Hne|]. exists item. by rewrite <- list_elem_of_In.
Qed.

Lemma bind_Ok_inv {A B} (m : Result A) (k : A -> Result B) b :
  m ≫= k = Ok b -> exists a, m = Ok a /\ k a = Ok b.
Proof. destruct m as [a|e]; [|done]. intros Hk. by exists a. Qed.

Lemma returns_bind_with {A B} (Q : A -> Prop) (P : B -> Prop) (m : Result A)
    (k : A -> Result B) :
  returns Q m -> (forall a, Q a -> returns P (k a)) -> returns P (m ≫= k).
Proof. intros Hm Hk. destruct m as [a|e]; [by apply Hk | exact I]. Qed.

Lemma returns_Ok {A} (P : A -> Prop) (r : Result A) a : returns P r -> r = Ok a -> P a.
Proof. by intros Hr ->. Qed.

(** *** Limits of an accepted request *)

Lemma validateSessionName_returns v field :
  returns (fun s => SESSION_REGEX s = true /\ trim s = s) (validateSessionName v field).
Proof.
  unfold validateSessionName. destruct v; try exact I.
  destruct (eqb (trim s) EmptyString); [exact I|]. cbv zeta.
  destruct (SESSION_REGEX (trim s)) eqn:Hre; [|exact I]. simpl. split; [done|].
  apply trim_safe. unfold SESSION_REGEX in Hre. by apply andb_prop in Hre as [_ Hsafe].
Qed.

Lemma parsePositiveInteger_returns `{JsRuntime} v field maxValue :
  returns (fun n => 1 <= n <= maxValue) (parsePositiveInteger v field maxValue).
Proof.
  unfold parsePositiveInteger, Js_Number.
  destruct (Js.ToNumber v) as [[parsed|]|]; try exact I. simpl.
  destruct (Z.leb_spec parsed 0); [exact I|].
  destruct (parsed >? maxValue) eqn:E; [exact I|]. simpl. lia.
Qed.

Lemma parseActions_length `{JsRuntime} actionsRaw index allowDomains l :
  parseActions actionsRaw index allowDomains = Ok l -> length l = length actionsRaw.
Proof.
  revert index l. induction actionsRaw as [|raw rest IH]; intros index l; simpl.
  - by intros [= <-].
  - intros Hparse.
    apply bind_Ok_inv in Hparse as (a & _ & Hparse).
    apply bind_Ok_inv in Hparse as (l' & Hrest & [= <-]).
    simpl. f_equal. by eapply IH.
Qed.

(** What [parseRunRequestBody] has checked when it returns a request. *)
Lemma parseRunRequestBody_inv `{JsRuntime} body options request :
  parseRunRequestBody body options = Ok request ->
  exists payload actionsRaw,
    body = JObject payload
    /\ parseOptionalSession (Js.get payload "session") = Ok (session request)
    /\ parseTimeoutMs (Js.get payload "timeoutMs") (opt_defaultTimeoutMs options)
       = Ok (timeoutMs request)
    /\ resolveActionsArray payload = Ok actionsRaw
    /\ (1 <= length actionsRaw)%nat
    /\ Z.of_nat (length actionsRaw) <= maxActions options
    /\ parseActions actionsRaw 0 (opt_allowDomains options) = Ok (actions request).
Proof.
  unfold parseRunRequestBody. intros Hparse.
  apply bind_Ok_inv in Hparse as (payload & Hbody & Hparse).
  apply bind_Ok_inv in Hparse as (session & Hsession & Hparse).
  apply bind_Ok_inv in Hparse as (timeout & Htimeout & Hparse).
  apply bind_Ok_inv in Hparse as (actionsRaw & Hraw & Hparse).
  destruct (Nat.eqb_spec (length actionsRaw) 0) as [|Hne]; [done|].
  destruct (Z.of_nat (length actionsRaw) >? maxActions options) eqn:Hmax; [done|].
  apply bind_Ok_inv in Hparse as (l & Hactions & [= <-]).
  exists payload, actionsRaw. simpl.
  destruct body; try discriminate Hbody. injection Hbody as ->.
  repeat split; try done; lia.
Qed.

(** X2.  A request that [parseRunRequestBody] accepts has at least one action
    and at most [maxActions], as many as the payload listed; its time limit
    is the default or lies between 1 and 600000 ms; its session, if any,
    matches [[a-zA-Z0-9._-]{1,64}] and carries no surrounding white
    space. *)
Theorem parseRunRequestBody_limits `{JsRuntime} (body : JsValue) (options : Options)
    (request : PlaywrightRunRequest) :
  parseRunRequestBody body options = Ok request ->
  (1 <= length (actions request))%nat
  /\ Z.of_nat (length (actions request)) <= maxActions options
  /\ (timeoutMs request = opt_defaultTimeoutMs options \/ 1 <= timeoutMs request <= 600000)
  /\ (forall s, session request = Some s -> SESSION_REGEX s = true /\ trim s = s).
Proof.
  intros Hparse.
  destruct (parseRunRequestBody_inv _ _ _ Hparse)
    as (payload & actionsRaw & _ & Hsession & Htimeout & _ & Hmin & Hmax & Hactions).
  apply parseActions_length in Hactions. rewrite Hactions.
  split; [exact Hmin|]. split; [exact Hmax|]. split.
  - unfold parseTimeoutMs in Htimeout.
    destruct (Js.is_blank _); [left; by injection Htimeout|]. right.
    exact (returns_Ok _ _ _ (parsePositiveInteger_returns _ _ _) Htimeout).
  - intros s Hs. rewrite Hs in Hsession. unfold parseOptionalSession in Hsession.
    destruct (Js.is_blank _); [done|].
    apply bind_Ok_inv in Hsession as (s' & Hvalid & [= ->]).
    exact (returns_Ok _ _ _ (validateSessionName_returns _ _) Hvalid).
Qed.

Lemma parseRunRequestBody_limits_witness :
  (1 <= length (actions (Example.request 5000 [GotoAction "https://example.com" None])))%nat
  /\ Z.of_nat (length (actions (Example.request 5000 [GotoAction "https://example.com" None])))
     <= maxActions Example.options
  /\ (timeoutMs (Example.request 5000 [GotoAction "https://example.com" None])
      = opt_defaultTimeoutMs Example.options
      \/ 1 <= timeoutMs (Example.request 5000 [GotoAction "https://example.com" None])
         <= 600000)
  /\ (forall s, session (Example.request 5000 [GotoAction "https://example.com" None]) = Some s
                -> SESSION_REGEX s = true /\ trim s = s).
Proof.
  apply (parseRunRequestBody_limits (H := RefRuntime.runtime)
           Example.payload_with_browser_options Example.options).
  vm_compute. reflexivity.
Defined.

(** *** The allowlist of domains *)

Lemma requireHttpUrl_returns `{JsRuntime} v field :
  returns (fun url => exists parsed,
             new_URL url = Some parsed
             /\ (protocol parsed = "http:" \/ protocol parsed = "https:"))
    (requireHttpUrl v field).
Proof.
  unfold requireHttpUrl. apply returns_bind. intros url.
  destruct (new_URL url) as [parsed|] eqn:Hurl; [|exact I].
  destruct (eqb (protocol parsed) "http:") eqn:E1.
  - simpl. exists parsed. apply eqb_true in E1. tauto.
  - destruct (eqb (protocol parsed) "https:") eqn:E2; [|exact I].
    simpl. exists parsed. apply eqb_true in E2. tauto.
Qed.

Lemma assertAllowedDomain_returns `{JsRuntime} url allowDomains field parsed :
  new_URL url = Some parsed ->
  returns (fun _ =>
             allowDomains = []
             \/ exists domain,
                  domain ∈ allowDomains
                  /\ (toLowerCase (hostname parsed) = domain
                      \/ endsWith (toLowerCase (hostname parsed)) ("." +:+ domain) = true))
    (assertAllowedDomain url allowDomains field).
Proof.
  intros Hurl. unfold assertAllowedDomain.
  destruct allowDomains as [|d ds]; [by left|].
  change (length (d :: ds) =? 0)%nat with false. cbv iota. rewrite Hurl. cbv zeta.
  destruct (existsb _ (d :: ds)) eqn:Hex; [|exact I]. simpl. right.
  apply existsb_exists in Hex as (domain & Hin & Hok).
  exists domain. split; [by apply list_elem_of_In|].
  apply orb_prop in Hok as [Heq|Hend]; [left; by apply eqb_true | by right].
Qed.

Lemma checked_url_returns `{JsRuntime} {A} v field allowDomains (k : string -> Result A)
    (P : A -> Prop) :
  (forall url, permitted_url allowDomains url -> returns P (k url)) ->
  returns P (url ← requireHttpUrl v field;
             assertAllowedDomain url allowDomains field;; k url).
Proof.
  intros Hk. eapply returns_bind_with; [apply requireHttpUrl_returns|].
  intros url (parsed & Hurl & Hproto).
  eapply returns_bind_with; [by apply assertAllowedDomain_returns|].
  intros u Hallowed. apply Hk. by exists parsed.
Qed.

Lemma parseAction_permitted `{JsRuntime} rawAction index allowDomains :
  returns (fun a => forall url, action_url a = Some url -> permitted_url allowDomains url)
    (parseAction rawAction index allowDomains).
Proof.
  unfold parseAction. cbv zeta. apply returns_bind. intros normalized.
  apply returns_bind. intros actionName.
  destruct (negb _); [exact I|].
  repeat match goal with
         | |- returns _ (if eqb ?a ?b then _ else _) => destruct (eqb a b)
         end;
    try (apply returns_bind; intros _);
    try (repeat first
           [ apply returns_bind; intros
           | match goal with
             | |- returns _ (match ?x with _ => _ end) => destruct x
             end
           | exact I
           | by (simpl; intros) ]; fail).
  - (* goto *)
    apply checked_url_returns. intros url Hurl.
    apply returns_bind. intros waitUntil. simpl. by intros ? [= <-].
  - (* uploadFromUrl *)
    apply returns_bind. intros selector.
    apply checked_url_returns. intros url Hurl. simpl. by intros ? [= <-].
Qed.

Lemma parseActions_permitted `{JsRuntime} actionsRaw index allowDomains :
  returns (Forall (fun a => forall url, action_url a = Some url ->
                                        permitted_url allowDomains url))
    (parseActions actionsRaw index allowDomains).
Proof.
  revert index. induction actionsRaw as [|raw rest IH]; intros index; simpl; [constructor|].
  eapply returns_bind_with; [apply parseAction_permitted|]. intros a Ha.
  eapply returns_bind_with; [apply IH|]. intros l Hl. simpl. by constructor.
Qed.

(** X3.  Every URL that an accepted request makes the browser open ([goto])
    or the service download ([uploadFromUrl]) parses, uses [http] or [https]
    and, when the allowlist is not empty, has a host that is a domain of the
    allowlist or a subdomain of one. *)
Theorem parseRunRequestBody_permitted_urls `{JsRuntime} (body : JsValue) (options : Options)
    (request : PlaywrightRunRequest) (action : PlaywrightAction) (url : string) :
  parseRunRequestBody body options = Ok request ->
  action ∈ actions request ->
  action_url action = Some url ->
  permitted_url (opt_allowDomains options) url.
Proof.
  intros Hparse Hin Hurl.
  destruct (parseRunRequestBody_inv _ _ _ Hparse)
    as (payload & actionsRaw & _ & _ & _ & _ & _ & _ & Hactions).
  pose proof (returns_Ok _ _ _ (parseActions_permitted _ _ _) Hactions) as Hall.
  rewrite Forall_forall in Hall. by apply (Hall action).
Qed.

Lemma parseRunRequestBody_permitted_urls_witness :
  permitted_url (H := RefRuntime.runtime) ["example.com"] "https://example.com".
Proof.
  apply (parseRunRequestBody_permitted_urls (H := RefRuntime.runtime)
           Example.payload_with_browser_options
           {| maxActions := 50; opt_defaultTimeoutMs := 60000;
              opt_allowDomains := ["example.com"] |}
           (Example.request 5000 [GotoAction "https://example.com" None])
           (GotoAction "https://example.com" None) "https://example.com").
  - vm_compute. reflexivity.
  - apply list_elem_of_singleton. reflexivity.
  - reflexivity.
Defined.

(** *** Failures of the validator *)

Lemma fails_bind {A B} (m : Result A) (k : A -> Result B) :
  fails_with_400 m -> (forall a, fails_with_400 (k a)) -> fails_with_400 (m ≫= k).
Proof. intros Hm Hk. destruct m as [a|e]; [apply Hk | exact Hm]. Qed.

Lemma fails_assertOnlyAllowedKeys value allowedKeys field :
  fails_with_400 (assertOnlyAllowedKeys value allowedKeys field).
Proof.
  unfold assertOnlyAllowedKeys. induction (Js.keys value) as [|k ks IH]; simpl; [exact I|].
  destruct (negb _); [by eexists | exact IH].
Qed.

(** One step of a proof that a validator fails with status 400 only. *)
Ltac fails_step :=
  first
    [ exact I
    | by eexists
    | apply fails_assertOnlyAllowedKeys
    | apply fails_bind; [|intros]
    | match goal with
      | |- fails_with_400 (if ?c then _ else _) => destruct c
      | |- fails_with_400 (match ?x with _ => _ end) => destruct x
      end ].

(** Induction on a value with the items of an array and the fields of an
    object. *)
Lemma JsValue_nested_ind (P : JsValue -> Prop) :
  P JUndefined -> P JNull -> (forall b, P (JBool b)) -> (forall n, P (JNumber n)) ->
  (forall s, P (JString s)) ->
  (forall items, Forall P items -> P (JArray items)) ->
  (forall fields, Forall (fun kv => P kv.2) fields -> P (JObject fields)) ->
  forall v, P v.
Proof.
  intros Hundefined Hnull Hbool Hnumber Hstring Harray Hobject.
  fix IH 1.
  intros [| |b|n|s|items|fields];
    [exact Hundefined | exact Hnull | apply Hbool | apply Hnumber | apply Hstring | | ].
  - apply Harray. revert items. fix IHitems 1.
    intros [|e r]; constructor; [apply IH | apply IHitems].
  - apply Hobject. revert fields. fix IHfields 1.
    intros [|[k e] r]; constructor; [apply IH | apply IHfields].
Qed.

(** [String(v)] and [Number(v)] throw only for a value that holds an object
    with a property [toString]. *)
Lemma ToString_None `{JsRuntime} v : Js.ToString v = None -> has_own_toString v = true.
Proof.
  induction v as [| |b|n|s|items IH|fields _] using JsValue_nested_ind;
    try discriminate.
  - cbn [Js.ToString has_own_toString]. intros Hnone.
    induction IH as [|e r He _ IHr]; [discriminate|].
    cbn [existsb]. apply orb_true_iff.
    match type of Hnone with
    | context [match ?head with Some _ => _ | None => None end] =>
        destruct head as [h|] eqn:Hhead
    end.
    + right. apply IHr.
      match type of Hnone with
      | context [option_map (cons h) ?rest] => destruct rest; [discriminate | reflexivity]
      end.
    + left. apply He. by destruct e.
  - cbn [Js.ToString has_own_toString]. intros Hnone.
    destruct (existsb _ _); [reflexivity | discriminate].
Qed.

Lemma ToNumber_None `{JsRuntime} v : Js.ToNumber v = None -> has_own_toString v = true.
Proof.
  intros Hnone. apply ToString_None.
  destruct v; try discriminate; unfold Js.ToNumber in Hnone;
    by destruct (Js.ToString _).
Qed.

Lemma has_own_toString_get fields k :
  has_own_toString (Js.get fields k) = true ->
  existsb (fun kv => has_own_toString kv.2) fields = true.
Proof.
  induction fields as [|[k' v] fields IH]; [discriminate|]. cbn [Js.get existsb].
  destruct (eqb k' k); intros Hv; apply orb_true_iff; [by left | right; by apply IH].
Qed.

Lemma has_own_toString_field fields k :
  has_own_toString (Js.get fields k) = true -> has_own_toString (JObject fields) = true.
Proof.
  intros Hv. cbn [has_own_toString]. apply orb_true_iff. right.
  by apply (has_own_toString_get fields k).
Qed.

Lemma has_own_toString_item items (e : JsValue) :
  e ∈ items -> has_own_toString e = true -> has_own_toString (JArray items) = true.
Proof.
  intros Hin He. cbn [has_own_toString]. apply existsb_exists. exists e.
  split; [by apply list_elem_of_In | exact He].
Qed.

Lemma has_own_toString_spread key nested k :
  has_own_toString (Js.get (Js.spread_action key nested) k) = true ->
  has_own_toString (JObject nested) = true.
Proof.
  unfold Js.spread_action. cbn [Js.get]. destruct (eqb "action" k).
  - destruct (existsb _ _); [apply has_own_toString_field | discriminate].
  - intros Hv. apply has_own_toString_get in Hv.
    cbn [has_own_toString]. apply orb_true_iff. right.
    apply existsb_exists in Hv as (kv & Hin & Hkv). apply existsb_exists.
    exists kv. split; [|exact Hkv].
    apply list_elem_of_In. apply list_elem_of_In in Hin.
    by apply list_elem_of_filter in Hin as [_ Hin].
Qed.

(** Every value [normalizeActionObject] hands on is a part of the action it
    was given. *)
Lemma normalizeActionObject_parts `{JsRuntime} rawAction field :
  returns (fun normalized =>
             forall k, has_own_toString (Js.get normalized k) = true ->
                       has_own_toString rawAction = true)
    (normalizeActionObject rawAction field).
Proof.
  unfold normalizeActionObject, requireObject.
  destruct rawAction as [| | | | | |raw]; try exact I. simpl mbind.
  assert (Hcanonical : forall k, has_own_toString (Js.get raw k) = true ->
                                 has_own_toString (JObject raw) = true).
  { intros k. apply has_own_toString_field. }
  assert (Hshort : returns
            (fun normalized =>
               forall k, has_own_toString (Js.get normalized k) = true ->
                         has_own_toString (JObject raw) = true)
            match Js.keys raw with
            | [key] =>
                let nested := Js.get raw key in
                if negb (has ACTION_NAMES key)
                then Throw (http 400 (MShortInvalid field key))
                else
                  nestedObject ← match nested with
                                 | JObject fields => Ok fields
                                 | _ => Throw (http 400 (MNotObject (field +:+ "." +:+ key)))
                                 end;
                  Ok (Js.spread_action key nestedObject)
            | _ => Throw (http 400 (MNeedAction field))
            end).
  { destruct raw as [|[key v] [|more raw]]; try exact I.
    change (Js.keys [(key, v)]) with [key]. cbv iota zeta.
    destruct (negb _); [exact I|].
    cbn [Js.get]. rewrite eqb_refl.
    destruct v as [| | | | | |nested]; try exact I.
    intros k Hk. apply has_own_toString_spread in Hk.
    apply (has_own_toString_field [(key, JObject nested)] key).
    cbn [Js.get]. by rewrite eqb_refl. }
  destruct (Js.get raw "action"); first [exact Hcanonical | exact Hshort].
Qed.

Section Failures.
Context `{JsRuntime} (T : Prop).

Lemma fails_400 {A} (r : Result A) : fails_with_400 r -> fails_with_400_or_TypeError T r.
Proof. destruct r as [a|e]; [done|]. intros Hr. by left. Qed.

Lemma fails_or_bind {A B} (m : Result A) (k : A -> Result B) :
  fails_with_400_or_TypeError T m -> (forall a, fails_with_400_or_TypeError T (k a)) ->
  fails_with_400_or_TypeError T (m ≫= k).
Proof. intros Hm Hk. destruct m as [a|e]; [apply Hk | exact Hm]. Qed.

Lemma fails_or_bind_with {A B} (Q : A -> Prop) (m : Result A) (k : A -> Result B) :
  returns Q m -> fails_with_400_or_TypeError T m ->
  (forall a, Q a -> fails_with_400_or_TypeError T (k a)) ->
  fails_with_400_or_TypeError T (m ≫= k).
Proof. intros HQ Hm Hk. destruct m as [a|e]; [by apply Hk | exact Hm]. Qed.

Lemma fails_Js_String v :
  (has_own_toString v = true -> T) -> fails_with_400_or_TypeError T (Js_String v).
Proof.
  intros Hv. unfold Js_String. destruct (Js.ToString v) eqn:E; [exact I|].
  right. split; [reflexivity|]. by apply Hv, ToString_None.
Qed.

Lemma fails_Js_Number v :
  (has_own_toString v = true -> T) -> fails_with_400_or_TypeError T (Js_Number v).
Proof.
  intros Hv. unfold Js_Number. destruct (Js.ToNumber v) eqn:E; [exact I|].
  right. split; [reflexivity|]. by apply Hv, ToNumber_None.
Qed.
End Failures.

(** One step of a proof that a validator fails with status 400 or with the
    [TypeError] of a conversion, the values [parts k] being converted. *)
Ltac fails_or_step T Hparts :=
  first
    [ exact I
    | left; by eexists
    | apply (fails_400 T); apply fails_assertOnlyAllowedKeys
    | apply (fails_Js_String T); apply Hparts
    | apply (fails_Js_Number T); apply Hparts
    | apply (fails_or_bind T); [|intros]
    | match goal with
      | |- fails_with_400_or_TypeError _ (if ?c then _ else _) => destruct c
      | |- fails_with_400_or_TypeError _ (match ?x with _ => _ end) => destruct x
      end ].

Lemma fails_parseAction `{JsRuntime} rawAction index allowDomains :
  fails_with_400_or_TypeError (has_own_toString rawAction = true)
    (parseAction rawAction index allowDomains).
Proof.
  set (T := has_own_toString rawAction = true).
  unfold parseAction. cbv zeta.
  apply (fails_or_bind_with T _ _ _ (normalizeActionObject_parts rawAction _)).
  { apply fails_400. unfold normalizeActionObject, requireObject. repeat fails_step. }
  intros normalized Hparts. fold T in Hparts.
  unfold requireHttpUrl, requireNonEmptyString, requireString, parseOptionalBoolean,
    parseOptionalEnum, parseOptionalPositiveInteger, parsePositiveInteger,
    assertAllowedDomain, validateSessionName.
  repeat fails_or_step T Hparts.
Qed.

Lemma fails_parseActions `{JsRuntime} actionsRaw index allowDomains :
  fails_with_400_or_TypeError (has_own_toString (JArray actionsRaw) = true)
    (parseActions actionsRaw index allowDomains).
Proof.
  revert index. induction actionsRaw as [|raw rest IH]; intros index; simpl parseActions;
    [exact I|].
  assert (Hraw : fails_with_400_or_TypeError (has_own_toString (JArray (raw :: rest)) = true)
                   (parseAction raw index allowDomains)).
  { pose proof (fails_parseAction raw index allowDomains) as Hfails.
    destruct (parseAction raw index allowDomains) as [a|e]; [exact I|].
    destruct Hfails as [Hm|[-> Hhas]]; [by left | right]. split; [reflexivity|].
    cbn [has_own_toString existsb]. by rewrite Hhas. }
  assert (Hrest : fails_with_400_or_TypeError (has_own_toString (JArray (raw :: rest)) = true)
                    (parseActions rest (S index) allowDomains)).
  { specialize (IH (S index)).
    destruct (parseActions rest (S index) allowDomains) as [l|e]; [exact I|].
    destruct IH as [Hm|[-> Hhas]]; [by left | right]. split; [reflexivity|].
    cbn [has_own_toString existsb]. cbn [has_own_toString] in Hhas.
    rewrite Hhas. apply orb_true_r. }
  apply fails_or_bind; [exact Hraw|]. intros a.
  apply fails_or_bind; [exact Hrest|]. intros l. exact I.
Qed.



(** *** The short form of an action *)

Lemma spread_action_fresh key nested :
  "action" ∉ Js.keys nested ->
  Js.spread_action key nested = ("action", JString key) :: nested.
Proof.
  intros Hfresh. unfold Js.spread_action.
  assert (Hkeys : existsb (eqb "action") (Js.keys nested) = false).
  { apply not_true_is_false. intros Hex. apply existsb_exists in Hex as (k & Hin & Hk).
    apply eqb_true in Hk. subst k. apply Hfresh. apply list_elem_of_In. exact Hin. }
  rewrite Hkeys. f_equal. clear Hkeys.
  induction nested as [|[k v] nested IH]; [reflexivity|].
  unfold Js.keys in Hfresh. simpl in Hfresh.
  apply not_elem_of_cons in Hfresh as [Hk Hrest].
  rewrite filter_cons_True by (simpl; congruence). f_equal. apply IH. exact Hrest.
Qed.

Lemma normalizeActionObject_canonical fields field name :
  Js.get fields "action" = JString name ->
  normalizeActionObject (JObject fields) field = Ok fields.
Proof. intros Hget. unfold normalizeActionObject. simpl. by rewrite Hget. Qed.

Lemma normalizeActionObject_short key nested field :
  has ACTION_NAMES key = true ->
  "action" ∉ Js.keys nested ->
  normalizeActionObject (JObject [(key, JObject nested)]) field
  = Ok (("action", JString key) :: nested).
Proof.
  intros Hname Hfresh. unfold normalizeActionObject. simpl.
  rewrite Hname, eqb_refl. simpl.
  rewrite spread_action_fresh by done.
  by destruct (eqb key "action").
Qed.

(** X5.  The short form [{ name: { ...fields } }] of an action is read as
    the canonical form [{ action: name, ...fields }], for every action name
    the validator knows and fields that hold no [action] of their own: the
    two are accepted or turned down alike. *)
Theorem parseAction_short_form `{JsRuntime} (key : string)
    (nested : list (string * JsValue)) (index : nat) (allowDomains : list string) :
  key ∈ ACTION_NAMES ->
  "action" ∉ Js.keys nested ->
  parseAction (JObject [(key, JObject nested)]) index allowDomains
  = parseAction (JObject (("action", JString key) :: nested)) index allowDomains.
Proof.
  intros Hname Hfresh. unfold parseAction. cbv zeta.
  pose proof (normalizeActionObject_short key nested ("actions[" +:+ pretty index +:+ "]")
                (bool_decide_eq_true_2 _ Hname) Hfresh) as Hshort.
  pose proof (normalizeActionObject_canonical (("action", JString key) :: nested)
                ("actions[" +:+ pretty index +:+ "]") key eq_refl) as Hcanonical.
  by rewrite Hshort, Hcanonical.
Qed.

Lemma parseAction_short_form_witness :
  parseAction (H := RefRuntime.runtime)
    (JObject [("goto", JObject [("url", JString "https://example.com")])]) 0 []
  = parseAction (H := RefRuntime.runtime)
      (JObject [("action", JString "goto"); ("url", JString "https://example.com")]) 0 [].
Proof.
  apply (parseAction_short_form (H := RefRuntime.runtime) "goto"
           [("url", JString "https://example.com")] 0 []).
  - apply (bool_decide_unpack _). vm_compute. exact I.
  - apply (bool_decide_unpack _). vm_compute. exact I.
Defined.

(** X6.  A session name that [validateSessionName] returns matches
    [[a-zA-Z0-9._-]{1,64}] and is returned unchanged when it is validated
    again, under any field name. *)
Theorem validateSessionName_idempotent (value : JsValue) (field field' session : string) :
  validateSessionName value field = Ok session ->
  SESSION_REGEX session = true
  /\ validateSessionName (JString session) field' = Ok session.
Proof.
  intros Hvalid.
  destruct (returns_Ok _ _ _ (validateSessionName_returns value field) Hvalid) as [Hre Htrim].
  split; [exact Hre|].
  rewrite <- Htrim at 2. apply validateSessionName_ok. by rewrite Htrim.
Qed.

Lemma validateSessionName_idempotent_witness :
  SESSION_REGEX "x-main" = true
  /\ validateSessionName (JString "x-main") "actions[0].session" = Ok "x-main".
Proof.
  apply (validateSessionName_idempotent (JString "  x-main ") "session").
  vm_compute. reflexivity.
Defined.

(** ** Names of artifacts *)

Lemma of_list_app (l1 l2 : list ascii) : of_list (l1 ++ l2) = of_list l1 +:+ of_list l2.
Proof. induction l1 as [|c l1 IH]; [reflexivity|]. simpl. rewrite append_cons. by f_equal. Qed.

Lemma length_to_list s : length (to_list s) = String.length s.
Proof. induction s as [|c s IH]; [reflexivity|]. simpl. by f_equal. Qed.

Lemma length_of_list l : String.length (of_list l) = length l.
Proof. by rewrite <- length_to_list, to_list_of_list. Qed.

Lemma endsWith_append (a b : string) : endsWith (a +:+ b) b = true.
Proof.
  unfold endsWith. rewrite to_list_append, rev_app_distr, of_list_app. apply prefix_append.
Qed.

Lemma prefix_length (p s : string) :
  String.prefix p s = true -> (String.length p <= String.length s)%nat.
Proof.
  revert s. induction p as [|c p IH]; intros s; [simpl; lia|].
  destruct s as [|d s]; [done|]. simpl.
  destruct (ascii_dec c d); [|done]. intros Hp. apply IH in Hp. lia.
Qed.

Lemma endsWith_length (s p : string) :
  endsWith s p = true -> (String.length p <= String.length s)%nat.
Proof.
  unfold endsWith. intros Hp. apply prefix_length in Hp.
  by rewrite !length_of_list, !length_rev, !length_to_list in Hp.
Qed.

Lemma toLowerCase_append (a b : string) :
  toLowerCase (a +:+ b) = toLowerCase a +:+ toLowerCase b.
Proof.
  induction a as [|c a IH]; [reflexivity|].
  rewrite append_cons. cbn [toLowerCase]. rewrite append_cons. by f_equal.
Qed.

Lemma length_toLowerCase s : String.length (toLowerCase s) = String.length s.
Proof. induction s as [|c s IH]; [reflexivity|]. simpl. by f_equal. Qed.

Lemma all_append p (a b : string) : all p (a +:+ b) = all p a && all p b.
Proof. unfold all. by rewrite to_list_append, forallb_app. Qed.

Lemma all_replace_each_safe s :
  all is_safe_char (replace_each (fun c => negb (is_safe_char c)) "_" s) = true.
Proof.
  induction s as [|c s IH]; [reflexivity|]. unfold all in *. simpl.
  rewrite IH, andb_true_r. by destruct (is_safe_char c) eqn:E.
Qed.

Lemma all_collapse_from p (q : ascii -> bool) by_ in_run s :
  q by_ = true -> all q s = true -> all q (collapse_from p by_ in_run s) = true.
Proof.
  intros Hby. revert in_run. unfold all.
  induction s as [|c s IH]; intros in_run Hs; [reflexivity|].
  simpl in Hs. apply andb_prop in Hs as [Hc Hs]. simpl.
  destruct (p c); [destruct in_run|]; simpl; rewrite ?Hby, ?Hc; by apply IH.
Qed.

Lemma all_drop_while p (q : ascii -> bool) s :
  all q s = true -> all q (drop_while p s) = true.
Proof.
  unfold all. induction s as [|c s IH]; [done|]. intros Hs. simpl.
  destruct (p c); [|exact Hs]. simpl in Hs. apply andb_prop in Hs as [_ Hs]. by apply IH.
Qed.

Lemma all_rev (q : ascii -> bool) s : all q (of_list (rev (to_list s))) = all q s.
Proof.
  unfold all. rewrite to_list_of_list.
  apply eq_true_iff_eq. rewrite !forallb_forall.
  split; intros Hall c Hc; apply Hall; [by apply in_rev in Hc | by apply in_rev].
Qed.

Lemma all_drop_while_end p (q : ascii -> bool) s :
  all q s = true -> all q (drop_while_end p s) = true.
Proof.
  intros Hs. unfold drop_while_end. rewrite all_rev.
  apply all_drop_while. by rewrite all_rev.
Qed.

Lemma safe_unreserved c : is_safe_char c = true -> is_unreserved c = true.
Proof.
  unfold is_safe_char, is_unreserved. intros Hsafe.
  destruct (is_alnum c); [reflexivity|]. simpl in *.
  destruct (code c =? 45)%N; [reflexivity|].
  destruct (code c =? 95)%N; [reflexivity|].
  by destruct (code c =? 46)%N.
Qed.

(** [encodeURIComponent] leaves a name of safe characters as it is. *)
Lemma encodeURIComponent_safe s : all is_safe_char s = true -> encodeURIComponent s = s.
Proof.
  unfold all. induction s as [|c s IH]; [reflexivity|]. simpl.
  intros Hs. apply andb_prop in Hs as [Hc Hs].
  rewrite (safe_unreserved c Hc), append_cons, append_nil. f_equal. by apply IH.
Qed.

(** The name [sanitizeArtifactFilename] builds for a name that is not blank. *)
Lemma sanitizeArtifactFilename_value name :
  trim name <> EmptyString ->
  exists base,
    base <> EmptyString /\ all is_safe_char base = true
    /\ Storage.sanitizeArtifactFilename name
       = Ok (if endsWith (toLowerCase base) ".png" then base else base +:+ ".png").
Proof.
  intros Hname. unfold Storage.sanitizeArtifactFilename. cbv zeta.
  rewrite (proj2 (eqb_false _ _) Hname).
  set (collapsed := drop_while_end _ _).
  assert (Hcollapsed : all is_safe_char collapsed = true).
  { apply all_drop_while_end, all_drop_while.
    apply all_collapse_from; [reflexivity|].
    apply all_collapse_from; [reflexivity|].
    apply all_replace_each_safe. }
  set (base := if eqb collapsed EmptyString then "screenshot" else collapsed).
  assert (Hbase : base <> EmptyString /\ all is_safe_char base = true).
  { unfold base. destruct (eqb collapsed EmptyString) eqn:E.
    - split; [discriminate | reflexivity].
    - split; [by apply eqb_false | exact Hcollapsed]. }
  clearbody base. clear Hcollapsed. clearbody collapsed.
  destruct Hbase as [Hne Hsafe]. exists base. split; [exact Hne|]. split; [exact Hsafe|].
  assert (Hok : Storage.SAFE_FILENAME_REGEX
                  (if endsWith (toLowerCase base) ".png" then base else base +:+ ".png")
                = true).
  { unfold Storage.SAFE_FILENAME_REGEX. destruct (endsWith _ _).
    - rewrite (proj2 (eqb_false _ _) Hne), Hsafe. reflexivity.
    - rewrite all_append, Hsafe. simpl.
      destruct base; [done|]. rewrite append_cons. reflexivity. }
  rewrite Hok. reflexivity.
Qed.

(** X7.  [sanitizeArtifactFilename] turns down a blank name only.  For every
    other name it returns a file name of the characters [[a-zA-Z0-9._-]]
    that ends with [.png] in some letter case, that
    [validateArtifactFilename] accepts, and that [encodeURIComponent] leaves
    as it is: the error "invalid screenshot name" is never raised. *)
Theorem sanitizeArtifactFilename_spec (name : string) :
  (trim name = EmptyString ->
   Storage.sanitizeArtifactFilename name = Throw (http 400 MScreenshotEmpty))
  /\ (trim name <> EmptyString ->
      exists filename,
        Storage.sanitizeArtifactFilename name = Ok filename
        /\ Storage.SAFE_FILENAME_REGEX filename = true
        /\ endsWith (toLowerCase filename) ".png" = true
        /\ Storage.validateArtifactFilename filename = Ok tt
        /\ encodeURIComponent filename = filename).
Proof.
  split.
  - intros Hblank. unfold Storage.sanitizeArtifactFilename. cbv zeta.
    by rewrite (proj2 (eqb_true _ _) Hblank).
  - intros Hname.
    destruct (sanitizeArtifactFilename_value name Hname) as (base & Hne & Hsafe & ->).
    eexists. split; [reflexivity|].
    set (filename := if endsWith _ _ then base else base +:+ ".png").
    assert (Hall : all is_safe_char filename = true).
    { unfold filename. destruct (endsWith _ _); [done|]. by rewrite all_append, Hsafe. }
    assert (Hpng : endsWith (toLowerCase filename) ".png" = true).
    { unfold filename. destruct (endsWith (toLowerCase base) ".png") eqn:E; [exact E|].
      rewrite toLowerCase_append. apply endsWith_append. }
    assert (Hlen : (4 <= String.length filename)%nat).
    { apply endsWith_length in Hpng. by rewrite length_toLowerCase in Hpng. }
    assert (Hregex : Storage.SAFE_FILENAME_REGEX filename = true).
    { unfold Storage.SAFE_FILENAME_REGEX. rewrite Hall, andb_true_r.
      apply negb_true_iff, eqb_false. intros Heq. rewrite Heq in Hlen. simpl in Hlen. lia. }
    split; [exact Hregex|]. split; [exact Hpng|]. split.
    + unfold Storage.validateArtifactFilename. rewrite Hregex. simpl.
      assert (Hdot : eqb filename "." = false).
      { apply eqb_false. intros Heq. rewrite Heq in Hlen. simpl in Hlen. lia. }
      assert (Hdots : eqb filename ".." = false).
      { apply eqb_false. intros Heq. rewrite Heq in Hlen. simpl in Hlen. lia. }
      by rewrite Hdot, Hdots.
    + by apply encodeURIComponent_safe.
Qed.

Lemma sanitizeArtifactFilename_spec_witness :
  Storage.sanitizeArtifactFilename "  " = Throw (http 400 MScreenshotEmpty)
  /\ exists filename,
       Storage.sanitizeArtifactFilename "final post/result" = Ok filename
       /\ Storage.SAFE_FILENAME_REGEX filename = true
       /\ endsWith (toLowerCase filename) ".png" = true
       /\ Storage.validateArtifactFilename filename = Ok tt
       /\ encodeURIComponent filename = filename.
Proof.
  split.
  - apply (proj1 (sanitizeArtifactFilename_spec "  ")). reflexivity.
  - apply (proj2 (sanitizeArtifactFilename_spec "final post/result")).
    vm_compute. discriminate.
Defined.

(** ** Paths of artifacts *)

Lemma join_cons2 sep (x y : string) (l : list string) :
  JsString.join sep (x :: y :: l) = x +:+ sep +:+ JsString.join sep (y :: l).
Proof. reflexivity. Qed.

Lemma join_app sep (l1 l2 : list string) :
  l1 <> [] -> l2 <> [] ->
  JsString.join sep (l1 ++ l2) = JsString.join sep l1 +:+ sep +:+ JsString.join sep l2.
Proof.
  intros H1 H2. induction l1 as [|x l1 IH]; [done|].
  destruct l1 as [|y l1].
  - destruct l2 as [|z l2]; [done|]. reflexivity.
  - change ((x :: y :: l1) ++ l2) with (x :: y :: (l1 ++ l2)).
    rewrite !join_cons2. change (y :: l1 ++ l2) with ((y :: l1) ++ l2).
    rewrite IH by done. by rewrite !append_assoc.
Qed.

Lemma join_split sep s : JsString.join (String sep EmptyString) (split sep s) = s.
Proof.
  induction s as [|c s IH]; [reflexivity|]. simpl.
  destruct (bool_decide_reflect (c = sep)) as [->|Hc].
  - destruct (split sep s) as [|h t] eqn:E; [by destruct (split_nonempty sep s)|].
    rewrite join_cons2, IH. reflexivity.
  - destruct (split sep s) as [|h t] eqn:E; [by destruct (split_nonempty sep s)|].
    destruct t as [|h' t].
    + simpl in *. by rewrite IH.
    + rewrite join_cons2 in *. rewrite append_cons. by rewrite IH.
Qed.

Lemma split_parts_free sep s : Forall (free_of sep) (split sep s).
Proof.
  induction s as [|c s IH]; simpl; [by repeat constructor|].
  destruct (bool_decide_reflect (c = sep)) as [->|Hc].
  { constructor; [constructor | exact IH]. }
  destruct (split sep s) as [|h t].
  { constructor; [|constructor]. by constructor. }
  apply Forall_cons in IH as [Hh Ht]. constructor; [|exact Ht]. by constructor.
Qed.

(** The segments [normalizeString] keeps below the root are plain. *)
Lemma norm_step_kept_plain kept seg :
  free_of "/" seg -> Forall plain_segment kept ->
  Forall plain_segment (Path.norm_step false kept seg).
Proof.
  intros Hseg Hkept. unfold Path.norm_step.
  destruct (eqb seg EmptyString) eqn:E1; [exact Hkept|].
  destruct (eqb seg ".") eqn:E2; [exact Hkept|]. simpl.
  destruct (eqb seg "..") eqn:E3.
  - destruct kept as [|top below]; [constructor|].
    destruct (eqb top ".."); [exact Hkept|].
    by apply Forall_cons in Hkept as [_ Hbelow].
  - constructor; [|exact Hkept].
    apply eqb_false in E1, E2, E3. by repeat split.
Qed.

Lemma fold_norm_kept_plain segs kept :
  Forall (free_of "/") segs -> Forall plain_segment kept ->
  Forall plain_segment (fold_left (Path.norm_step false) segs kept).
Proof.
  revert kept. induction segs as [|seg segs IH]; intros kept Hsegs Hkept; [exact Hkept|].
  apply Forall_cons in Hsegs as [Hseg Hsegs]. simpl.
  apply IH; [exact Hsegs|]. by apply norm_step_kept_plain.
Qed.

Lemma plain_join_nonempty segs :
  Forall plain_segment segs -> segs <> [] -> JsString.join "/" segs <> EmptyString.
Proof.
  destruct segs as [|s segs]; [done|]. intros Hall _.
  apply Forall_cons in Hall as [(Hne & _) _].
  destruct segs as [|t segs]; [exact Hne|].
  rewrite join_cons2. destruct s; [done|]. by rewrite append_cons.
Qed.

Lemma plain_join_not_absolute segs :
  Forall plain_segment segs -> segs <> [] ->
  Path.isAbsolute (JsString.join "/" segs) = false.
Proof.
  destruct segs as [|s segs]; [done|]. intros Hall _.
  apply Forall_cons in Hall as [Hs _].
  destruct segs as [|t segs]; [by apply plain_not_absolute|].
  rewrite join_cons2, isAbsolute_append; [by apply plain_not_absolute | apply Hs].
Qed.

(** The segments of a path followed by the plain segments [targets]. *)
Lemma fold_norm_children b p targets :
  Forall plain_segment targets -> targets <> [] ->
  (p = EmptyString \/ exists q, p = q +:+ "/") ->
  fold_left (Path.norm_step b)
    (split "/" (p +:+ JsString.join "/" targets +:+ "/" +:+ EmptyString)) []
  = rev targets ++ fold_left (Path.norm_step b) (split "/" p) [].
Proof.
  intros Hplain Hne Hp.
  assert (Htail : split "/" (JsString.join "/" targets +:+ "/" +:+ EmptyString)
                  = targets ++ [EmptyString]).
  { change (JsString.join "/" targets +:+ "/" +:+ EmptyString)
      with (JsString.join "/" targets +:+ String "/" EmptyString).
    by rewrite split_app, split_join_plain. }
  destruct Hp as [->|[q ->]].
  - rewrite append_nil, Htail, fold_left_app. simpl.
    rewrite norm_step_empty, fold_norm_plain by done. reflexivity.
  - change (q +:+ "/") with (q +:+ String "/" EmptyString).
    rewrite append_assoc.
    change (String "/" EmptyString +:+ JsString.join "/" targets +:+ "/" +:+ EmptyString)
      with (String "/" (JsString.join "/" targets +:+ "/" +:+ EmptyString)).
    rewrite !split_app, Htail. simpl split.
    rewrite !fold_left_app. simpl. rewrite !norm_step_empty.
    by rewrite fold_norm_plain.
Qed.

(** [path.resolve(root)] is a path of plain segments, and
    [path.resolve(root, target)] adds the segments of a relative [target] of
    plain segments to it. *)
Lemma resolve_shape `{JsRuntime} root :
  Path.isAbsolute process_cwd = true ->
  exists segs,
    Forall plain_segment segs
    /\ Path.resolve [root] = "/" +:+ JsString.join "/" segs
    /\ forall targets,
         Forall plain_segment targets -> targets <> [] ->
         Path.resolve [root; JsString.join "/" targets]
         = "/" +:+ JsString.join "/" (segs ++ targets).
Proof.
  intros Hcwd.
  pose proof (resolve_loop_absolute root process_cwd Hcwd) as Habs.
  pose proof (resolve_loop_ends_with_sep [root; process_cwd] EmptyString (or_introl eq_refl))
    as Hshape.
  exists (rev (fold_left (Path.norm_step false)
                 (split "/" (Path.resolve_loop [root; process_cwd] EmptyString).1) [])).
  split; [|split].
  - apply Forall_rev, fold_norm_kept_plain; [apply split_parts_free | constructor].
  - unfold Path.resolve.
    change (rev [root] ++ [process_cwd]) with [root; process_cwd].
    destruct (Path.resolve_loop [root; process_cwd] EmptyString) as [p a].
    simpl in Habs. subst a. reflexivity.
  - intros targets Hplain Hne. unfold Path.resolve.
    set (t := JsString.join "/" targets).
    change (rev [root; t] ++ [process_cwd]) with (t :: [root; process_cwd]).
    assert (Hstep : Path.resolve_loop (t :: [root; process_cwd]) EmptyString
                    = Path.resolve_loop [root; process_cwd] (t +:+ "/" +:+ EmptyString)).
    { change (Path.resolve_loop (t :: [root; process_cwd]) EmptyString)
        with (if eqb t EmptyString then Path.resolve_loop [root; process_cwd] EmptyString
              else if Path.isAbsolute t then (t +:+ "/" +:+ EmptyString, true)
                   else Path.resolve_loop [root; process_cwd] (t +:+ "/" +:+ EmptyString)).
      rewrite (proj2 (eqb_false t EmptyString)) by (by apply plain_join_nonempty).
      unfold t. by rewrite plain_join_not_absolute. }
    rewrite Hstep, resolve_loop_acc.
    destruct (Path.resolve_loop [root; process_cwd] EmptyString) as [p a].
    simpl in Habs, Hshape. subst a. simpl fst. simpl snd. cbv beta iota zeta.
    unfold Path.normalizeString. simpl negb. unfold t.
    rewrite fold_norm_children by done. by rewrite rev_app_distr, rev_involutive.
Qed.

(** [path.join(dir, f)] below an absolute directory of plain segments. *)
Lemma join_absolute_child segs f :
  Forall plain_segment segs -> segs <> [] -> plain_segment f ->
  Path.join ["/" +:+ JsString.join "/" segs; f]
  = "/" +:+ JsString.join "/" segs +:+ "/" +:+ f.
Proof.
  intros Hsegs Hne Hf. pose proof Hf as (Hfne & _ & _ & Hfree).
  set (dir := "/" +:+ JsString.join "/" segs).
  assert (Hdir : dir <> EmptyString) by done.
  unfold Path.join.
  rewrite filter_cons_True by done. rewrite filter_cons_True by done. rewrite filter_nil.
  change (JsString.join "/" [dir; f]) with (dir +:+ String "/" f).
  unfold Path.normalize.
  assert (Hnonempty : dir +:+ String "/" f <> EmptyString) by done.
  assert (Hends : endsWith (dir +:+ String "/" f) "/" = false).
  { replace (dir +:+ String "/" f) with ((dir +:+ "/") +:+ f) by (by rewrite append_assoc).
    by apply endsWith_sep_plain. }
  assert (Habs : Path.isAbsolute (dir +:+ String "/" f) = true).
  { rewrite isAbsolute_append by done. apply isAbsolute_slash. }
  assert (Hnorm : Path.normalizeString (dir +:+ String "/" f) false
                  = JsString.join "/" (segs ++ [f])).
  { unfold Path.normalizeString, dir.
    change ("/" +:+ JsString.join "/" segs) with (EmptyString +:+ String "/" (JsString.join "/" segs)).
    rewrite !split_app, (split_free "/" f), split_join_plain by done.
    simpl split. rewrite !fold_left_app. simpl.
    rewrite norm_step_empty, fold_norm_plain by done.
    rewrite (norm_step_plain _ _ f) by done.
    rewrite app_nil_r. simpl. by rewrite rev_involutive. }
  rewrite (proj2 (eqb_false _ EmptyString) Hnonempty).
  rewrite Habs, Hends. simpl negb. rewrite Hnorm.
  rewrite (proj2 (eqb_false _ EmptyString)) by (by apply join_snoc_nonempty).
  rewrite join_snoc. by destruct segs.
Qed.

(** [path.join(a, b)] of two plain segments. *)
Lemma join_two_plain a b :
  plain_segment a -> plain_segment b -> Path.join [a; b] = a +:+ "/" +:+ b.
Proof.
  intros Ha Hb. pose proof Ha as (Hane & _ & _ & Hafree).
  pose proof Hb as (Hbne & _ & _ & Hbfree).
  unfold Path.join.
  rewrite filter_cons_True by done. rewrite filter_cons_True by done. rewrite filter_nil.
  change (JsString.join "/" [a; b]) with (a +:+ String "/" b).
  unfold Path.normalize.
  assert (Hnonempty : a +:+ String "/" b <> EmptyString).
  { destruct a; [done | discriminate]. }
  assert (Hends : endsWith (a +:+ String "/" b) "/" = false).
  { replace (a +:+ String "/" b) with ((a +:+ "/") +:+ b) by (by rewrite append_assoc).
    by apply endsWith_sep_plain. }
  assert (Habs : Path.isAbsolute (a +:+ String "/" b) = false).
  { rewrite isAbsolute_append by done. by apply plain_not_absolute. }
  assert (Hnorm : Path.normalizeString (a +:+ String "/" b) true = a +:+ "/" +:+ b).
  { unfold Path.normalizeString.
    rewrite split_app_free, (split_free "/" b) by done. simpl fold_left.
    rewrite (norm_step_plain _ _ a), (norm_step_plain _ _ b) by done. reflexivity. }
  rewrite (proj2 (eqb_false _ EmptyString) Hnonempty).
  rewrite Habs, Hends. simpl negb. rewrite Hnorm.
  assert (Hne : a +:+ "/" +:+ b <> EmptyString).
  { destruct a; [done | discriminate]. }
  by rewrite (proj2 (eqb_false _ EmptyString) Hne).
Qed.

Lemma resolveInsideRoot_children `{JsRuntime} root targets label :
  Path.isAbsolute process_cwd = true ->
  Path.resolve [root] <> "/" ->
  Forall plain_segment targets -> targets <> [] ->
  Storage.resolveInsideRoot root (JsString.join "/" targets) label
  = Ok (Path.resolve [root] +:+ "/" +:+ JsString.join "/" targets).
Proof.
  intros Hcwd Hroot Hplain Hne.
  destruct (resolve_shape root Hcwd) as (segs & Hsegs & Hr & Hchild).
  assert (Hsegsne : segs <> []).
  { intros ->. by rewrite Hr in Hroot. }
  assert (Hresolved : Path.resolve [root; JsString.join "/" targets]
                      = Path.resolve [root] +:+ "/" +:+ JsString.join "/" targets).
  { rewrite (Hchild targets Hplain Hne), Hr, join_app by done. by rewrite !append_assoc. }
  unfold Storage.resolveInsideRoot. rewrite Hresolved.
  assert (Hneq : Path.resolve [root] +:+ "/" +:+ JsString.join "/" targets
                 <> Path.resolve [root]).
  { intros Heq. apply (f_equal String.length) in Heq.
    rewrite !length_append in Heq. simpl in Heq. lia. }
  rewrite (proj2 (eqb_false _ _) Hneq).
  unfold startsWith. rewrite <- append_assoc, prefix_append. reflexivity.
Qed.

Lemma hex_not_slash c : Storage.is_hex c = true -> c <> "/"%char.
Proof. intros Hhex ->. vm_compute in Hhex. discriminate. Qed.

Lemma hex_free g : all Storage.is_hex g = true -> free_of "/" g.
Proof.
  rewrite all_Forall. unfold free_of. intros Hhex.
  eapply Forall_impl; [exact Hhex|]. intros c. apply hex_not_slash.
Qed.

Lemma free_of_append sep (a b : string) : free_of sep a -> free_of sep b -> free_of sep (a +:+ b).
Proof. unfold free_of. rewrite to_list_append. apply Forall_app_2. Qed.

(** An identifier that matches the UUID pattern is one path segment. *)
Lemma uuid_plain jobId : Storage.UUID_REGEX jobId = true -> plain_segment jobId.
Proof.
  unfold Storage.UUID_REGEX. pose proof (join_split "-" jobId) as Hjoin.
  destruct (split "-" jobId) as [|g1 [|g2 [|g3 [|g4 [|g5 [|g6 rest]]]]]]; try discriminate.
  intros Hre.
  repeat match type of Hre with
         | (_ && _ = true) => let H := fresh "Hg" in apply andb_prop in Hre as [Hre H]
         end.
  apply Nat.eqb_eq in Hre.
  assert (Hfree : free_of "/" jobId).
  { rewrite <- Hjoin. rewrite !join_cons2.
    assert (Hdash : free_of "/" "-") by (repeat constructor; discriminate).
    repeat apply free_of_append; try exact Hdash; by apply hex_free. }
  assert (Hlen : (8 <= String.length jobId)%nat).
  { rewrite <- Hjoin, !join_cons2, length_append. lia. }
  repeat split; try exact Hfree; intros Heq; rewrite Heq in Hlen; simpl in Hlen; lia.
Qed.

Lemma validateArtifactFilename_plain filename :
  Storage.validateArtifactFilename filename = Ok tt -> plain_segment filename.
Proof.
  unfold Storage.validateArtifactFilename, Storage.SAFE_FILENAME_REGEX.
  destruct (eqb filename EmptyString) eqn:Hne; [done|]. simpl.
  destruct (all is_safe_char filename) eqn:Hsafe; [|done]. simpl.
  destruct (eqb filename ".") eqn:Hdot; [done|].
  destruct (eqb filename "..") eqn:Hdots; [done|]. intros _.
  apply eqb_false in Hne, Hdot, Hdots. repeat split; try done. by apply safe_free.
Qed.

Lemma resolveArtifactPath_shape `{JsRuntime} (outputDir jobId filename : string) :
  Path.isAbsolute process_cwd = true ->
  Path.resolve [outputDir] <> "/" ->
  Storage.UUID_REGEX jobId = true ->
  Storage.validateArtifactFilename filename = Ok tt ->
  exists jobOutputDir,
    Storage.resolveInsideRoot outputDir jobId "job output directory" = Ok jobOutputDir
    /\ Storage.resolveArtifactPath outputDir jobId filename
       = Ok (Path.join [jobOutputDir; filename])
    /\ Path.join [jobOutputDir; filename]
       = Path.resolve [outputDir] +:+ "/" +:+ jobId +:+ "/" +:+ filename.
Proof.
  intros Hcwd Hroot Hid Hname.
  pose proof (uuid_plain jobId Hid) as Hjob.
  pose proof (validateArtifactFilename_plain filename Hname) as Hfile.
  destruct (resolve_shape outputDir Hcwd) as (segs & Hsegs & Hr & _).
  assert (Hsegsne : segs <> []).
  { intros ->. by rewrite Hr in Hroot. }
  exists (Path.resolve [outputDir] +:+ "/" +:+ jobId).
  assert (Hwritten : Path.join [Path.resolve [outputDir] +:+ "/" +:+ jobId; filename]
                     = Path.resolve [outputDir] +:+ "/" +:+ jobId +:+ "/" +:+ filename).
  { assert (Hdir : Path.resolve [outputDir] +:+ "/" +:+ jobId
                   = "/" +:+ JsString.join "/" (segs ++ [jobId])).
    { rewrite Hr, join_snoc. destruct segs; [done|]. by rewrite !append_assoc. }
    rewrite Hdir, join_absolute_child.
    - rewrite Hr, join_snoc. destruct segs; [done|]. by rewrite !append_assoc.
    - apply Forall_app_2; [exact Hsegs | by constructor].
    - by destruct segs.
    - exact Hfile. }
  assert (Hone : Forall plain_segment [jobId]).
  { constructor; [exact Hjob | constructor]. }
  assert (Htwo : Forall plain_segment [jobId; filename]).
  { constructor; [exact Hjob|]. constructor; [exact Hfile | constructor]. }
  split; [|split; [|exact Hwritten]].
  - by apply (resolveInsideRoot_children outputDir [jobId]).
  - unfold Storage.resolveArtifactPath, Storage.validateJobId.
    rewrite Hid, Hname. simpl negb. cbv iota. unfold mbind, result_bind.
    rewrite join_two_plain by done.
    rewrite (resolveInsideRoot_children outputDir [jobId; filename]) by done.
    by rewrite Hwritten.
Qed.

(** X8.  In a process with an absolute working directory and an output
    directory that is not the root: for a job identifier that matches the
    UUID pattern and a file name that [validateArtifactFilename] accepts,
    the path [resolveArtifactPath] serves is the path
    [path.join(jobOutputDir, filename)] at which the runner writes the file
    of that name, with [jobOutputDir] the directory [ensureJobDirectories]
    resolves for the job; it is the resolved output directory followed by
    the identifier and the file name. *)
Theorem resolveArtifactPath_written_file `{JsRuntime} (outputDir jobId filename : string) :
  Path.isAbsolute process_cwd = true ->
  Path.resolve [outputDir] <> "/" ->
  Storage.UUID_REGEX jobId = true ->
  Storage.validateArtifactFilename filename = Ok tt ->
  exists jobOutputDir,
    Storage.resolveInsideRoot outputDir jobId "job output directory" = Ok jobOutputDir
    /\ Storage.resolveArtifactPath outputDir jobId filename
       = Ok (Path.join [jobOutputDir; filename])
    /\ Path.join [jobOutputDir; filename]
       = Path.resolve [outputDir] +:+ "/" +:+ jobId +:+ "/" +:+ filename.
Proof. apply resolveArtifactPath_shape. Qed.

Lemma resolveArtifactPath_written_file_witness :
  exists jobOutputDir,
    Storage.resolveInsideRoot (H := RefRuntime.runtime) "outputs"
      "123e4567-e89b-42d3-a456-426614174000" "job output directory" = Ok jobOutputDir
    /\ Storage.resolveArtifactPath (H := RefRuntime.runtime) "outputs"
         "123e4567-e89b-42d3-a456-426614174000" "shot-1.png"
       = Ok (Path.join [jobOutputDir; "shot-1.png"])
    /\ Path.join [jobOutputDir; "shot-1.png"]
       = Path.resolve (H := RefRuntime.runtime) ["outputs"] +:+ "/"
         +:+ "123e4567-e89b-42d3-a456-426614174000" +:+ "/" +:+ "shot-1.png".
Proof.
  apply (resolveArtifactPath_written_file (H := RefRuntime.runtime) "outputs"
           "123e4567-e89b-42d3-a456-426614174000" "shot-1.png").
  - reflexivity.
  - vm_compute. discriminate.
  - vm_compute. reflexivity.
  - vm_compute. reflexivity.
Defined.

(** ** Downloads for [uploadFromUrl] *)

Lemma createSafeFileName_safe `{JsRuntime} url contentType :
  all is_safe_char (createSafeFileName url (mapImageExtension contentType)) = true
  /\ (5 <= String.length (createSafeFileName url (mapImageExtension contentType)))%nat.
Proof.
  unfold createSafeFileName. cbv zeta.
  set (normalized := drop_while_end _ _).
  assert (Hnormalized : all is_safe_char normalized = true).
  { apply all_drop_while_end, all_drop_while, all_replace_each_safe. }
  clearbody normalized.
  set (safeBase := if eqb normalized EmptyString then "upload" else normalized).
  assert (Hbase : safeBase <> EmptyString /\ all is_safe_char safeBase = true).
  { unfold safeBase. destruct (eqb normalized EmptyString) eqn:E.
    - split; [discriminate | reflexivity].
    - split; [by apply eqb_false | exact Hnormalized]. }
  clearbody safeBase. destruct Hbase as [Hne Hsafe].
  assert (Hext : all is_safe_char (mapImageExtension contentType) = true
                 /\ (4 <= String.length (mapImageExtension contentType))%nat).
  { unfold mapImageExtension.
    repeat match goal with |- context [if ?c then _ else _] => destruct c end;
      (split; [reflexivity | simpl; lia]). }
  destruct Hext as [Hext Hlen].
  rewrite all_append, length_append, Hsafe, Hext. split; [reflexivity|].
  destruct safeBase; [done|]. simpl. lia.
Qed.

(** X9.  Whatever the URL and the content type, the name
    [createSafeFileName] gives the downloaded file consists of the
    characters [[a-zA-Z0-9._-]] and is neither [.] nor [..]: it is one path
    segment, so the file lies in the destination directory itself. *)
Theorem createSafeFileName_plain `{JsRuntime} (url contentType : string) :
  Storage.SAFE_FILENAME_REGEX (createSafeFileName url (mapImageExtension contentType)) = true
  /\ plain_segment (createSafeFileName url (mapImageExtension contentType))
  /\ forall segs,
       Forall plain_segment segs -> segs <> [] ->
       Path.join ["/" +:+ JsString.join "/" segs;
                  createSafeFileName url (mapImageExtension contentType)]
       = "/" +:+ JsString.join "/" segs +:+ "/"
         +:+ createSafeFileName url (mapImageExtension contentType).
Proof.
  destruct (createSafeFileName_safe url contentType) as [Hsafe Hlen].
  set (name := createSafeFileName url (mapImageExtension contentType)) in *.
  assert (Hplain : plain_segment name).
  { repeat split; try (by apply safe_free);
      intros Heq; rewrite Heq in Hlen; simpl in Hlen; lia. }
  split; [|split; [exact Hplain|]].
  - unfold Storage.SAFE_FILENAME_REGEX. rewrite Hsafe, andb_true_r.
    apply negb_true_iff, eqb_false. apply Hplain.
  - intros segs Hsegs Hne. by apply join_absolute_child.
Qed.

Lemma call_fetch_spec W url timeoutMs st :
  exists st',
    call_fetch W url timeoutMs st
    = Some (match answer W (length (calls st)) with
            | Resolved _ => Ok (response W (length (calls st)))
            | Rejected e => Throw e
            end, st')
    /\ log_only (set_calls (fun l => l ++ [CallFetch url timeoutMs]) st) st'.
Proof.
  destruct (await_spec W (CallFetch url timeoutMs) st) as (st' & Hrun & Hlog).
  exists st'. split; [|exact Hlog].
  unfold call_fetch. unfold mbind, M_bind. rewrite Hrun.
  by destruct (answer W (length (calls st))).
Qed.

Lemma limitAndCount_within source breaks acc maxBytes total :
  limitAndCount source breaks acc maxBytes = (total, None) ->
  breaks = None
  /\ total = acc + Z.of_nat (length (concat source))
  /\ (total = acc \/ total <= maxBytes).
Proof.
  revert acc. induction source as [|chunk rest IH]; intros acc; simpl.
  - intros [= <- ->]. split; [done|]. split; lia.
  - destruct (Z.gtb_spec (acc + Z.of_nat (length chunk)) maxBytes) as [|Hle]; [done|].
    intros Hrest. apply IH in Hrest as (Hb & Ht & Hm). split; [exact Hb|].
    rewrite length_app. split; lia.
Qed.

(** X10.  A download that [downloadImageFromUrl] returns was permitted by the
    allowlist, has a media type that starts with [image/], counts the bytes
    of the body, more than zero and at most [maxBytes], and names the file
    it has written: [createSafeFileName] with the extension of the media
    type, in the destination directory; that file exists when the call
    returns. *)
Theorem downloadImageFromUrl_returns `{JsRuntime} (W : World) (url dir : string)
    (maxBytes timeoutMs : Z) (allowed : list string) (st st' : JobState)
    (download : Download) :
  downloadImageFromUrl W url dir maxBytes timeoutMs allowed st = Some (Ok download, st') ->
  assertAllowedDomain url allowed "uploadFromUrl.url" = Ok tt
  /\ startsWith (contentType download) "image/" = true
  /\ 0 < bytes download <= maxBytes
  /\ (exists body, r_body (response W (length (calls st))) = Some body
                   /\ bytes download = Z.of_nat (length (concat (chunks body))))
  /\ fileName download = createSafeFileName url (mapImageExtension (contentType download))
  /\ filePath download = Path.join [dir; fileName download]
  /\ files st' = {[filePath download]} ∪ files st
  /\ calls st' = calls st ++ [CallFetch url timeoutMs].
Proof.
  intros Hrun. unfold downloadImageFromUrl in Hrun.
  apply bind_inv in Hrun as [([] & s0 & Hallow & Hrun)|(e & _ & [=])].
  injection Hallow as Hallow <-.
  apply bind_inv in Hrun as [(fetched & s1 & Hfetch & Hrun)|(e & _ & [=])].
  apply try_catch_ok_inv in Hfetch as [Hfetch|(e & s & _ & Hhandler)].
  2: { by destruct (eqb (exn_name e) "AbortError"). }
  destruct (call_fetch_spec W url timeoutMs st) as (s1' & Hspec & Hlog).
  rewrite Hspec in Hfetch.
  destruct (answer W (length (calls st))) as [v|e]; [|done].
  injection Hfetch as <- <-.
  destruct Hlog as (Hcalls & Hfiles & _). simpl in Hcalls, Hfiles.
  set (fetched := response W (length (calls st))) in *.
  destruct (r_ok fetched); [|done]. simpl negb in Hrun. cbv iota zeta in Hrun.
  destruct (startsWith (response_content_type fetched) "image/") eqn:Himage; [|done].
  simpl negb in Hrun. cbv iota in Hrun.
  destruct (declares_too_large fetched maxBytes); [done|].
  destruct (r_body fetched) as [body|] eqn:Hbody; [|done].
  destruct (limitAndCount (chunks body) (breaks body) 0 maxBytes) as [total failure] eqn:Hcount.
  apply try_finally_ok_inv in Hrun as (s2 & Hmain & Hclean).
  destruct failure as [e|].
  { apply bind_inv in Hmain as [(u & s & Hthrown & _)|(e' & _ & [=])].
    unfold pipeline in Hthrown. unfold_M.
    by destruct (opened W (length (calls s1'))). }
  rewrite (bind_ok (pipeline W _ None) _ s1' tt _ eq_refl) in Hmain.
  destruct (Z.eqb_spec total 0) as [|Hpos]; [done|].
  injection Hmain as <- <-. injection Hclean as <-.
  apply limitAndCount_within in Hcount as (_ & Htotal & Hmax).
  simpl. rewrite Hfiles, Hcalls.
  repeat split; try done; try lia.
  exists body. split; [reflexivity | lia].
Qed.

Lemma downloadImageFromUrl_returns_witness :
  assertAllowedDomain (H := RefRuntime.runtime)
    "https://example.com/a/pic.png" [] "uploadFromUrl.url" = Ok tt
  /\ startsWith "image/png" "image/" = true
  /\ 0 < 6 <= 10.
Proof.
  destruct (downloadImageFromUrl_returns (H := RefRuntime.runtime) Example.world
              "https://example.com/a/pic.png" "/tmp/pw/job" 10 30000 [] Example.idle
              (set_files (fun fs => {["/tmp/pw/job/pic.png"]} ∪ fs)
                 (set_calls (fun l => l ++ [CallFetch "https://example.com/a/pic.png" 30000])
                    Example.idle))
              {| filePath := "/tmp/pw/job/pic.png"; fileName := "pic.png";
                 contentType := "image/png"; bytes := 6 |})
    as (Hallow & Himage & Hbytes & _).
  - vm_compute. reflexivity.
  - exact (conj Hallow (conj Himage Hbytes)).
Defined.

Lemma limitAndCount_empty source maxBytes :
  0 <= maxBytes -> concat source = [] ->
  limitAndCount source None 0 maxBytes = (0, None).
Proof.
  intros Hmax. induction source as [|chunk rest IH]; [reflexivity|].
  intros Hempty. apply app_eq_nil in Hempty as [-> Hrest].
  change (limitAndCount ([] :: rest) None 0 maxBytes)
    with (if 0 >? maxBytes then (0, Some (http 400 (MDownloadTooLarge maxBytes)))
          else limitAndCount rest None 0 maxBytes).
  destruct (Z.gtb_spec 0 maxBytes); [lia | by apply IH].
Qed.

(** X11.  When the body of the response holds no byte at all, the download
    fails with the status-400 error of the empty file, and the file it had
    created is gone again once the removal has succeeded: an empty download
    leaves nothing behind, unlike an oversize one. *)
Theorem downloadImageFromUrl_empty `{JsRuntime} (W : World) (url dir : string)
    (maxBytes timeoutMs : Z) (allowed : list string) (st : JobState)
    (fetched : Response) (body : Body) (v v' : JsValue) :
  assertAllowedDomain url allowed "uploadFromUrl.url" = Ok tt ->
  answer W (length (calls st)) = Resolved v ->
  response W (length (calls st)) = fetched ->
  r_ok fetched = true ->
  startsWith (response_content_type fetched) "image/" = true ->
  declares_too_large fetched maxBytes = false ->
  r_body fetched = Some body ->
  0 <= maxBytes ->
  concat (chunks body) = [] -> breaks body = None ->
  answer W (S (length (calls st))) = Resolved v' ->
  exists st',
    downloadImageFromUrl W url dir maxBytes timeoutMs allowed st
    = Some (Throw (http 400 MDownloadEmpty), st')
    /\ (Path.join [dir; createSafeFileName url
                          (mapImageExtension (response_content_type fetched))]
        ∉ files st')
    /\ (files st' ⊆ files st).
Proof.
  intros Hallow Hanswer Hresp Hok Himage Hdeclared Hbody Hmax Hempty Hbreaks Hrm.
  set (path := Path.join [dir; createSafeFileName url
                                 (mapImageExtension (response_content_type fetched))]).
  destruct (call_fetch_spec W url timeoutMs st) as (s1 & Hfetch & Hlog1).
  rewrite Hanswer, Hresp in Hfetch.
  destruct Hlog1 as (Hcalls1 & Hfiles1 & _). simpl in Hcalls1, Hfiles1.
  destruct (call_spec W (CallRm path) (set_files (fun fs => {[path]} ∪ fs) s1))
    as (s2 & Hcall & Hlog2).
  assert (Hindex : length (calls (set_files (fun fs => {[path]} ∪ fs) s1))
                   = S (length (calls st))).
  { simpl. rewrite Hcalls1, length_app. simpl. lia. }
  rewrite Hindex, Hrm in Hcall.
  destruct Hlog2 as (_ & Hfiles2 & _). simpl in Hfiles2.
  exists (set_files (fun fs => fs ∖ {[path]}) s2). split; [|split].
  - unfold downloadImageFromUrl.
    rewrite (bind_ok (lift _) _ st tt st) by (unfold lift; by rewrite Hallow).
    assert (Htry : try_catch (call_fetch W url timeoutMs)
                     (fun error => if eqb (exn_name error) "AbortError"
                                   then throw (http 400 (MDownloadTimeout timeoutMs))
                                   else throw (http 400 MDownloadNetwork)) st
                   = Some (Ok fetched, s1)).
    { unfold try_catch. by rewrite Hfetch. }
    rewrite (bind_ok _ _ _ _ _ Htry).
    rewrite Hok. cbv zeta. rewrite Himage, Hdeclared, Hbody.
    change (negb true) with false. cbv iota.
    rewrite Hbreaks, limitAndCount_empty by done.
    unfold try_finally.
    rewrite (bind_ok (pipeline W _ None) _ s1 tt _ eq_refl).
    change (0 =? 0) with true. cbv iota. unfold throw at 1.
    unfold or_else, try_catch.
    rewrite (bind_ok _ _ _ _ _ Hcall). reflexivity.
  - simpl. rewrite elem_of_difference, elem_of_singleton. tauto.
  - simpl. intros x.
    rewrite elem_of_difference, Hfiles2, elem_of_union, elem_of_singleton, Hfiles1. tauto.
Qed.

Lemma downloadImageFromUrl_empty_witness :
  exists st',
    downloadImageFromUrl (H := RefRuntime.runtime) Example.world_of_empty_image
      "https://example.com/a/pic.png" "/tmp/pw/job" 10 30000 [] Example.idle
    = Some (Throw (http 400 MDownloadEmpty), st')
    /\ ("/tmp/pw/job/pic.png" ∉ files st').
Proof.
  destruct (downloadImageFromUrl_empty (H := RefRuntime.runtime)
              Example.world_of_empty_image
              "https://example.com/a/pic.png" "/tmp/pw/job" 10 30000 [] Example.idle
              Example.empty_image {| chunks := [[]; []]; breaks := None |}
              JUndefined JUndefined
              ltac:(reflexivity) ltac:(reflexivity) ltac:(reflexivity) ltac:(reflexivity)
              ltac:(reflexivity) ltac:(reflexivity) ltac:(reflexivity) ltac:(lia)
              ltac:(reflexivity) ltac:(reflexivity) ltac:(reflexivity))
    as (st' & Hrun & Hgone & _).
  exists st'. split; [exact Hrun | exact Hgone].
Defined.

(** X12.  A URL that the allowlist does not permit is never fetched:
    [downloadImageFromUrl] fails with the error of [assertAllowedDomain] and
    leaves the state as it was, without a call and without a file. *)
Theorem downloadImageFromUrl_blocked `{JsRuntime} (W : World) (url dir : string)
    (maxBytes timeoutMs : Z) (allowed : list string) (st : JobState) (error : Exn) :
  assertAllowedDomain url allowed "uploadFromUrl.url" = Throw error ->
  downloadImageFromUrl W url dir maxBytes timeoutMs allowed st = Some (Throw error, st).
Proof.
  intros Hblocked. unfold downloadImageFromUrl.
  apply bind_throw. unfold lift. by rewrite Hblocked.
Qed.

Lemma downloadImageFromUrl_blocked_witness :
  downloadImageFromUrl (H := RefRuntime.runtime) Example.world
    "https://evil.net/pic.png" "/tmp/pw/job" 10 30000 ["example.com"] Example.idle
  = Some (Throw (http 400 (MDomainBlocked "uploadFromUrl.url" ["example.com"])), Example.idle).
Proof.
  apply (downloadImageFromUrl_blocked (H := RefRuntime.runtime)).
  vm_compute. reflexivity.
Defined.

(** ** Errors of a job *)

(** X13.  [normalizeActionError] always yields a [PlaywrightHttpError] whose
    status is the one [resolveStatusCode] gives the error it was made from:
    a [PlaywrightHttpError] is passed on as it is; any other error becomes
    status 504 when it is a timeout ([isPlaywrightTimeoutError]) and status
    500 otherwise, with the step (counted from 1), the action and the
    message of the error as details. *)
Theorem normalizeActionError_status (error : Exn) (action : PlaywrightAction) (index : nat) :
  exists e,
    normalizeActionError error action index = HttpErr e
    /\ statusCode e = resolveStatusCode error
    /\ resolveStatusCode (normalizeActionError error action index) = resolveStatusCode error
    /\ (forall h, error = HttpErr h -> e = h)
    /\ (forall name msg,
          error = JsErr name msg ->
          statusCode e = (if isPlaywrightTimeoutError error then 504 else 500)
          /\ details e = Some {| d_step := index + 1; d_action := action_name action;
                                 d_reason := msg |}).
Proof.
  destruct error as [h|name msg].
  - exists h. split; [reflexivity|]. split; [reflexivity|]. split; [reflexivity|].
    split; [by intros ? [= <-] | by intros ? ? [=]].
  - unfold normalizeActionError, resolveStatusCode.
    destruct (isPlaywrightTimeoutError (JsErr name msg)); eexists;
      (split; [reflexivity|]); (split; [reflexivity|]); (split; [reflexivity|]);
      (split; [by intros ? [=] | by intros ? ? [= <- <-]]).
Qed.

Section Throws.
Context (P : Exn -> Prop).

Lemma throws_ret {A} (a : A) : throws P (mret a).
Proof. by intros st e st'. Qed.

Lemma throws_throw {A} (e : Exn) : P e -> throws P (throw (A := A) e).
Proof. by intros He st e' st' [= <- _]. Qed.

Lemma throws_lift {A} (r : Result A) : (forall e, r = Throw e -> P e) -> throws P (lift r).
Proof. intros Hr st e st' [= -> _]. by apply Hr. Qed.

Lemma throws_get_state : throws P get_state.
Proof. by intros st e st'. Qed.

Lemma throws_modify f : throws P (modify f).
Proof. by intros st e st'. Qed.

Lemma throws_diverge {A} : throws P (diverge (A := A)).
Proof. by intros st e st'. Qed.

Lemma throws_bind {A B} (m : M A) (k : A -> M B) :
  throws P m -> (forall a, throws P (k a)) -> throws P (m ≫= k).
Proof.
  intros Hm Hk st e st' Hrun.
  apply bind_inv in Hrun as [(a & s1 & _ & Hrun)|(e' & Hrun & [= ->])].
  - by apply (Hk a s1 e st').
  - by apply (Hm st e' st').
Qed.

Lemma throws_bind_with {A B} (Q : A -> Prop) (m : M A) (k : A -> M B) :
  returns_with Q m -> throws P m -> (forall a, Q a -> throws P (k a)) -> throws P (m ≫= k).
Proof.
  intros HQ Hm Hk st e st' Hrun.
  apply bind_inv in Hrun as [(a & s1 & Ha & Hrun)|(e' & Hrun & [= ->])].
  - exact (Hk a (HQ _ _ _ Ha) s1 e st' Hrun).
  - by apply (Hm st e' st').
Qed.

Lemma throws_try_catch {A} (m : M A) (handler : Exn -> M A) :
  (forall e, throws P (handler e)) -> throws P (try_catch m handler).
Proof.
  intros Hh st e st'. unfold try_catch.
  destruct (m st) as [[[a|e'] s1]|]; [done | apply Hh | done].
Qed.

Lemma throws_try_finally {A} (m : M A) (cleanup : M unit) :
  throws P m -> throws P cleanup -> throws P (try_finally m cleanup).
Proof.
  intros Hm Hc st e st'. unfold try_finally.
  destruct (m st) as [[r s1]|] eqn:Em; [|done].
  destruct (cleanup s1) as [[[[]|e'] s2]|] eqn:Ec; [| |done].
  - intros [= -> <-]. by apply (Hm st e s1).
  - intros [= <- <-]. by apply (Hc s1 e' s2).
Qed.

Lemma throws_or_else {A} (m : M A) (fallback : A) : throws P (or_else m fallback).
Proof. apply throws_try_catch. intros e. apply throws_ret. Qed.

Lemma throws_Date_now W : throws P (Date_now W).
Proof. by intros st e st'. Qed.

Lemma throws_appendLog W msg : throws P (appendLog W msg).
Proof. by intros st e st'. Qed.

Lemma throws_fileExists p : throws P (fileExists p).
Proof. by intros st e st'. Qed.

Lemma throws_await W c : throws P (await W c).
Proof.
  intros st e st' Hrun. destruct (await_spec W c st) as (s1 & Hspec & _).
  rewrite Hspec in Hrun. discriminate.
Qed.
End Throws.

Lemma throws_try_catch_with {A} (P Q : Exn -> Prop) (m : M A) (handler : Exn -> M A) :
  throws Q m -> (forall e, Q e -> throws P (handler e)) -> throws P (try_catch m handler).
Proof.
  intros Hm Hh st e st'. unfold try_catch.
  destruct (m st) as [[[a|e'] s1]|] eqn:Em; [done | | done].
  apply Hh. by apply (Hm st e' s1).
Qed.

Lemma throws_weaken {A} (P Q : Exn -> Prop) (m : M A) :
  (forall e, P e -> Q e) -> throws P m -> throws Q m.
Proof. intros HPQ Hm st e st' Hrun. by apply HPQ, (Hm st e st'). Qed.

Lemma has_job_status_400 m : has_job_status (http 400 m).
Proof. by left. Qed.

Lemma has_job_status_408 m : has_job_status (http 408 m).
Proof. right. by left. Qed.

Lemma has_job_status_foreign name msg : has_job_status (JsErr name msg).
Proof.
  unfold has_job_status, job_status, resolveStatusCode.
  destruct (isPlaywrightTimeoutError _); tauto.
Qed.

Lemma resolveStatusCode_normalizeActionError error action index :
  resolveStatusCode (normalizeActionError error action index) = resolveStatusCode error.
Proof.
  destruct error as [h|name msg]; [reflexivity|].
  unfold normalizeActionError, resolveStatusCode.
  by destruct (isPlaywrightTimeoutError (JsErr name msg)).
Qed.

Lemma fails_validateJobId value : fails_with_400 (Storage.validateJobId value).
Proof. unfold Storage.validateJobId. destruct (negb _); [by eexists | exact I]. Qed.

Lemma fails_resolveInsideRoot `{JsRuntime} root target label :
  fails_with_400 (Storage.resolveInsideRoot root target label).
Proof.
  unfold Storage.resolveInsideRoot. cbv zeta. destruct (eqb _ _); [exact I|].
  destruct (negb _); [by eexists | exact I].
Qed.

Lemma fails_validateSessionName value field : fails_with_400 (validateSessionName value field).
Proof. unfold validateSessionName. repeat fails_step. Qed.

Lemma fails_getSessionStatePath `{JsRuntime} storageDir session :
  fails_with_400 (Storage.getSessionStatePath storageDir session).
Proof.
  unfold Storage.getSessionStatePath.
  apply fails_bind; [apply fails_validateSessionName|]. intros s.
  apply fails_resolveInsideRoot.
Qed.

Lemma fails_sanitizeArtifactFilename name :
  fails_with_400 (Storage.sanitizeArtifactFilename name).
Proof.
  unfold Storage.sanitizeArtifactFilename. cbv zeta.
  destruct (eqb (trim name) EmptyString); [by eexists|].
  destruct (negb _); [by eexists | exact I].
Qed.

Lemma fails_assertAllowedDomain `{JsRuntime} url allowed field :
  fails_with_400 (assertAllowedDomain url allowed field).
Proof. unfold assertAllowedDomain. repeat fails_step. Qed.

Section JobStatus.
Context `{JsRuntime} (W : World) (Hforeign : foreign_failures W).

Lemma js_lift {A} (r : Result A) : fails_with_400 r -> throws has_job_status (lift r).
Proof.
  intros Hr. apply throws_lift. intros e ->. destruct Hr as [m ->].
  apply has_job_status_400.
Qed.

Lemma js_call c : throws has_job_status (call W c).
Proof.
  intros st e st' Hrun. destruct (call_spec W c st) as (s1 & Hspec & _).
  rewrite Hspec in Hrun.
  destruct (answer W (length (calls st))) as [v|e'] eqn:Ha; [done|].
  injection Hrun as <- _.
  destruct (proj1 Hforeign _ _ Ha) as (name & msg & ->). apply has_job_status_foreign.
Qed.

Lemma js_call_fetch url timeoutMs : throws has_job_status (call_fetch W url timeoutMs).
Proof.
  intros st e st' Hrun. destruct (call_fetch_spec W url timeoutMs st) as (s1 & Hspec & _).
  rewrite Hspec in Hrun.
  destruct (answer W (length (calls st))) as [v|e'] eqn:Ha; [done|].
  injection Hrun as <- _.
  destruct (proj1 Hforeign _ _ Ha) as (name & msg & ->). apply has_job_status_foreign.
Qed.

Lemma js_ensureTimeRemaining d name : throws has_job_status (ensureTimeRemaining W d name).
Proof.
  unfold ensureTimeRemaining. apply throws_bind; [apply throws_Date_now|]. intros now.
  cbv zeta. destruct (_ <=? 0); [|apply throws_ret].
  apply throws_throw, has_job_status_408.
Qed.

Lemma js_resolveStepTimeout d r : throws has_job_status (resolveStepTimeout W d r).
Proof.
  unfold resolveStepTimeout. apply throws_bind; [apply throws_Date_now|]. intros now.
  cbv zeta. destruct (_ <=? 0); [apply throws_throw, has_job_status_408|].
  destruct r; apply throws_ret.
Qed.

Lemma call_fetch_value url timeoutMs :
  returns_with (fun fetched => exists n, fetched = response W n) (call_fetch W url timeoutMs).
Proof.
  intros st fetched st' Hrun.
  destruct (call_fetch_spec W url timeoutMs st) as (s1 & Hspec & _).
  rewrite Hspec in Hrun. destruct (answer W (length (calls st))); [|done].
  injection Hrun as <- _. by eexists.
Qed.

Lemma limitAndCount_failure source breaks acc maxBytes total e :
  limitAndCount source breaks acc maxBytes = (total, Some e) ->
  breaks = Some e \/ e = http 400 (MDownloadTooLarge maxBytes).
Proof.
  revert acc. induction source as [|chunk rest IH]; intros acc; simpl.
  - intros [= _ ->]. by left.
  - destruct (_ >? _); [intros [= _ <-]; by right | apply IH].
Qed.
End JobStatus.

(** One step of a proof that a computation of the job fails with the status
    codes of a job only. *)
Ltac js_step W Hforeign :=
  first
    [ apply throws_ret | apply throws_get_state | apply throws_modify
    | apply throws_diverge | apply throws_Date_now | apply throws_appendLog
    | apply throws_fileExists | apply throws_or_else
    | apply (js_call W Hforeign) | apply (js_call_fetch W Hforeign)
    | apply js_ensureTimeRemaining | apply js_resolveStepTimeout
    | apply throws_throw; first [apply has_job_status_400 | apply has_job_status_408]
    | apply js_lift;
      first [ apply fails_validateJobId | apply fails_resolveInsideRoot
            | apply fails_getSessionStatePath | apply fails_sanitizeArtifactFilename
            | apply fails_assertAllowedDomain ]
    | apply throws_bind; [|intros]
    | apply throws_try_catch; intros
    | match goal with
      | |- throws _ (if ?c then _ else _) => destruct c
      | |- throws _ (match ?x with _ => _ end) => destruct x
      end ].

Section JobStatusOfJob.
Context `{JsRuntime} (W : World) (Hforeign : foreign_failures W).

Lemma js_downloadImageFromUrl url dir maxBytes timeoutMs allowed :
  throws has_job_status (downloadImageFromUrl W url dir maxBytes timeoutMs allowed).
Proof.
  unfold downloadImageFromUrl.
  apply throws_bind; [js_step W Hforeign|]. intros _.
  apply (throws_bind_with _ (fun fetched => exists n, fetched = response W n)).
  { intros st fetched st' Hrun.
    apply try_catch_ok_inv in Hrun as [Hrun|(e & s & _ & Hh)].
    - exact (call_fetch_value W url timeoutMs _ _ _ Hrun).
    - by destruct (eqb (exn_name e) "AbortError"). }
  { repeat js_step W Hforeign. }
  intros fetched [n ->].
  destruct (negb _); [js_step W Hforeign|]. cbv zeta.
  destruct (negb _); [js_step W Hforeign|].
  destruct (declares_too_large _ _); [js_step W Hforeign|].
  destruct (r_body (response W n)) as [body|] eqn:Hbody; [|js_step W Hforeign].
  destruct (limitAndCount _ _ _ _) as [total failure] eqn:Hcount.
  apply throws_try_finally; [|repeat js_step W Hforeign].
  apply throws_bind; [|intros _; repeat js_step W Hforeign].
  unfold pipeline. destruct failure as [e|]; [|repeat js_step W Hforeign].
  apply throws_bind; [apply throws_get_state|]. intros s.
  apply throws_bind; [repeat js_step W Hforeign|]. intros _.
  apply throws_throw.
  apply limitAndCount_failure in Hcount as [Hbreaks| ->]; [|apply has_job_status_400].
  destruct (proj2 Hforeign _ _ _ Hbody Hbreaks) as (name & msg & ->).
  apply has_job_status_foreign.
Qed.

Lemma js_resolveUniqueFileName_loop rounds dir base ext candidate counter :
  throws has_job_status (resolveUniqueFileName_loop rounds dir base ext candidate counter).
Proof.
  revert candidate counter. induction rounds as [|rounds IH]; intros candidate counter;
    simpl; [apply throws_diverge|].
  apply throws_bind; [apply throws_fileExists|].
  intros [|]; [apply IH | apply throws_ret].
Qed.

Lemma js_resolveUniqueFileName dir name :
  throws has_job_status (resolveUniqueFileName dir name).
Proof.
  unfold resolveUniqueFileName. cbv zeta.
  apply throws_bind; [apply throws_get_state|]. intros st.
  apply js_resolveUniqueFileName_loop.
Qed.

Lemma js_Js_String v : throws has_job_status (lift (Js_String v)).
Proof.
  apply throws_lift. intros e. unfold Js_String.
  destruct (Js.ToString v); [discriminate|]. intros [= <-].
  apply has_job_status_foreign.
Qed.

Lemma js_executeAction action jobId d config out tmp :
  throws has_job_status (executeAction W action jobId d config out tmp).
Proof.
  unfold executeAction, push_artifact, set_extracted, push_storage.
  apply throws_bind; [apply js_ensureTimeRemaining|]. intros _.
  destruct action; cbv zeta;
    repeat first [ apply js_downloadImageFromUrl | apply js_resolveUniqueFileName
                 | apply js_Js_String | js_step W Hforeign ].
Qed.

Lemma js_run_actions l i total jobId d config out tmp :
  throws has_job_status (run_actions W l i total jobId d config out tmp).
Proof.
  revert i. induction l as [|action l IH]; intros i; simpl run_actions; [apply throws_ret|].
  apply throws_bind; [apply throws_Date_now|]. intros t0.
  apply throws_bind; [apply throws_appendLog|]. intros _.
  apply throws_bind.
  { apply (throws_try_catch_with _ has_job_status); [apply js_executeAction|].
    intros e He. apply throws_throw.
    unfold has_job_status. by rewrite resolveStatusCode_normalizeActionError. }
  intros _.
  apply throws_bind; [apply throws_Date_now|]. intros t1.
  apply throws_bind; [apply throws_appendLog|]. intros _. apply IH.
Qed.
End JobStatusOfJob.

Section JobStatusOfRun.
Context `{JsRuntime} (W : World) (Hforeign : foreign_failures W).

Lemma js_start_job request config startedAt jobId :
  throws has_job_status (start_job W request config startedAt jobId).
Proof.
  unfold start_job, ensureJobDirectories, hasSessionState. cbv zeta.
  repeat js_step W Hforeign.
Qed.

Lemma cleanup_job_never_throws : throws (fun _ => False) (cleanup_job W).
Proof.
  unfold cleanup_job. apply throws_bind; [apply throws_get_state|]. intros st.
  repeat first
    [ apply throws_or_else | apply throws_ret | apply throws_bind; [|intros]
    | match goal with |- throws _ (if ?c then _ else _) => destruct c end ].
Qed.
End JobStatusOfRun.

(** ** The temporary directory of a job *)

#[local] Instance tmp_is_preorder tmp : PreOrder (tmp_is tmp).
Proof.
  split.
  - intros st. by left.
  - intros a b c [Hab|Hab] [Hbc|Hbc]; unfold tmp_is; [left; congruence | right; congruence..].
Qed.

Lemma preserves_bind_with {A B} (R : relation JobState) `{!PreOrder R} (Q : A -> Prop)
    (m : M A) (k : A -> M B) :
  returns_with Q m -> preserves R m -> (forall a, Q a -> preserves R (k a)) ->
  preserves R (m ≫= k).
Proof.
  intros HQ Hm Hk st r st'. unfold mbind, M_bind.
  destruct (m st) as [[[a|e] st1]|] eqn:Em; [| |done].
  - intros Hrun. etrans; [exact (Hm _ _ _ Em) | exact (Hk _ (HQ _ _ _ Em) _ _ _ Hrun)].
  - intros [= <- <-]. exact (Hm _ _ _ Em).
Qed.

Section TmpIs.
Context `{JsRuntime} (W : World) (tmp : string).

Lemma tm_Date_now : preserves (tmp_is tmp) (Date_now W).
Proof. apply (preserves_Date_now (tmp_is tmp)). intros st. by left. Qed.

Lemma tm_appendLog msg : preserves (tmp_is tmp) (appendLog W msg).
Proof.
  apply (preserves_appendLog (tmp_is tmp) (fun _ => True));
    first [done | intros; by left].
Qed.

Lemma tm_call c : preserves (tmp_is tmp) (call W c).
Proof.
  apply (preserves_call (tmp_is tmp) (fun _ => True)); first [done | intros; by left].
Qed.

Lemma tm_call_fetch url t : preserves (tmp_is tmp) (call_fetch W url t).
Proof.
  apply (preserves_call_fetch (tmp_is tmp) (fun _ => True));
    first [done | intros; by left].
Qed.

Lemma tm_fileExists f : preserves (tmp_is tmp) (fileExists f).
Proof. apply (preserves_fileExists (tmp_is tmp)). Qed.

Lemma tm_ensureTimeRemaining d name : preserves (tmp_is tmp) (ensureTimeRemaining W d name).
Proof. apply (preserves_ensureTimeRemaining (tmp_is tmp)). intros st. by left. Qed.

Lemma tm_resolveStepTimeout d r : preserves (tmp_is tmp) (resolveStepTimeout W d r).
Proof. apply (preserves_resolveStepTimeout (tmp_is tmp)). intros st. by left. Qed.
End TmpIs.

Ltac tm_step tmp :=
  first
    [ apply tm_Date_now | apply tm_call | apply tm_call_fetch | apply tm_fileExists
    | apply tm_ensureTimeRemaining | apply tm_resolveStepTimeout | apply tm_appendLog
    | apply (preserves_modify (tmp_is tmp)); intros; by left
    | frame_step (tmp_is tmp) ].

Section TmpIsJob.
Context `{JsRuntime} (W : World) (tmp : string).

Lemma tm_resolveUniqueFileName_loop rounds dir base ext candidate counter :
  preserves (tmp_is tmp) (resolveUniqueFileName_loop rounds dir base ext candidate counter).
Proof.
  revert candidate counter. induction rounds as [|rounds IH]; intros candidate counter;
    simpl; [apply (preserves_diverge (tmp_is tmp))|].
  apply (preserves_bind (tmp_is tmp)); [apply tm_fileExists|].
  intros [|]; [apply IH | apply (preserves_ret (tmp_is tmp))].
Qed.

Lemma tm_executeAction action jobId d config out jobTmpDir :
  preserves (tmp_is tmp) (executeAction W action jobId d config out jobTmpDir).
Proof.
  unfold executeAction, push_artifact, set_extracted, push_storage, downloadImageFromUrl,
    pipeline, resolveUniqueFileName.
  apply (preserves_bind (tmp_is tmp)); [apply tm_ensureTimeRemaining|]. intros _.
  destruct action; cbv zeta;
    repeat first [apply tm_resolveUniqueFileName_loop | tm_step tmp].
Qed.

Lemma tm_run_actions l i total jobId d config out jobTmpDir :
  preserves (tmp_is tmp) (run_actions W l i total jobId d config out jobTmpDir).
Proof.
  revert i. induction l as [|action l IH]; intros i; simpl run_actions.
  - apply (preserves_ret (tmp_is tmp)).
  - repeat first [apply IH | apply tm_executeAction | tm_step tmp].
Qed.
End TmpIsJob.

Section TmpOfRun.
Context `{JsRuntime} (W : World).

Lemma tm_start_job request config startedAt jobId :
  preserves (tmp_is (Path.resolve [tmpDir config; jobId]))
    (start_job W request config startedAt jobId).
Proof.
  set (tmp := Path.resolve [tmpDir config; jobId]).
  unfold start_job.
  apply (preserves_bind (tmp_is tmp)); [apply tm_appendLog|]. intros _.
  apply (preserves_bind_with (tmp_is tmp) _ _ _ (ensureJobDirectories_value W _ _ _)).
  { unfold ensureJobDirectories. repeat tm_step tmp. }
  intros dirs ->. cbv beta iota.
  apply (preserves_bind (tmp_is tmp)).
  { apply (preserves_modify (tmp_is tmp)). intros st. by right. }
  intros _. unfold hasSessionState. cbv zeta. repeat tm_step tmp.
Qed.

(** What the [finally] block does with the temporary directory. *)
Lemma cleanup_job_spec st :
  exists st',
    cleanup_job W st = Some (Ok tt, st')
    /\ tmpPathToCleanup st' = tmpPathToCleanup st
    /\ (tmpPathToCleanup st <> EmptyString ->
        exists before,
          calls st' = before ++ [CallRm (tmpPathToCleanup st)]
          /\ forall v, answer W (length before) = Resolved v ->
                       forall p, p ∈ files st' -> ~ inside (tmpPathToCleanup st) p).
Proof.
  unfold cleanup_job.
  rewrite (bind_ok get_state _ st st st eq_refl).
  assert (Hclose : forall c (b : bool) s,
            exists s', (if b then or_else (call W c;; mret tt) tt else mret tt) s
                       = Some (Ok tt, s')
                       /\ tmpPathToCleanup s' = tmpPathToCleanup s).
  { intros c b s. destruct b; [|by eexists].
    destruct (call_spec W c s) as (s' & Hcall & Hlog).
    exists s'. split; [|apply Hlog].
    unfold or_else, try_catch.
    destruct (answer W (length (calls s))).
    - by rewrite (bind_ok _ _ _ _ _ Hcall).
    - by rewrite (bind_throw _ _ _ _ _ Hcall). }
  destruct (Hclose CallCloseContext (context st) st) as (s1 & H1 & Ht1).
  rewrite (bind_ok _ _ _ _ _ H1).
  destruct (Hclose CallCloseBrowser (browser st) s1) as (s2 & H2 & Ht2).
  rewrite (bind_ok _ _ _ _ _ H2).
  destruct (eqb (tmpPathToCleanup st) EmptyString) eqn:Etmp.
  { exists s2. split; [reflexivity|]. split; [congruence|].
    intros Hne. by apply eqb_true in Etmp. }
  change (negb false) with true. cbv iota.
  destruct (call_spec W (CallRm (tmpPathToCleanup st)) s2) as (s3 & Hcall & Hlog).
  destruct Hlog as (Hcalls & Hfiles & _ & _ & _ & _ & Htmp). simpl in Hcalls, Hfiles, Htmp.
  unfold or_else, try_catch.
  destruct (answer W (length (calls s2))) as [v|e] eqn:Hanswer.
  - rewrite (bind_ok _ _ _ _ _ Hcall).
    eexists. split; [reflexivity|]. split; [simpl; congruence|].
    intros _. exists (calls s2). split; [exact Hcalls|].
    intros _ _ p Hp. simpl in Hp. apply elem_of_filter in Hp as [Hout _].
    intros [->|Hin]; apply Hout; [by left | by right].
  - rewrite (bind_throw _ _ _ _ _ Hcall).
    exists s3. split; [reflexivity|]. split; [congruence|].
    intros _. exists (calls s2). split; [exact Hcalls|].
    intros v Hv. congruence.
Qed.
End TmpOfRun.

(** X15.  However a job ends, its [finally] block removes the temporary
    directory of the job, once that directory has been created: the removal
    of [<tmpDir>/<jobId>] is the last call of the job, and when it succeeds
    no file in or below that directory is left, whether the steps had
    succeeded or not. *)
Theorem runPlaywrightJob_removes_tmp `{JsRuntime} (W : World)
    (request : PlaywrightRunRequest) (config : PlaywrightRunnerConfig)
    (st st' : JobState) (r : Result JobOutcome) :
  runPlaywrightJob W request config st = Some (r, st') ->
  tmpPathToCleanup st' <> EmptyString ->
  tmpPathToCleanup st' = Path.resolve [tmpDir config; randomUUID W]
  /\ exists before,
       calls st' = before ++ [CallRm (Path.resolve [tmpDir config; randomUUID W])]
       /\ forall v, answer W (length before) = Resolved v ->
                    forall p, p ∈ files st' ->
                              ~ inside (Path.resolve [tmpDir config; randomUUID W]) p.
Proof.
  intros Hrun Hset. unfold runPlaywrightJob in Hrun.
  rewrite (bind_ok _ _ _ _ _ (Date_now_eq W st)) in Hrun. cbv zeta in Hrun.
  rewrite (bind_ok (modify new_job) _ _ tt _ eq_refl) in Hrun.
  unfold try_finally in Hrun.
  match type of Hrun with
  | context [try_catch ?m ?h ?s] =>
      assert (Hmain : preserves (tmp_is (Path.resolve [tmpDir config; randomUUID W]))
                        (try_catch m h));
      [|destruct (try_catch m h s) as [[r1 s1]|] eqn:Htry; [|done]]
  end.
  - set (tmp := Path.resolve [tmpDir config; randomUUID W]).
    apply (preserves_try_catch (tmp_is tmp)).
    + apply (preserves_bind (tmp_is tmp)); [apply tm_start_job|].
      intros [[deadline out] jobTmpDir].
      apply (preserves_bind (tmp_is tmp)); [apply tm_run_actions|]. intros _.
      repeat tm_step tmp.
    + intros e. repeat tm_step tmp.
  - apply Hmain in Htry.
    destruct (cleanup_job_spec W s1) as (s2 & Hclean & Htmp & Hrm).
    rewrite Hclean in Hrun. injection Hrun as _ <-.
    assert (Hs1 : tmpPathToCleanup s1 = Path.resolve [tmpDir config; randomUUID W]).
    { destruct Htry as [Hsame|Hthere]; [|exact Hthere].
      rewrite Htmp, Hsame in Hset. done. }
    rewrite Htmp, Hs1 in *. split; [reflexivity|]. by apply Hrm.
Qed.

Lemma runPlaywrightJob_removes_tmp_witness :
  tmpPathToCleanup Example.two_shots_done
  = Path.resolve (H := RefRuntime.runtime) [tmpDir Example.config; randomUUID Example.world]
  /\ exists before,
       calls Example.two_shots_done
       = before ++ [CallRm (Path.resolve (H := RefRuntime.runtime)
                              [tmpDir Example.config; randomUUID Example.world])]
       /\ forall v, answer Example.world (length before) = Resolved v ->
                    forall p, p ∈ files Example.two_shots_done ->
                              ~ inside (Path.resolve (H := RefRuntime.runtime)
                                          [tmpDir Example.config; randomUUID Example.world]) p.
Proof.
  apply (runPlaywrightJob_removes_tmp (H := RefRuntime.runtime) Example.world
           (Example.request 5000 Example.two_shots) Example.config Example.idle
           Example.two_shots_done
           (Ok (Succeeded {| jobId := randomUUID Example.world; tookMs := 27 |}))).
  - vm_compute. reflexivity.
  - vm_compute. discriminate.
Defined.

(** ** The endpoints *)

Lemma parseActions_app_inv `{JsRuntime} l1 l2 index allowDomains l :
  parseActions (l1 ++ l2) index allowDomains = Ok l ->
  exists a1 a2,
    parseActions l1 index allowDomains = Ok a1
    /\ parseActions l2 (index + length l1) allowDomains = Ok a2
    /\ l = a1 ++ a2.
Proof.
  revert index l. induction l1 as [|raw l1 IH]; intros index l Hparse.
  - exists [], l. simpl. by rewrite Nat.add_0_r.
  - simpl in Hparse.
    apply bind_Ok_inv in Hparse as (a & Ha & Hparse).
    apply bind_Ok_inv in Hparse as (rest & Hrest & [= <-]).
    destruct (IH _ _ Hrest) as (a1 & a2 & H1 & H2 & ->).
    exists (a :: a1), a2. simpl. rewrite Ha, H1. simpl.
    split; [reflexivity|]. split; [|reflexivity].
    by rewrite Nat.add_succ_r.
Qed.

Lemma parseAction_saveStorage `{JsRuntime} session index allowDomains :
  SESSION_REGEX session = true ->
  parseAction (JObject [("action", JString "saveStorage"); ("session", JString session)])
    index allowDomains
  = Ok (SaveStorageAction session).
Proof.
  intros Hre.
  assert (Htrim : trim session = session).
  { apply trim_safe. unfold SESSION_REGEX in Hre. by apply andb_prop in Hre as [_ Hsafe]. }
  unfold parseAction. cbv zeta.
  rewrite (normalizeActionObject_canonical
             [("action", JString "saveStorage"); ("session", JString session)]
             _ "saveStorage" eq_refl).
  change (Ok ?x ≫= ?k) with (k x). cbv beta.
  change (Js_String (Js.get [("action", JString "saveStorage"); ("session", JString session)]
                       "action")) with (Ok "saveStorage" : Result string).
  change (Ok ?x ≫= ?k) with (k x). cbv beta.
  change (Js.get [("action", JString "saveStorage"); ("session", JString session)] "session")
    with (JString session).
  change (negb (has ACTION_NAMES "saveStorage")) with false. cbv iota.
  repeat match goal with
         | |- context [eqb "saveStorage" ?b] =>
             first [ change (eqb "saveStorage" b) with false
                   | change (eqb "saveStorage" b) with true ]; cbv iota
         end.
  change (assertOnlyAllowedKeys _ _ _) with (Ok tt : Result unit).
  change (Ok tt ≫= ?k) with (k tt). cbv beta.
  rewrite validateSessionName_ok; [|rewrite Htrim; exact Hre].
  rewrite Htrim. reflexivity.
Qed.

Lemma save_state_body_actions a b (l : list JsValue) :
  resolveActionsArray [("session", a); ("timeoutMs", b); ("actions", JArray l)] = Ok l.
Proof. reflexivity. Qed.

(** X16.  When [POST /playwright/save-state] runs a job, its body is an
    object without [storageState], and the request of the job is made from
    it as follows: the session is the validated [session] of the body, the
    time limit is the one [parseTimeoutMs] reads from the body, the browser
    options are unset, and the actions are the steps of the body ([actions],
    else [commands], else none) as [parseAction] reads them, in their order,
    followed by one [saveStorage] step for that session.  There are fewer
    steps of the body than [maxActions], since the added step counts. *)
Theorem save_state_ends_with_saveStorage `{JsRuntime} (body : JsValue) (options : Options)
    (request : PlaywrightRunRequest) :
  Server.save_state body options = inr (Server.SaveByJob request) ->
  exists payload name timeout steps,
    body = JObject payload
    /\ Js.get payload "storageState" = JUndefined
    /\ validateSessionName (Js.get payload "session") "session" = Ok name
    /\ parseTimeoutMs (Js.get payload "timeoutMs") (opt_defaultTimeoutMs options)
       = Ok timeout
    /\ parseActions (Server.save_state_actions payload) 0 (opt_allowDomains options)
       = Ok steps
    /\ Z.of_nat (length steps) < maxActions options
    /\ request
       = {| session := Some name; timeoutMs := timeout; proxy := None;
            blockResources := None; userAgent := None; viewport := None;
            actions := steps ++ [SaveStorageAction name] |}.
Proof.
  unfold Server.save_state. destruct body as [| | | | | |payload]; try discriminate.
  destruct (validateSessionName (Js.get payload "session") "session") as [name|e] eqn:Hname;
    [|discriminate].
  destruct (returns_Ok _ _ _ (validateSessionName_returns _ _) Hname) as [Hre Htrim].
  destruct (Js.get payload "storageState") eqn:Hstate; try discriminate.
  destruct (parseRunRequestBody _ options) as [parsed|e] eqn:Hparse; [|discriminate].
  intros [= ->].
  assert (Hne : eqb name EmptyString = false).
  { apply eqb_false. intros ->. discriminate Hre. }
  unfold parseRunRequestBody, Server.save_state_body in Hparse. cbv zeta in Hparse.
  change (requireObject (JObject ?fields) "body") with (Ok fields : Result _) in Hparse.
  change (Ok ?x ≫= ?k) with (k x) in Hparse. cbv beta in Hparse.
  change (Js.get _ "session") with (JString name) in Hparse.
  change (Js.get _ "timeoutMs") with (Js.get payload "timeoutMs") in Hparse.
  rewrite save_state_body_actions in Hparse.
  unfold parseOptionalSession in Hparse. simpl Js.is_blank in Hparse.
  rewrite Hne in Hparse. cbv iota in Hparse.
  rewrite (validateSessionName_ok name "session") in Hparse by (rewrite Htrim; exact Hre).
  rewrite Htrim in Hparse.
  apply bind_Ok_inv in Hparse as (session' & [= <-] & Hparse).
  apply bind_Ok_inv in Hparse as (timeout & Htimeout & Hparse).
  apply bind_Ok_inv in Hparse as (actionsRaw & [= <-] & Hparse).
  destruct (_ =? _)%nat; [discriminate|].
  destruct (Z.gtb_spec (Z.of_nat (length (Server.save_state_actions payload ++
              [JObject [("action", JString "saveStorage"); ("session", JString name)]])))
              (maxActions options)) as [|Hmax]; [discriminate|].
  apply bind_Ok_inv in Hparse as (l & Hactions & [= <-]).
  apply parseActions_app_inv in Hactions as (steps & final & Hsteps & Hfinal & ->).
  simpl in Hfinal. rewrite parseAction_saveStorage in Hfinal by done.
  injection Hfinal as <-.
  exists payload, name, timeout, steps.
  repeat split; try done.
  apply parseActions_length in Hsteps.
  rewrite length_app in Hmax. simpl in Hmax. lia.
Qed.

Lemma save_state_ends_with_saveStorage_witness :
  exists payload name timeout steps,
    JObject [("session", JString " x-main ");
             ("actions", JArray [JObject [("action", JString "goto");
                                          ("url", JString "https://x.com/home")]])]
    = JObject payload
    /\ Js.get payload "storageState" = JUndefined
    /\ validateSessionName (Js.get payload "session") "session" = Ok name
    /\ parseTimeoutMs (H := RefRuntime.runtime) (Js.get payload "timeoutMs")
         (opt_defaultTimeoutMs Example.options)
       = Ok timeout
    /\ parseActions (H := RefRuntime.runtime) (Server.save_state_actions payload) 0
         (opt_allowDomains Example.options)
       = Ok steps
    /\ Z.of_nat (length steps) < maxActions Example.options
    /\ Example.request_of_session "x-main" 60000
         [GotoAction "https://x.com/home" None; SaveStorageAction "x-main"]
       = {| session := Some name; timeoutMs := timeout; proxy := None;
            blockResources := None; userAgent := None; viewport := None;
            actions := steps ++ [SaveStorageAction name] |}.
Proof.
  apply (save_state_ends_with_saveStorage (H := RefRuntime.runtime)
           (JObject [("session", JString " x-main ");
                     ("actions", JArray [JObject [("action", JString "goto");
                                                  ("url", JString "https://x.com/home")]])])
           Example.options).
  vm_compute. reflexivity.
Defined.

(** X17.  In a process with an absolute working directory and an output
    directory that is not the root, [GET /playwright/artifacts/:jobId/:filename]
    sends a file only when the identifier matches the UUID pattern and the
    file name passes [validateArtifactFilename], both trimmed; the file sent
    is then [<output directory>/<jobId>/<filename>] and exists.  A request
    it refuses is refused with status 400, and a well-formed request for a
    file that does not exist is answered "not found". *)
Theorem get_artifact_spec `{JsRuntime} (outputDir jobId filename : string)
    (files : gset string) :
  Path.isAbsolute process_cwd = true ->
  Path.resolve [outputDir] <> "/" ->
  match Server.get_artifact outputDir jobId filename files with
  | Server.ArtifactSent path contentType =>
      Storage.UUID_REGEX (trim jobId) = true
      /\ Storage.validateArtifactFilename (trim filename) = Ok tt
      /\ path = Path.resolve [outputDir] +:+ "/" +:+ trim jobId +:+ "/" +:+ trim filename
      /\ path ∈ files
      /\ contentType = Server.resolveArtifactContentType (trim filename)
  | Server.ArtifactNotFound =>
      Storage.UUID_REGEX (trim jobId) = true
      /\ Storage.validateArtifactFilename (trim filename) = Ok tt
      /\ (Path.resolve [outputDir] +:+ "/" +:+ trim jobId +:+ "/" +:+ trim filename ∉ files)
  | Server.ArtifactRefused status _ =>
      status = 400
      /\ (Storage.UUID_REGEX (trim jobId) = false
          \/ Storage.validateArtifactFilename (trim filename) <> Ok tt)
  end.
Proof.
  intros Hcwd Hroot. unfold Server.get_artifact. cbv zeta.
  destruct (Storage.UUID_REGEX (trim jobId)) eqn:Hid.
  - destruct (Storage.validateArtifactFilename (trim filename)) as [[]|e] eqn:Hname.
    + destruct (resolveArtifactPath_shape outputDir _ _ Hcwd Hroot Hid Hname)
        as (dir & _ & -> & ->).
      destruct (bool_decide_reflect
                  (Path.resolve [outputDir] +:+ "/" +:+ trim jobId +:+ "/" +:+ trim filename
                   ∈ files)) as [Hin|Hout]; simpl; by repeat split.
    + unfold Storage.resolveArtifactPath, Storage.validateJobId. rewrite Hid, Hname. simpl.
      assert (H400 : fails_with_400 (Storage.validateArtifactFilename (trim filename))).
      { unfold Storage.validateArtifactFilename. repeat fails_step. }
      rewrite Hname in H400. destruct H400 as [m ->]. simpl. split; [reflexivity|].
      right. discriminate.
  - unfold Storage.resolveArtifactPath, Storage.validateJobId. rewrite Hid. simpl.
    split; [reflexivity | by left].
Qed.

Lemma get_artifact_spec_witness :
  match Server.get_artifact (H := RefRuntime.runtime) "outputs"
          "123e4567-e89b-42d3-a456-426614174000" "../secret.png" ∅ with
  | Server.ArtifactSent path contentType =>
      Storage.UUID_REGEX (trim "123e4567-e89b-42d3-a456-426614174000") = true
      /\ Storage.validateArtifactFilename (trim "../secret.png") = Ok tt
      /\ path = Path.resolve (H := RefRuntime.runtime) ["outputs"] +:+ "/"
                +:+ trim "123e4567-e89b-42d3-a456-426614174000" +:+ "/"
                +:+ trim "../secret.png"
      /\ path ∈ (∅ : gset string)
      /\ contentType = Server.resolveArtifactContentType (trim "../secret.png")
  | Server.ArtifactNotFound =>
      Storage.UUID_REGEX (trim "123e4567-e89b-42d3-a456-426614174000") = true
      /\ Storage.validateArtifactFilename (trim "../secret.png") = Ok tt
      /\ (Path.resolve (H := RefRuntime.runtime) ["outputs"] +:+ "/"
          +:+ trim "123e4567-e89b-42d3-a456-426614174000" +:+ "/" +:+ trim "../secret.png"
          ∉ (∅ : gset string))
  | Server.ArtifactRefused status _ =>
      status = 400
      /\ (Storage.UUID_REGEX (trim "123e4567-e89b-42d3-a456-426614174000") = false
          \/ Storage.validateArtifactFilename (trim "../secret.png") <> Ok tt)
  end.
Proof.
  apply (get_artifact_spec (H := RefRuntime.runtime) "outputs"
           "123e4567-e89b-42d3-a456-426614174000" "../secret.png" ∅).
  - reflexivity.
  - vm_compute. discriminate.
Defined.

(** ** Screenshots that can be fetched *)

Lemma is_dot_false c : c <> "."%char -> Path.is_dot c = false.
Proof.
  intros Hc. unfold Path.is_dot, code. apply N.eqb_neq. intros Heq. apply Hc.
  rewrite <- (ascii_N_embedding c), Heq. reflexivity.
Qed.

Lemma lower_char_dot c : lower_char c = "."%char -> c = "."%char.
Proof. destruct c as [[] [] [] [] [] [] [] []]; vm_compute; intros; congruence. Qed.

(** A string that reads [.png] in lower case: a dot and three other
    characters. *)
Lemma png_extension_shape e :
  toLowerCase e = ".png" ->
  exists x y z,
    e = String "." (String x (String y (String z EmptyString)))
    /\ x <> "."%char /\ y <> "."%char /\ z <> "."%char.
Proof.
  destruct e as [|d [|x [|y [|z [|w e]]]]]; try discriminate.
  cbn [toLowerCase]. intros [= Hd Hx Hy Hz].
  apply lower_char_dot in Hd. subst d. exists x, y, z.
  split; [reflexivity|].
  repeat split; intros ->; vm_compute in Hx, Hy, Hz; congruence.
Qed.

Lemma basename_plain f : free_of "/" f -> f <> EmptyString -> Path.basename f = f.
Proof.
  intros Hfree Hne. unfold Path.basename. rewrite split_free by done. simpl rev.
  by rewrite filter_cons_True.
Qed.

(** The extension of [b.xyz] is [.xyz]. *)
Lemma extname_append b e :
  free_of "/" (b +:+ e) -> b <> EmptyString -> toLowerCase e = ".png" ->
  Path.extname (b +:+ e) = e.
Proof.
  intros Hfree Hb He.
  destruct (png_extension_shape e He) as (x & y & z & -> & Hx & Hy & Hz).
  assert (Hne : b +:+ String "." (String x (String y (String z EmptyString))) <> EmptyString).
  { destruct b; [done | discriminate]. }
  unfold Path.extname. cbv zeta. rewrite basename_plain by done.
  rewrite to_list_append, rev_app_distr.
  change (rev (to_list (String "." (String x (String y (String z EmptyString))))))
    with [z; y; x; "."%char].
  change (of_list ([z; y; x; "."%char] ++ rev (to_list b)))
    with (String z (String y (String x (String "." (of_list (rev (to_list b))))))).
  cbn [take_while]. rewrite (is_dot_false z), (is_dot_false y), (is_dot_false x) by done.
  cbn [negb]. change (Path.is_dot ".") with true. cbn [negb].
  change (to_list (String z (String y (String x EmptyString)))) with [z; y; x].
  change (drop (length [z; y; x]) ([z; y; x; "."%char] ++ rev (to_list b)))
    with ("."%char :: rev (to_list b)).
  destruct (rev (to_list b)) as [|c r] eqn:Hrev.
  { apply (f_equal (@rev ascii)) in Hrev. rewrite rev_involutive in Hrev. simpl in Hrev.
    destruct b; [done | discriminate]. }
  assert (Hdots : eqb (b +:+ String "." (String x (String y (String z EmptyString)))) ".."
                  = false).
  { apply eqb_false. intros Heq. apply (f_equal String.length) in Heq.
    rewrite length_append in Heq. simpl in Heq. lia. }
  rewrite Hdots. reflexivity.
Qed.

Lemma drop_end_append b e : drop_end (String.length e) (b +:+ e) = b.
Proof.
  unfold drop_end. rewrite to_list_append, length_app, (length_to_list e).
  replace (length (to_list b) + String.length e - String.length e)%nat
    with (length (to_list b)) by lia.
  rewrite take_app_length. apply of_list_to_list.
Qed.

Lemma drop_while_suffix p s : exists pre, s = pre +:+ drop_while p s.
Proof.
  induction s as [|c s [pre IH]]; [by exists EmptyString|]. simpl.
  destruct (p c).
  - exists (String c pre). rewrite append_cons. by f_equal.
  - by exists EmptyString.
Qed.

(** Cutting characters off the end keeps the first character. *)
Lemma drop_while_end_head p s c r :
  drop_while_end p s = String c r -> exists r', s = String c r'.
Proof.
  unfold drop_while_end. intros Heq.
  destruct (drop_while_suffix p (of_list (rev (to_list s)))) as [pre Hpre].
  apply (f_equal to_list) in Heq. rewrite to_list_of_list in Heq.
  apply (f_equal to_list) in Hpre. rewrite to_list_of_list, to_list_append in Hpre.
  apply (f_equal (@rev ascii)) in Hpre. rewrite rev_involutive, rev_app_distr, Heq in Hpre.
  exists (of_list (to_list r ++ rev (to_list pre))).
  rewrite <- (of_list_to_list s), Hpre. reflexivity.
Qed.

Lemma prefix_inv (a t : string) : String.prefix a t = true -> exists r, t = a +:+ r.
Proof.
  revert t. induction a as [|x a IH]; intros t; [by exists t|].
  destruct t as [|y t]; [done|]. simpl.
  destruct (ascii_dec x y) as [->|]; [|done]. intros Hp.
  destruct (IH t Hp) as [r ->]. exists r. by rewrite append_cons.
Qed.

Lemma endsWith_inv (s p : string) : endsWith s p = true -> exists b, s = b +:+ p.
Proof.
  unfold endsWith. intros Hp. apply prefix_inv in Hp as [r Hr].
  apply (f_equal to_list) in Hr. rewrite to_list_of_list, to_list_append, to_list_of_list in Hr.
  apply (f_equal (@rev ascii)) in Hr. rewrite rev_involutive, rev_app_distr, rev_involutive in Hr.
  exists (of_list (rev (to_list r))).
  rewrite <- (of_list_to_list s), Hr, of_list_app, of_list_to_list. reflexivity.
Qed.

Lemma toLowerCase_append_inv s a c :
  toLowerCase s = a +:+ c ->
  exists s1 s2, s = s1 +:+ s2 /\ toLowerCase s1 = a /\ toLowerCase s2 = c.
Proof.
  revert s. induction a as [|x a IH]; intros s Hs.
  { by exists EmptyString, s. }
  rewrite append_cons in Hs. destruct s as [|d s]; [done|].
  cbn [toLowerCase] in Hs. injection Hs as Hd Hs.
  destruct (IH s Hs) as (s1 & s2 & -> & H1 & H2).
  exists (String d s1), s2. rewrite append_cons. cbn [toLowerCase]. by rewrite Hd, H1.
Qed.

(** Every name [sanitizeArtifactFilename] returns is a base name that is not
    empty followed by [.png] in some letter case, in the characters
    [[a-zA-Z0-9._-]]. *)
Lemma sanitizeArtifactFilename_shape name filename :
  Storage.sanitizeArtifactFilename name = Ok filename ->
  exists b e,
    filename = b +:+ e /\ b <> EmptyString /\ all is_safe_char (b +:+ e) = true
    /\ toLowerCase e = ".png".
Proof.
  unfold Storage.sanitizeArtifactFilename. cbv zeta.
  destruct (eqb (trim name) EmptyString); [discriminate|].
  set (stripped := drop_while is_sep_char _).
  set (collapsed := drop_while_end is_sep_char stripped).
  assert (Hcollapsed : all is_safe_char collapsed = true).
  { apply all_drop_while_end, all_drop_while.
    apply all_collapse_from; [reflexivity|].
    apply all_collapse_from; [reflexivity|].
    apply all_replace_each_safe. }
  assert (Hhead : forall c r, collapsed = String c r -> is_sep_char c = false).
  { intros c r Heq. apply drop_while_end_head in Heq as [r' Heq].
    exact (drop_while_head _ _ _ _ Heq). }
  set (base := if eqb collapsed EmptyString then "screenshot" else collapsed).
  assert (Hbase : base <> EmptyString /\ all is_safe_char base = true
                  /\ forall c r, base = String c r -> is_sep_char c = false).
  { unfold base. destruct (eqb collapsed EmptyString) eqn:E.
    - split; [discriminate|]. split; [reflexivity|]. intros c r [= <- _]. reflexivity.
    - split; [by apply eqb_false|]. split; [exact Hcollapsed | exact Hhead]. }
  clearbody base. clear Hcollapsed Hhead. clearbody collapsed. clear stripped.
  destruct Hbase as (Hne & Hsafe & Hhead).
  destruct (endsWith (toLowerCase base) ".png") eqn:Hpng.
  - destruct (negb _); [discriminate|]. intros [= <-].
    apply endsWith_inv in Hpng as [b' Hb'].
    apply toLowerCase_append_inv in Hb' as (b & e & -> & _ & He).
    exists b, e. split; [reflexivity|]. split; [|split; [exact Hsafe | exact He]].
    intros ->. destruct (png_extension_shape e He) as (x & y & z & -> & _).
    specialize (Hhead _ _ eq_refl). vm_compute in Hhead. discriminate.
  - destruct (negb _); [discriminate|]. intros [= <-].
    exists base, ".png". split; [reflexivity|]. split; [exact Hne|].
    split; [|reflexivity]. by rewrite all_append, Hsafe.
Qed.

Lemma pretty_N_char_safe x : is_safe_char (pretty_N_char x) = true.
Proof. unfold pretty_N_char. repeat case_match; reflexivity. Qed.

Lemma pretty_N_go_safe x s :
  all is_safe_char s = true -> all is_safe_char (pretty_N_go x s) = true.
Proof.
  revert s. induction (N.lt_wf_0 x) as [x _ IH]. intros s Hs.
  destruct (decide (x = 0%N)) as [->|Hx]; [by rewrite pretty_N_go_0|].
  rewrite pretty_N_go_step by lia. apply IH.
  - apply N.div_lt; lia.
  - unfold all in *. simpl. by rewrite pretty_N_char_safe, Hs.
Qed.

Lemma pretty_nat_safe (k : nat) : all is_safe_char (pretty k) = true.
Proof.
  unfold pretty, pretty_nat, pretty, pretty_N.
  destruct (decide _); [reflexivity|]. by apply pretty_N_go_safe.
Qed.

Lemma hex_safe c : Storage.is_hex c = true -> is_safe_char c = true.
Proof. destruct c as [[] [] [] [] [] [] [] []]; vm_compute; intros; congruence. Qed.

Lemma all_impl (p q : ascii -> bool) s :
  (forall c, p c = true -> q c = true) -> all p s = true -> all q s = true.
Proof.
  intros Hpq. rewrite !all_Forall. intros Hp. eapply Forall_impl; [exact Hp | exact Hpq].
Qed.

(** An identifier that matches the UUID pattern is in the characters
    [[a-zA-Z0-9._-]]; trimming leaves it as it is. *)
Lemma uuid_safe jobId : Storage.UUID_REGEX jobId = true -> all is_safe_char jobId = true.
Proof.
  unfold Storage.UUID_REGEX. pose proof (join_split "-" jobId) as Hjoin.
  destruct (split "-" jobId) as [|g1 [|g2 [|g3 [|g4 [|g5 [|g6 rest]]]]]]; try discriminate.
  intros Hre.
  repeat match type of Hre with
         | (_ && _ = true) => let H := fresh "Hg" in apply andb_prop in Hre as [Hre H]
         end.
  rewrite <- Hjoin, !join_cons2, !all_append.
  repeat (apply andb_true_intro; split); try reflexivity; by apply (all_impl _ _ _ hex_safe).
Qed.

(** The name the loop of [resolveUniqueFileName] returns is the candidate or
    a numbered one, and no file of that name is in the directory. *)
Lemma resolveUniqueFileName_loop_shape rounds dir base ext candidate counter st f st' :
  resolveUniqueFileName_loop rounds dir base ext candidate counter st = Some (Ok f, st') ->
  (f = candidate \/ exists j : nat, f = base +:+ "-" +:+ pretty j +:+ ext)
  /\ Path.join [dir; f] ∉ files st.
Proof.
  revert candidate counter. induction rounds as [|rounds IH]; intros candidate counter; [done|].
  rewrite resolveUniqueFileName_loop_unfold.
  rewrite (bind_ok _ _ _ _ _ (fileExists_eq _ _)).
  destruct (bool_decide_reflect (Path.join [dir; candidate] ∈ files st)) as [Hin|Hout].
  - intros Hrun. apply IH in Hrun as [[->|Hj] Hfree].
    + split; [right; by exists counter | exact Hfree].
    + split; [by right | exact Hfree].
  - intros [= <- _]. split; [by left | exact Hout].
Qed.

(** For a name [b.png], [resolveUniqueFileName] returns [b.png] or
    [b-<j>.png], a name that no file of the directory has, and leaves the
    state as it is. *)
Lemma resolveUniqueFileName_shape dir b e st f st' :
  b <> EmptyString -> all is_safe_char (b +:+ e) = true -> toLowerCase e = ".png" ->
  resolveUniqueFileName dir (b +:+ e) st = Some (Ok f, st') ->
  st' = st /\ (Path.join [dir; f] ∉ files st)
  /\ exists b', f = b' +:+ e /\ b' <> EmptyString /\ all is_safe_char (b' +:+ e) = true.
Proof.
  intros Hb Hsafe He. unfold resolveUniqueFileName. cbv zeta.
  rewrite (bind_ok get_state _ st st st eq_refl).
  rewrite (extname_append b e (safe_free _ Hsafe) Hb He).
  assert (Hext : eqb e EmptyString = false).
  { apply eqb_false. intros ->. discriminate He. }
  rewrite Hext, drop_end_append. intros Hrun.
  pose proof (resolveUniqueFileName_loop_state _ _ _ _ _ _ _ _ _ Hrun) as ->.
  apply resolveUniqueFileName_loop_shape in Hrun as [Hname Hfree].
  split; [reflexivity|]. split; [exact Hfree|].
  destruct Hname as [->|[j ->]].
  - by exists b.
  - exists (b +:+ "-" +:+ pretty j). rewrite !append_assoc. split; [reflexivity|].
    split; [destruct b; [done | discriminate]|].
    rewrite all_append in Hsafe. apply andb_prop in Hsafe as [Hsb Hse].
    by rewrite !all_append, Hsb, Hse, pretty_nat_safe.
Qed.

(** What a screenshot step that completes has done: the name came from
    [sanitizeArtifactFilename] and [resolveUniqueFileName], the file was
    written in the job's directory and the artifact was appended. *)
Lemma screenshot_inv `{JsRuntime} (W : World) jobId d config out tmp name fullPage st st' :
  executeAction W (ScreenshotAction name fullPage) jobId d config out tmp st
  = Some (Ok tt, st') ->
  exists s desired filename,
    Storage.sanitizeArtifactFilename name = Ok desired
    /\ files s = files st /\ outputs s = outputs st
    /\ resolveUniqueFileName out desired s = Some (Ok filename, s)
    /\ files st' = {[Path.join [out; filename]]} ∪ files st
    /\ artifacts (outputs st')
       = artifacts (outputs st)
         ++ [{| a_name := name; a_filename := filename;
                a_url := artifactsRoutePrefix config +:+ "/" +:+ jobId +:+ "/"
                         +:+ encodeURIComponent filename |}].
Proof.
  unfold executeAction. intros Hrun.
  apply bind_inv in Hrun as [(u & s1 & H1 & Hrun)|(e & _ & [=])].
  apply (un_ensureTimeRemaining W) in H1 as [Hf1 Ho1].
  destruct (Storage.sanitizeArtifactFilename name) as [desired|e] eqn:Hdesired.
  2: { rewrite (bind_throw (lift (Throw e)) _ s1 e s1 eq_refl) in Hrun. discriminate. }
  rewrite (bind_ok (lift (Ok desired)) _ s1 desired s1 eq_refl) in Hrun.
  apply bind_inv in Hrun as [(filename & s1' & Hname & Hrun)|(e & _ & [=])].
  assert (s1' = s1) as ->.
  { unfold resolveUniqueFileName in Hname. cbv zeta in Hname.
    rewrite (bind_ok get_state _ s1 s1 s1 eq_refl) in Hname.
    by apply resolveUniqueFileName_loop_state in Hname. }
  cbv zeta in Hrun.
  apply bind_inv in Hrun as [(t & s2 & H2 & Hrun)|(e & _ & [=])].
  apply (un_resolveStepTimeout W) in H2 as [Hf2 Ho2].
  apply bind_inv in Hrun as [(v & s3 & H3 & Hrun)|(e & _ & [=])].
  apply (un_call W) in H3 as [Hf3 Ho3].
  rewrite (bind_ok (modify _) _ s3 tt _ eq_refl) in Hrun.
  injection Hrun as <-.
  exists s1, desired, filename. simpl.
  rewrite Hf3, Hf2, Ho3, Ho2, Hf1, Ho1. by repeat split.
Qed.

Lemma resolveArtifactContentType_png b e :
  b <> EmptyString -> all is_safe_char (b +:+ e) = true -> toLowerCase e = ".png" ->
  Server.resolveArtifactContentType (b +:+ e) = Some "image/png".
Proof.
  intros Hb Hsafe He. unfold Server.resolveArtifactContentType. cbv zeta.
  by rewrite (extname_append b e (safe_free _ Hsafe) Hb He), He.
Qed.

Lemma validateArtifactFilename_png b e :
  b <> EmptyString -> all is_safe_char (b +:+ e) = true -> toLowerCase e = ".png" ->
  Storage.validateArtifactFilename (b +:+ e) = Ok tt.
Proof.
  intros Hb Hsafe He.
  assert (Hlen : (5 <= String.length (b +:+ e))%nat).
  { rewrite length_append, <- (length_toLowerCase e), He.
    destruct b; [done | simpl; lia]. }
  assert (Hne : forall s, (String.length s < 5)%nat -> eqb (b +:+ e) s = false).
  { intros s Hs. apply eqb_false. intros Heq. rewrite Heq in Hlen. lia. }
  unfold Storage.validateArtifactFilename, Storage.SAFE_FILENAME_REGEX.
  rewrite Hsafe, !Hne by (simpl; lia). reflexivity.
Qed.

(** X18.  A screenshot step that completes in the output directory of a job
    lists an artifact whose URL is [<artifactsRoutePrefix>/<jobId>/<filename>]
    with the file name as it is (no character of it is escaped); the file was
    not in the directory before, and the route
    [GET /playwright/artifacts/:jobId/:filename] then sends that very file,
    with content type [image/png]. *)
Theorem screenshot_artifact_is_served `{JsRuntime} (W : World) (jobId : string) (d : Z)
    (config : PlaywrightRunnerConfig) (out tmp name : string) (fullPage : option bool)
    (st st' : JobState) :
  Path.isAbsolute process_cwd = true ->
  Path.resolve [outputDir config] <> "/" ->
  Storage.UUID_REGEX jobId = true ->
  Storage.resolveInsideRoot (outputDir config) jobId "job output directory" = Ok out ->
  executeAction W (ScreenshotAction name fullPage) jobId d config out tmp st
  = Some (Ok tt, st') ->
  exists filename,
    artifacts (outputs st')
    = artifacts (outputs st)
      ++ [{| a_name := name; a_filename := filename;
             a_url := artifactsRoutePrefix config +:+ "/" +:+ jobId +:+ "/" +:+ filename |}]
    /\ (Path.join [out; filename] ∉ files st)
    /\ files st' = {[Path.join [out; filename]]} ∪ files st
    /\ Server.get_artifact (outputDir config) jobId filename (files st')
       = Server.ArtifactSent (Path.join [out; filename]) (Some "image/png").
Proof.
  intros Hcwd Hroot Hid Hout Hrun.
  apply screenshot_inv in Hrun
    as (s & desired & filename & Hdesired & Hf & Ho & Hname & Hfiles & Hart).
  apply sanitizeArtifactFilename_shape in Hdesired as (b & e & -> & Hb & Hsafe & He).
  apply (resolveUniqueFileName_shape out b e s filename s Hb Hsafe He) in Hname
    as (_ & Hfree & b' & -> & Hb' & Hsafe').
  exists (b' +:+ e). rewrite (encodeURIComponent_safe _ Hsafe') in Hart.
  split; [exact Hart|]. split; [by rewrite <- Hf|]. split; [exact Hfiles|].
  unfold Server.get_artifact. cbv zeta.
  rewrite (trim_safe _ (uuid_safe _ Hid)), (trim_safe _ Hsafe').
  destruct (resolveArtifactPath_shape (outputDir config) jobId (b' +:+ e) Hcwd Hroot Hid
              (validateArtifactFilename_png b' e Hb' Hsafe' He))
    as (dir & Hdir & -> & _).
  rewrite Hout in Hdir. injection Hdir as <-.
  rewrite bool_decide_eq_true_2.
  - simpl. by rewrite (resolveArtifactContentType_png b' e Hb' Hsafe' He).
  - rewrite Hfiles. apply elem_of_union_l, elem_of_singleton. reflexivity.
Qed.

Lemma screenshot_artifact_is_served_witness :
  exists filename,
    artifacts (outputs Example.after_shot)
    = artifacts (outputs Example.started)
      ++ [{| a_name := "My Shot.PNG"; a_filename := filename;
             a_url := artifactsRoutePrefix Example.config +:+ "/"
                      +:+ randomUUID Example.world +:+ "/" +:+ filename |}]
    /\ (Path.join [Example.job_out; filename] ∉ files Example.started)
    /\ files Example.after_shot
       = {[Path.join [Example.job_out; filename]]} ∪ files Example.started
    /\ Server.get_artifact (H := RefRuntime.runtime) (outputDir Example.config)
         (randomUUID Example.world) filename (files Example.after_shot)
       = Server.ArtifactSent (Path.join [Example.job_out; filename]) (Some "image/png").
Proof.
  apply (screenshot_artifact_is_served (H := RefRuntime.runtime) Example.world
           (randomUUID Example.world) 100000 Example.config Example.job_out Example.job_tmp
           "My Shot.PNG" None Example.started Example.after_shot).
  - vm_compute. reflexivity.
  - vm_compute. discriminate.
  - vm_compute. reflexivity.
  - vm_compute. reflexivity.
  - vm_compute. reflexivity.
Defined.

(** ** The bearer token *)

Lemma code_inj c d : code c = code d -> c = d.
Proof.
  unfold code. intros Heq. by rewrite <- (ascii_N_embedding c), <- (ascii_N_embedding d), Heq.
Qed.

(** The UTF-8 bytes of a string determine it. *)
Lemma utf8_inj a b : Server.utf8 a = Server.utf8 b -> a = b.
Proof.
  unfold Server.utf8. revert b. induction a as [|c a IH]; intros [|d b].
  - reflexivity.
  - simpl. unfold Server.utf8_char. destruct (code d <? 128)%N; discriminate.
  - simpl. unfold Server.utf8_char. destruct (code c <? 128)%N; discriminate.
  - change (to_list (String c a)) with (c :: to_list a).
    change (to_list (String d b)) with (d :: to_list b).
    cbn [flat_map]. unfold Server.utf8_char.
    destruct (N.ltb_spec (code c) 128) as [Hc|Hc], (N.ltb_spec (code d) 128) as [Hd|Hd];
      cbn [app]; intros Heq.
    + injection Heq as Hcd Hrest. f_equal; [by apply code_inj | by apply IH].
    + injection Heq as Hcd _. exfalso. pose proof (N.le_0_l (code d / 64)). lia.
    + injection Heq as Hcd _. exfalso. pose proof (N.le_0_l (code c / 64)). lia.
    + injection Heq as Hdiv Hmod Hrest. f_equal; [|by apply IH].
      apply N.add_cancel_l in Hdiv, Hmod. apply code_inj.
      rewrite (N.div_mod (code c) 64) by done. rewrite Hdiv, Hmod.
      symmetry. by apply N.div_mod.
Qed.

Lemma isTokenEqual_eq value expected :
  Server.isTokenEqual value expected = true <-> value = expected.
Proof.
  unfold Server.isTokenEqual. cbv zeta. split.
  - destruct (negb _); [discriminate|]. intros Heq.
    apply bool_decide_eq_true in Heq. by apply utf8_inj.
  - intros ->. rewrite Nat.eqb_refl. simpl. by apply bool_decide_eq_true.
Qed.

Lemma slice_from_append a b : Server.slice_from (String.length a) (a +:+ b) = b.
Proof.
  unfold Server.slice_from. rewrite to_list_append, <- length_to_list, drop_app_length.
  apply of_list_to_list.
Qed.

(** X19.  [requirePlaywrightAuth] lets a request through exactly when the
    configured token is not empty and the [Authorization] header, trimmed, is
    the word [bearer] in any letter case, one space, and the token itself,
    character for character, with white space around it at most; every other
    request is answered with status 401. *)
Theorem requirePlaywrightAuth_spec (authorization : option string) (PLAYWRIGHT_TOKEN : string) :
  Server.requirePlaywrightAuth authorization PLAYWRIGHT_TOKEN = true
  <-> PLAYWRIGHT_TOKEN <> EmptyString
      /\ exists header scheme rest,
           authorization = Some header /\ trim header = scheme +:+ rest
           /\ toLowerCase scheme = "bearer " /\ trim rest = PLAYWRIGHT_TOKEN.
Proof.
  unfold Server.requirePlaywrightAuth. cbv zeta. split.
  - destruct (startsWith _ _) eqn:Hstart; [|discriminate]. cbn [negb].
    apply prefix_inv in Hstart as [r Hr].
    apply toLowerCase_append_inv in Hr as (scheme & rest & Hheader & Hscheme & _).
    assert (Hlen : String.length scheme = 7%nat).
    { by rewrite <- (length_toLowerCase scheme), Hscheme. }
    rewrite Hheader, <- Hlen, slice_from_append.
    destruct (eqb (trim rest) EmptyString) eqn:Hempty; [discriminate|].
    destruct (Server.isTokenEqual _ _) eqn:Htoken; [|discriminate]. intros _.
    apply isTokenEqual_eq in Htoken. apply eqb_false in Hempty.
    split; [by rewrite <- Htoken|].
    destruct authorization as [header|].
    + unfold Js.or_default in Hheader. destruct (eqb header EmptyString) eqn:Hh.
      * apply (f_equal String.length) in Hheader. rewrite length_append, Hlen in Hheader.
        vm_compute in Hheader. lia.
      * by exists header, scheme, rest.
    + apply (f_equal String.length) in Hheader. rewrite length_append, Hlen in Hheader.
      vm_compute in Hheader. lia.
  - intros (Hne & header & scheme & rest & -> & Hheader & Hscheme & Htoken).
    assert (Hlen : String.length scheme = 7%nat).
    { by rewrite <- (length_toLowerCase scheme), Hscheme. }
    assert (Hdefault : Js.or_default (Some header) EmptyString = header).
    { unfold Js.or_default. destruct (eqb header EmptyString) eqn:Hh; [|reflexivity].
      by apply eqb_true in Hh. }
    rewrite Hdefault, Hheader. unfold startsWith.
    rewrite toLowerCase_append, Hscheme, prefix_append. cbn [negb].
    rewrite <- Hlen, slice_from_append, Htoken.
    rewrite (proj2 (eqb_false _ _) Hne), (proj2 (isTokenEqual_eq _ _) eq_refl). reflexivity.
Qed.

(** ** The files a job writes *)

#[local] Instance writes_only_preorder allowed : PreOrder (writes_only allowed).
Proof.
  split.
  - intros st p Hp. by left.
  - intros a b c Hab Hbc p Hp. destruct (Hbc p Hp) as [Hb|Hallowed]; [|by right].
    exact (Hab p Hb).
Qed.

Section WritesOnly.
Context `{JsRuntime} (W : World) (allowed : string -> Prop).

Lemma wr_same (f : JobState -> JobState) :
  (forall st, files (f st) = files st) -> preserves (writes_only allowed) (modify f).
Proof.
  intros Hf. apply (preserves_modify (writes_only allowed)). intros st p Hp.
  left. by rewrite <- (Hf st).
Qed.

Lemma wr_Date_now : preserves (writes_only allowed) (Date_now W).
Proof. apply (preserves_Date_now (writes_only allowed)). intros st p Hp. by left. Qed.

Lemma wr_appendLog msg : preserves (writes_only allowed) (appendLog W msg).
Proof.
  apply (preserves_appendLog (writes_only allowed) (fun _ => True));
    first [done | intros; intros p Hp; by left].
Qed.

Lemma wr_call c : preserves (writes_only allowed) (call W c).
Proof.
  apply (preserves_call (writes_only allowed) (fun _ => True));
    first [done | intros; intros p Hp; by left].
Qed.

Lemma wr_call_fetch url t : preserves (writes_only allowed) (call_fetch W url t).
Proof.
  apply (preserves_call_fetch (writes_only allowed) (fun _ => True));
    first [done | intros; intros p Hp; by left].
Qed.

Lemma wr_fileExists f : preserves (writes_only allowed) (fileExists f).
Proof. apply (preserves_fileExists (writes_only allowed)). Qed.

Lemma wr_ensureTimeRemaining d name :
  preserves (writes_only allowed) (ensureTimeRemaining W d name).
Proof.
  apply (preserves_ensureTimeRemaining (writes_only allowed)). intros st p Hp. by left.
Qed.

Lemma wr_resolveStepTimeout d r :
  preserves (writes_only allowed) (resolveStepTimeout W d r).
Proof.
  apply (preserves_resolveStepTimeout (writes_only allowed)). intros st p Hp. by left.
Qed.

(** Writing a file that is allowed, and removing files. *)
Lemma wr_add path :
  allowed path ->
  preserves (writes_only allowed) (modify (set_files (fun fs => {[path]} ∪ fs))).
Proof.
  intros Hpath. apply (preserves_modify (writes_only allowed)). intros st p Hp.
  cbn [files set_files] in Hp. apply elem_of_union in Hp as [Hp|Hp]; [|by left].
  apply elem_of_singleton in Hp. subst p. by right.
Qed.

Lemma wr_remove (f : gset string -> gset string) :
  (forall fs, f fs ⊆ fs) -> preserves (writes_only allowed) (modify (set_files f)).
Proof.
  intros Hf. apply (preserves_modify (writes_only allowed)). intros st p Hp.
  left. by apply (Hf (files st)).
Qed.
End WritesOnly.

Ltac wr_step allowed :=
  first
    [ apply wr_Date_now | apply wr_call | apply wr_call_fetch | apply wr_fileExists
    | apply wr_ensureTimeRemaining | apply wr_resolveStepTimeout | apply wr_appendLog
    | apply wr_same; intros; reflexivity
    | frame_step (writes_only allowed) ].

Section WritesOnlyJob.
Context `{JsRuntime} (W : World) (allowed : string -> Prop).

Lemma wr_resolveUniqueFileName_loop rounds dir base ext candidate counter :
  preserves (writes_only allowed)
    (resolveUniqueFileName_loop rounds dir base ext candidate counter).
Proof.
  revert candidate counter. induction rounds as [|rounds IH]; intros candidate counter;
    simpl; [apply (preserves_diverge (writes_only allowed))|].
  apply (preserves_bind (writes_only allowed)); [apply wr_fileExists|].
  intros [|]; [apply IH | apply (preserves_ret (writes_only allowed))].
Qed.

Lemma wr_resolveUniqueFileName dir name :
  preserves (writes_only allowed) (resolveUniqueFileName dir name).
Proof.
  unfold resolveUniqueFileName. cbv zeta.
  apply (preserves_bind (writes_only allowed)); [apply (preserves_get_state _)|].
  intros st. apply wr_resolveUniqueFileName_loop.
Qed.

(** A download writes the file [createSafeFileName] names, in the
    destination directory, and nothing else. *)
Lemma wr_downloadImageFromUrl url dir maxBytes timeoutMs allowDomains :
  (forall contentType,
     allowed (Path.join [dir; createSafeFileName url (mapImageExtension contentType)])) ->
  preserves (writes_only allowed)
    (downloadImageFromUrl W url dir maxBytes timeoutMs allowDomains).
Proof.
  intros Hallowed. unfold downloadImageFromUrl, pipeline. cbv zeta.
  repeat first [ apply wr_add; apply Hallowed
               | apply wr_remove; intros fs; apply subseteq_difference_l; reflexivity
               | wr_step allowed ].
Qed.

(** The name of a screenshot passes [validateArtifactFilename]. *)
Lemma resolveUniqueFileName_valid dir name desired :
  Storage.sanitizeArtifactFilename name = Ok desired ->
  returns_with (fun filename => Storage.validateArtifactFilename filename = Ok tt)
    (resolveUniqueFileName dir desired).
Proof.
  intros Hdesired st filename st' Hrun.
  apply sanitizeArtifactFilename_shape in Hdesired as (b & e & -> & Hb & Hsafe & He).
  apply (resolveUniqueFileName_shape dir b e st filename st' Hb Hsafe He) in Hrun
    as (_ & _ & b' & -> & Hb' & Hsafe').
  by apply validateArtifactFilename_png.
Qed.

Lemma wr_executeAction action jobId d config out tmp :
  (forall p, written_by config out tmp action p -> allowed p) ->
  preserves (writes_only allowed) (executeAction W action jobId d config out tmp).
Proof.
  intros Hallowed. unfold executeAction, push_artifact, set_extracted, push_storage.
  apply (preserves_bind (writes_only allowed)); [apply wr_ensureTimeRemaining|]. intros _.
  destruct action; cbv zeta.
  7: { apply (preserves_bind (writes_only allowed)); [apply wr_resolveStepTimeout|].
       intros stepTimeout.
       apply (preserves_bind (writes_only allowed)).
       - apply wr_downloadImageFromUrl. intros contentType. apply Hallowed.
         by exists contentType.
       - intros download. repeat wr_step allowed. }
  7: { apply (preserves_lift_bind (writes_only allowed)). intros desired Hdesired.
       apply (preserves_bind_with (writes_only allowed) _ _ _
                (resolveUniqueFileName_valid out name desired Hdesired)).
       - apply wr_resolveUniqueFileName.
       - intros filename Hvalid. cbv zeta.
         repeat first [ apply wr_add; apply Hallowed; by exists filename
                      | wr_step allowed ]. }
  9: { apply (preserves_lift_bind (writes_only allowed)). intros sessionPath Hpath.
       repeat first [ apply wr_add; apply Hallowed; exact Hpath | wr_step allowed ]. }
  all: repeat wr_step allowed.
Qed.

Lemma wr_run_actions l i total jobId d config out tmp :
  (forall action p, action ∈ l -> written_by config out tmp action p -> allowed p) ->
  preserves (writes_only allowed) (run_actions W l i total jobId d config out tmp).
Proof.
  revert i. induction l as [|action l IH]; intros i Hallowed; simpl run_actions.
  - apply (preserves_ret (writes_only allowed)).
  - repeat first
      [ apply IH; intros act q Hact Hq;
        apply (Hallowed act q); [by apply list_elem_of_further | exact Hq]
      | apply wr_executeAction; intros p Hp;
        apply (Hallowed action p); [apply list_elem_of_here | exact Hp]
      | wr_step allowed ].
Qed.

Lemma wr_start_job request config startedAt jobId :
  preserves (writes_only allowed) (start_job W request config startedAt jobId).
Proof.
  unfold start_job, ensureJobDirectories, hasSessionState. cbv zeta.
  repeat wr_step allowed.
Qed.

Lemma wr_cleanup_job : preserves (writes_only allowed) (cleanup_job W).
Proof.
  unfold cleanup_job.
  repeat first [ apply wr_remove; intros fs p Hp; by apply elem_of_filter in Hp as [_ Hp]
               | wr_step allowed ].
Qed.
End WritesOnlyJob.

(** X20.  A job adds files through its [screenshot], [uploadFromUrl] and
    [saveStorage] steps only.  Whether it succeeds or fails, every file
    there is when [runPlaywrightJob] is over was there before, or is a
    screenshot in the output directory of the job under a name that
    [validateArtifactFilename] accepts, or the download of an
    [uploadFromUrl] step of the request in the temporary directory of the
    job, or the state file of the session of a [saveStorage] step of the
    request. *)
Theorem runPlaywrightJob_writes_only `{JsRuntime} (W : World)
    (request : PlaywrightRunRequest) (config : PlaywrightRunnerConfig)
    (st st' : JobState) (r : Result JobOutcome) (p : string) :
  runPlaywrightJob W request config st = Some (r, st') ->
  p ∈ files st' ->
  p ∈ files st
  \/ exists action,
       action ∈ actions request
       /\ written_by config (Path.resolve [outputDir config; randomUUID W])
            (Path.resolve [tmpDir config; randomUUID W]) action p.
Proof.
  intros Hrun.
  set (allowed := fun p =>
         exists action,
           action ∈ actions request
           /\ written_by config (Path.resolve [outputDir config; randomUUID W])
                (Path.resolve [tmpDir config; randomUUID W]) action p).
  revert p. change (writes_only allowed st st'). revert st r st' Hrun.
  change (preserves (writes_only allowed) (runPlaywrightJob W request config)).
  unfold runPlaywrightJob. cbv zeta.
  apply (preserves_bind (writes_only allowed)); [apply wr_Date_now|]. intros startedAt.
  apply (preserves_bind (writes_only allowed)); [apply wr_same; intros; reflexivity|].
  intros _.
  apply (preserves_try_finally (writes_only allowed)); [|apply wr_cleanup_job].
  apply (preserves_try_catch (writes_only allowed)).
  - apply (preserves_bind_with (writes_only allowed) _ _ _ (start_job_value W _ _ _ _)).
    { apply wr_start_job. }
    intros [[deadline out] tmp] [Hout Htmp]. simpl in Hout, Htmp. subst out tmp.
    apply (preserves_bind (writes_only allowed)).
    { apply wr_run_actions. intros action p Haction Hwritten. by exists action. }
    intros _. repeat wr_step allowed.
  - intros e. repeat wr_step allowed.
Qed.

Lemma runPlaywrightJob_writes_only_witness :
  "/data/out/123e4567-e89b-42d3-a456-426614174000/shot-1.png" ∈ files Example.idle
  \/ exists action,
       action ∈ actions (Example.request 5000 Example.two_shots)
       /\ written_by (H := RefRuntime.runtime) Example.config
            (Path.resolve (H := RefRuntime.runtime)
               [outputDir Example.config; randomUUID Example.world])
            (Path.resolve (H := RefRuntime.runtime)
               [tmpDir Example.config; randomUUID Example.world])
            action "/data/out/123e4567-e89b-42d3-a456-426614174000/shot-1.png".
Proof.
  apply (runPlaywrightJob_writes_only (H := RefRuntime.runtime) Example.world
           (Example.request 5000 Example.two_shots) Example.config Example.idle
           Example.two_shots_done
           (Ok (Succeeded {| jobId := randomUUID Example.world; tookMs := 27 |}))).
  - vm_compute. reflexivity.
  - apply (bool_decide_unpack _). vm_compute. exact I.
Defined.

(** ** Jobs end *)

Section Ends.
Context `{JsRuntime} (W : World).

Lemma ends_ret {A} (a : A) : always_ends (mret a).
Proof. intros st. by eexists _, _. Qed.

Lemma ends_throw {A} (e : Exn) : always_ends (throw (A := A) e).
Proof. intros st. by eexists _, _. Qed.

Lemma ends_lift {A} (r : Result A) : always_ends (lift r).
Proof. intros st. by eexists _, _. Qed.

Lemma ends_get_state : always_ends get_state.
Proof. intros st. by eexists _, _. Qed.

Lemma ends_modify f : always_ends (modify f).
Proof. intros st. by eexists _, _. Qed.

Lemma ends_bind {A B} (m : M A) (k : A -> M B) :
  always_ends m -> (forall a, always_ends (k a)) -> always_ends (m ≫= k).
Proof.
  intros Hm Hk st. destruct (Hm st) as ([a|e] & s1 & Hrun).
  - rewrite (bind_ok _ _ _ _ _ Hrun). apply Hk.
  - rewrite (bind_throw _ _ _ _ _ Hrun). by eexists _, _.
Qed.

Lemma ends_bind_with {A B} (Q : A -> Prop) (m : M A) (k : A -> M B) :
  returns_with Q m -> always_ends m -> (forall a, Q a -> always_ends (k a)) ->
  always_ends (m ≫= k).
Proof.
  intros HQ Hm Hk st. destruct (Hm st) as ([a|e] & s1 & Hrun).
  - rewrite (bind_ok _ _ _ _ _ Hrun). apply Hk. exact (HQ _ _ _ Hrun).
  - rewrite (bind_throw _ _ _ _ _ Hrun). by eexists _, _.
Qed.

Lemma ends_lift_bind {A B} (r : Result A) (k : A -> M B) :
  (forall a, r = Ok a -> always_ends (k a)) -> always_ends (lift r ≫= k).
Proof.
  intros Hk st. unfold mbind, M_bind, lift. destruct r as [a|e].
  - by apply Hk.
  - by eexists _, _.
Qed.

Lemma ends_try_catch {A} (m : M A) (handler : Exn -> M A) :
  always_ends m -> (forall e, always_ends (handler e)) -> always_ends (try_catch m handler).
Proof.
  intros Hm Hh st. unfold try_catch. destruct (Hm st) as ([a|e] & s1 & ->).
  - by eexists _, _.
  - apply Hh.
Qed.

Lemma ends_try_finally {A} (m : M A) (cleanup : M unit) :
  always_ends m -> always_ends cleanup -> always_ends (try_finally m cleanup).
Proof.
  intros Hm Hc st. unfold try_finally. destruct (Hm st) as (r & s1 & ->).
  destruct (Hc s1) as ([u|e] & s2 & ->); by eexists _, _.
Qed.

Lemma ends_or_else {A} (m : M A) (fallback : A) :
  always_ends m -> always_ends (or_else m fallback).
Proof. intros Hm. apply ends_try_catch; [exact Hm|]. intros e. apply ends_ret. Qed.

Lemma ends_Date_now : always_ends (Date_now W).
Proof. intros st. rewrite Date_now_eq. by eexists _, _. Qed.

Lemma ends_appendLog msg : always_ends (appendLog W msg).
Proof. intros st. rewrite appendLog_eq. by eexists _, _. Qed.

Lemma ends_call c : always_ends (call W c).
Proof. intros st. destruct (call_spec W c st) as (st' & -> & _). by eexists _, _. Qed.

Lemma ends_call_fetch url timeoutMs : always_ends (call_fetch W url timeoutMs).
Proof.
  intros st. destruct (call_fetch_spec W url timeoutMs st) as (st' & -> & _).
  by eexists _, _.
Qed.

Lemma ends_fileExists p : always_ends (fileExists p).
Proof. intros st. rewrite fileExists_eq. by eexists _, _. Qed.
End Ends.

(** One step of a proof that a computation of the job ends. *)
Ltac ends_step W :=
  first
    [ apply ends_ret | apply ends_throw | apply ends_lift | apply ends_get_state
    | apply ends_modify | apply (ends_Date_now W) | apply (ends_appendLog W)
    | apply (ends_call W) | apply (ends_call_fetch W) | apply ends_fileExists
    | apply ends_or_else
    | apply ends_try_catch; [|intros]
    | apply ends_try_finally
    | apply ends_bind; [|intros]
    | match goal with
      | |- always_ends (if ?c then _ else _) => destruct c
      | |- always_ends (match ?x with _ => _ end) => destruct x
      end ].

(** The names tried for a file name of the shape [sanitizeArtifactFilename]
    returns are path segments, different from one another. *)
Lemma plain_candidate_name b e k :
  b <> EmptyString -> all is_safe_char (b +:+ e) = true -> toLowerCase e = ".png" ->
  plain_segment (candidate_name b e k).
Proof.
  intros Hb Hsafe He.
  assert (Hsafe' : all is_safe_char (candidate_name b e k) = true).
  { destruct k as [|k]; [exact Hsafe|]. unfold candidate_name.
    rewrite all_append in Hsafe. apply andb_prop in Hsafe as [Hsb Hse].
    by rewrite !all_append, Hsb, Hse, pretty_nat_safe. }
  assert (Hlen : (5 <= String.length (candidate_name b e k))%nat).
  { assert (He4 : String.length e = 4%nat) by (by rewrite <- (length_toLowerCase e), He).
    destruct b; [done|].
    destruct k as [|k]; unfold candidate_name; rewrite ?length_append, He4; simpl; lia. }
  repeat split; try (intros Heq; rewrite Heq in Hlen; simpl in Hlen; lia).
  by apply safe_free.
Qed.

Lemma candidate_name_inj b e : Inj (=) (=) (candidate_name b e).
Proof.
  intros [|i] [|j] Heq; unfold candidate_name in Heq.
  - done.
  - apply append_inv_head in Heq. apply (f_equal String.length) in Heq.
    rewrite append_cons, append_nil in Heq. cbn [String.length] in Heq.
    rewrite length_append in Heq. lia.
  - apply append_inv_head in Heq. apply (f_equal String.length) in Heq.
    rewrite append_cons, append_nil in Heq. cbn [String.length] in Heq.
    rewrite length_append in Heq. lia.
  - apply append_inv_head, append_inv_head, append_inv_tail in Heq.
    by apply (inj pretty) in Heq.
Qed.

(** As many files as there are names taken. *)
Lemma candidate_names_taken_size dir b e (fs : gset string) n :
  b <> EmptyString -> all is_safe_char (b +:+ e) = true -> toLowerCase e = ".png" ->
  (forall j, (j < n)%nat -> Path.join [dir; candidate_name b e j] ∈ fs) ->
  (n <= size fs)%nat.
Proof.
  intros Hb Hsafe He Htaken.
  set (l := (fun j => Path.join [dir; candidate_name b e j]) <$> seq 0 n).
  assert (Hdup : NoDup l).
  { apply NoDup_fmap_2; [|apply NoDup_seq].
    intros i j Heq. apply join_child_inj in Heq; [|by apply plain_candidate_name..].
    by apply (candidate_name_inj b e). }
  assert (Hsub : list_to_set (C := gset string) l ⊆ fs).
  { intros x Hx. apply elem_of_list_to_set, list_elem_of_fmap in Hx as (j & -> & Hj).
    apply elem_of_seq in Hj. apply Htaken. lia. }
  apply subseteq_size in Hsub. rewrite size_list_to_set in Hsub by done.
  unfold l in Hsub. by rewrite length_fmap, length_seq in Hsub.
Qed.

(** The loop of [resolveUniqueFileName] ends before its rounds are used up:
    the names it tries differ, and there are more rounds than files. *)
Lemma resolveUniqueFileName_loop_ends dir b e st rounds k :
  b <> EmptyString -> all is_safe_char (b +:+ e) = true -> toLowerCase e = ".png" ->
  (forall j, (j < k)%nat -> Path.join [dir; candidate_name b e j] ∈ files st) ->
  (size (files st) < rounds + k)%nat ->
  exists r st',
    resolveUniqueFileName_loop rounds dir b e (candidate_name b e k) (S k) st
    = Some (r, st').
Proof.
  intros Hb Hsafe He. revert k.
  induction rounds as [|rounds IH]; intros k Htaken Hsize.
  - pose proof (candidate_names_taken_size dir b e (files st) k Hb Hsafe He Htaken). lia.
  - rewrite resolveUniqueFileName_loop_unfold.
    rewrite (bind_ok _ _ _ _ _ (fileExists_eq _ _)).
    destruct (bool_decide_reflect (Path.join [dir; candidate_name b e k] ∈ files st))
      as [Hin|Hout]; [|by eexists _, _].
    apply (IH (S k)); [|lia].
    intros j Hj. destruct (decide (j = k)) as [->|Hne]; [exact Hin | apply Htaken; lia].
Qed.

Lemma resolveUniqueFileName_ends `{JsRuntime} dir name desired :
  Storage.sanitizeArtifactFilename name = Ok desired ->
  always_ends (resolveUniqueFileName dir desired).
Proof.
  intros Hdesired st.
  apply sanitizeArtifactFilename_shape in Hdesired as (b & e & -> & Hb & Hsafe & He).
  unfold resolveUniqueFileName. cbv zeta.
  rewrite (bind_ok get_state _ st st st eq_refl).
  rewrite (extname_append b e (safe_free _ Hsafe) Hb He).
  assert (Hext : eqb e EmptyString = false).
  { apply eqb_false. intros ->. discriminate He. }
  rewrite Hext, drop_end_append.
  apply (resolveUniqueFileName_loop_ends dir b e st (S (size (files st))) 0 Hb Hsafe He);
    [intros j Hj; lia | lia].
Qed.

Section EndsOfJob.
Context `{JsRuntime} (W : World).

Lemma ends_ensureTimeRemaining d name : always_ends (ensureTimeRemaining W d name).
Proof. unfold ensureTimeRemaining. cbv zeta. repeat ends_step W. Qed.

Lemma ends_resolveStepTimeout d r : always_ends (resolveStepTimeout W d r).
Proof. unfold resolveStepTimeout. cbv zeta. repeat ends_step W. Qed.

Lemma ends_downloadImageFromUrl url dir maxBytes timeoutMs allowed :
  always_ends (downloadImageFromUrl W url dir maxBytes timeoutMs allowed).
Proof. unfold downloadImageFromUrl, pipeline. cbv zeta. repeat ends_step W. Qed.

Lemma ends_executeAction action jobId d config out tmp :
  always_ends (executeAction W action jobId d config out tmp).
Proof.
  unfold executeAction, push_artifact, set_extracted, push_storage.
  apply ends_bind; [apply ends_ensureTimeRemaining|]. intros _.
  destruct action; cbv zeta.
  8: { (* screenshot: the file name has the shape for which the loop ends *)
       apply ends_lift_bind. intros desired Hdesired.
       apply ends_bind; [exact (resolveUniqueFileName_ends out name desired Hdesired)|].
       intros fileName. repeat first [apply ends_resolveStepTimeout | ends_step W]. }
  all: repeat first [ apply ends_downloadImageFromUrl | apply ends_ensureTimeRemaining
                    | apply ends_resolveStepTimeout | ends_step W ].
Qed.

Lemma ends_run_actions l i total jobId d config out tmp :
  always_ends (run_actions W l i total jobId d config out tmp).
Proof.
  revert i. induction l as [|action l IH]; intros i; simpl run_actions; [apply ends_ret|].
  repeat first [apply IH | apply ends_executeAction | ends_step W].
Qed.

Lemma ends_start_job request config startedAt jobId :
  always_ends (start_job W request config startedAt jobId).
Proof.
  unfold start_job, ensureJobDirectories, hasSessionState. cbv zeta.
  repeat ends_step W.
Qed.

Lemma ends_cleanup_job : always_ends (cleanup_job W).
Proof. intros st. destruct (cleanup_job_returns W st) as [st' ->]. by eexists _, _. Qed.

(** [runPlaywrightJob] ends, whatever the request and the world. *)
Lemma ends_runPlaywrightJob request config :
  always_ends (runPlaywrightJob W request config).
Proof.
  unfold runPlaywrightJob. cbv zeta.
  apply ends_bind; [apply ends_Date_now|]. intros startedAt.
  apply ends_bind; [apply ends_modify|]. intros _.
  apply ends_try_finally; [|apply ends_cleanup_job].
  apply ends_try_catch.
  - apply ends_bind; [apply ends_start_job|]. intros [[deadline out] tmp].
    apply ends_bind; [apply ends_run_actions|]. intros _.
    repeat ends_step W.
  - intros e. repeat ends_step W.
Qed.
End EndsOfJob.

(** What a job that has ended has ended in, in a world that fails with
    errors of its own only. *)
Lemma runPlaywrightJob_ended `{JsRuntime} (W : World) (request : PlaywrightRunRequest)
    (config : PlaywrightRunnerConfig) (st st' : JobState) (r : Result JobOutcome) :
  foreign_failures W ->
  runPlaywrightJob W request config st = Some (r, st') ->
  (exists result, r = Ok (Succeeded result) /\ jobId result = randomUUID W)
  \/ (exists failure,
        r = Ok (Failed failure)
        /\ job_status (je_statusCode failure)
        /\ je_jobId failure = randomUUID W).
Proof.
  intros Hforeign Hrun. unfold runPlaywrightJob in Hrun.
  rewrite (bind_ok _ _ _ _ _ (Date_now_eq W st)) in Hrun. cbv zeta in Hrun.
  rewrite (bind_ok (modify new_job) _ _ tt _ eq_refl) in Hrun.
  unfold try_finally in Hrun.
  match type of Hrun with
  | context [try_catch ?m ?h ?s] =>
      assert (Hmain : throws has_job_status m);
      [|assert (Hvalue : returns_with
                           (fun o => exists result,
                                o = Succeeded result /\ jobId result = randomUUID W) m);
        [|destruct (try_catch m h s) as [[r1 s1]|] eqn:Htry; [|done]]]
  end.
  - apply throws_bind; [by apply js_start_job|]. intros [[deadline out] tmp].
    apply throws_bind; [by apply js_run_actions|]. intros _.
    repeat js_step W Hforeign.
  - repeat (apply returns_with_seq; intros ?).
    destruct a as [[deadline out] tmp].
    repeat (apply returns_with_seq; intros ?).
    apply returns_with_ret. by eexists.
  - destruct (cleanup_job_returns W s1) as [s2 Hclean]. rewrite Hclean in Hrun.
    injection Hrun as <- <-.
    unfold try_catch in Htry.
    match type of Htry with
    | context [match ?m ?s with _ => _ end] => destruct (m s) as [[[o|e] s0]|] eqn:Em
    end; [| |done].
    + injection Htry as <- <-. left.
      destruct (Hvalue _ _ _ Em) as (result & -> & Hid). by exists result.
    + right. apply Hmain in Em.
      rewrite (bind_ok _ _ _ _ _ (Date_now_eq W s0)) in Htry. cbv zeta in Htry.
      rewrite (bind_ok _ _ _ _ _ (appendLog_eq W _ _)) in Htry.
      injection Htry as <- <-. eexists. split; [reflexivity|]. split; [exact Em | reflexivity].
Qed.



(** ** Two screenshots named [shot] *)

#[local] Instance keeps_preorder p q : PreOrder (keeps p q).
Proof.
  split.
  - intros st. split; [done|]. split; [done|]. exists []. by rewrite app_nil_r.
  - intros a b c (Hp1 & Hq1 & l1 & Ha1 & Ho1) (Hp2 & Hq2 & l2 & Ha2 & Ho2). unfold keeps.
    split; [by etrans|]. split; [by etrans|]. exists (l1 ++ l2).
    split; [by rewrite Ha2, Ha1, app_assoc | by apply Forall_app].
Qed.

Lemma keeps_same p q st st' :
  files st' = files st -> artifacts (outputs st') = artifacts (outputs st) -> keeps p q st st'.
Proof.
  intros Hf Ha. unfold keeps. rewrite Hf, Ha. split; [done|]. split; [done|].
  exists []. by rewrite app_nil_r.
Qed.

Lemma keeps_add p q f st :
  f <> p -> f <> q -> keeps p q st (set_files (fun fs => {[f]} ∪ fs) st).
Proof.
  intros Hp Hq. unfold keeps. simpl.
  rewrite !elem_of_union, !elem_of_singleton.
  split; [intuition congruence|]. split; [intuition congruence|].
  exists []. by rewrite app_nil_r.
Qed.

Lemma keeps_remove p q f st :
  f <> p -> f <> q -> keeps p q st (set_files (fun fs => fs ∖ {[f]}) st).
Proof.
  intros Hp Hq. unfold keeps. simpl.
  rewrite !elem_of_difference, !elem_of_singleton.
  split; [intuition congruence|]. split; [intuition congruence|].
  exists []. by rewrite app_nil_r.
Qed.

Lemma keeps_push p q a st :
  other_artifact a ->
  keeps p q st
    (set_outputs (fun o => {| artifacts := artifacts o ++ [a]; extracted := extracted o;
                              storage := storage o |}) st).
Proof.
  intros Ha. unfold keeps. simpl. split; [done|]. split; [done|].
  exists [a]. split; [reflexivity | by constructor].
Qed.

(** Two strings that end alike. *)
Lemma append_inj_length (a a' e e' : string) :
  a +:+ e = a' +:+ e' -> String.length e = String.length e' -> a = a' /\ e = e'.
Proof.
  intros Heq Hlen. apply (f_equal to_list) in Heq. rewrite !to_list_append in Heq.
  apply app_inj_2 in Heq as [Ha He]; [|by rewrite !length_to_list].
  apply (f_equal of_list) in Ha, He. by rewrite !of_list_to_list in Ha, He.
Qed.

(** A numbered name is [shot-1.png] only if it is made from [shot.png], and
    it is never [shot.png]. *)
Lemma numbered_not_shot b e (j : nat) :
  toLowerCase e = ".png" -> b +:+ e <> "shot.png" ->
  b +:+ "-" +:+ pretty j +:+ e <> "shot.png"
  /\ b +:+ "-" +:+ pretty j +:+ e <> "shot-1.png".
Proof.
  intros He Hdesired.
  assert (He4 : String.length e = 4%nat) by (by rewrite <- (length_toLowerCase e), He).
  assert (Hre : b +:+ "-" +:+ pretty j +:+ e = (b +:+ "-" +:+ pretty j) +:+ e).
  { by rewrite !append_assoc. }
  rewrite Hre. split; intros Heq.
  - apply (append_inj_length _ "shot" e ".png") in Heq as [Hb _]; [|by rewrite He4].
    destruct b as [|c1 [|c2 [|c3 [|c4 [|c5 b]]]]];
      cbn [String.append] in Hb; discriminate Hb.
  - apply (append_inj_length _ "shot-1" e ".png") in Heq as [Hb Hext]; [|by rewrite He4].
    destruct b as [|c1 [|c2 [|c3 [|c4 [|c5 [|c6 [|c7 b]]]]]]];
      cbn [String.append] in Hb; try discriminate Hb.
    injection Hb; intros; subst. by apply Hdesired.
Qed.

(** The names [resolveUniqueFileName] can return for [b.png]. *)
Lemma resolveUniqueFileName_names dir b e st f st' :
  b <> EmptyString -> all is_safe_char (b +:+ e) = true -> toLowerCase e = ".png" ->
  resolveUniqueFileName dir (b +:+ e) st = Some (Ok f, st') ->
  f = b +:+ e \/ exists j : nat, f = b +:+ "-" +:+ pretty j +:+ e.
Proof.
  intros Hb Hsafe He. unfold resolveUniqueFileName. cbv zeta.
  rewrite (bind_ok get_state _ st st st eq_refl).
  rewrite (extname_append b e (safe_free _ Hsafe) Hb He).
  assert (Hext : eqb e EmptyString = false).
  { apply eqb_false. intros ->. discriminate He. }
  rewrite Hext, drop_end_append. intros Hrun.
  by apply resolveUniqueFileName_loop_shape in Hrun as [Hname _].
Qed.

(** A screenshot whose name does not make [shot.png] or [shot-1.png] is
    stored under neither name. *)
Lemma resolveUniqueFileName_other `{JsRuntime} dir name desired :
  Storage.sanitizeArtifactFilename name = Ok desired ->
  desired <> "shot.png" -> desired <> "shot-1.png" ->
  returns_with (fun f => plain_segment f /\ f <> "shot.png" /\ f <> "shot-1.png")
    (resolveUniqueFileName dir desired).
Proof.
  intros Hdesired Hn1 Hn2 st f st' Hrun.
  apply sanitizeArtifactFilename_shape in Hdesired as (b & e & -> & Hb & Hsafe & He).
  split.
  - destruct (resolveUniqueFileName_shape dir b e st f st' Hb Hsafe He Hrun)
      as (_ & _ & b' & -> & Hb' & Hsafe').
    by apply validateArtifactFilename_plain, validateArtifactFilename_png.
  - destruct (resolveUniqueFileName_names dir b e st f st' Hb Hsafe He Hrun)
      as [->|[j ->]]; [done|].
    by apply numbered_not_shot.
Qed.

Section Keeps.
Context `{JsRuntime} (W : World) (p q : string).

Lemma kp_Date_now : preserves (keeps p q) (Date_now W).
Proof. apply (preserves_Date_now (keeps p q)). intros st. by apply keeps_same. Qed.

Lemma kp_appendLog msg : preserves (keeps p q) (appendLog W msg).
Proof.
  apply (preserves_appendLog (keeps p q) (fun _ => True));
    first [done | intros; by apply keeps_same].
Qed.

Lemma kp_call c : preserves (keeps p q) (call W c).
Proof.
  apply (preserves_call (keeps p q) (fun _ => True));
    first [done | intros; by apply keeps_same].
Qed.

Lemma kp_call_fetch url t : preserves (keeps p q) (call_fetch W url t).
Proof.
  apply (preserves_call_fetch (keeps p q) (fun _ => True));
    first [done | intros; by apply keeps_same].
Qed.

Lemma kp_fileExists f : preserves (keeps p q) (fileExists f).
Proof. apply (preserves_fileExists (keeps p q)). Qed.

Lemma kp_ensureTimeRemaining d name : preserves (keeps p q) (ensureTimeRemaining W d name).
Proof.
  apply (preserves_ensureTimeRemaining (keeps p q)). intros st. by apply keeps_same.
Qed.

Lemma kp_resolveStepTimeout d r : preserves (keeps p q) (resolveStepTimeout W d r).
Proof.
  apply (preserves_resolveStepTimeout (keeps p q)). intros st. by apply keeps_same.
Qed.
End Keeps.

Ltac kp_step p q :=
  first
    [ apply kp_Date_now | apply kp_call | apply kp_call_fetch | apply kp_fileExists
    | apply kp_ensureTimeRemaining | apply kp_resolveStepTimeout | apply kp_appendLog
    | apply (preserves_modify (keeps p q)); intros; by apply keeps_same
    | frame_step (keeps p q) ].

Section KeepsJob.
Context `{JsRuntime} (W : World) (p q : string).

Lemma kp_downloadImageFromUrl url dir maxBytes timeoutMs allowed :
  (forall ext, ext ∈ IMAGE_EXTENSIONS ->
               Path.join [dir; createSafeFileName url ext] <> p
               /\ Path.join [dir; createSafeFileName url ext] <> q) ->
  preserves (keeps p q) (downloadImageFromUrl W url dir maxBytes timeoutMs allowed).
Proof.
  intros Hspare. unfold downloadImageFromUrl, pipeline. cbv zeta.
  repeat first
    [ apply (preserves_modify (keeps p q)); intros;
      first [ apply keeps_add | apply keeps_remove ];
      apply Hspare, mapImageExtension_in
    | kp_step p q ].
Qed.

Lemma kp_resolveUniqueFileName_loop rounds dir base ext candidate counter :
  preserves (keeps p q) (resolveUniqueFileName_loop rounds dir base ext candidate counter).
Proof.
  revert candidate counter. induction rounds as [|rounds IH]; intros candidate counter;
    simpl; [apply (preserves_diverge (keeps p q))|].
  apply (preserves_bind (keeps p q)); [apply kp_fileExists|].
  intros [|]; [apply IH | apply (preserves_ret (keeps p q))].
Qed.

Lemma kp_resolveUniqueFileName dir name :
  preserves (keeps p q) (resolveUniqueFileName dir name).
Proof.
  unfold resolveUniqueFileName. cbv zeta.
  apply (preserves_bind (keeps p q)); [apply (preserves_get_state _)|].
  intros st. apply kp_resolveUniqueFileName_loop.
Qed.

Lemma kp_executeAction action jobId d config out tmp :
  p = Path.join [out; "shot.png"] -> q = Path.join [out; "shot-1.png"] ->
  spares config tmp p q action = true ->
  preserves (keeps p q) (executeAction W action jobId d config out tmp).
Proof.
  intros Hp Hq Hspares. unfold executeAction, set_extracted, push_storage.
  apply (preserves_bind (keeps p q)); [apply kp_ensureTimeRemaining|]. intros _.
  destruct action; cbv zeta.
  1-6, 9-10, 12: repeat kp_step p q.
  - (* uploadFromUrl *)
    apply (preserves_bind (keeps p q)); [apply kp_resolveStepTimeout|]. intros t.
    apply (preserves_bind (keeps p q)); [|intros; repeat kp_step p q].
    apply kp_downloadImageFromUrl. intros ext Hext.
    unfold spares in Hspares. rewrite forallb_forall in Hspares.
    specialize (Hspares ext (proj1 (list_elem_of_In _ _) Hext)).
    cbv zeta in Hspares. apply andb_prop in Hspares as [Hfp Hfq].
    apply negb_true_iff in Hfp, Hfq. by rewrite eqb_false in Hfp, Hfq.
  - (* screenshot: under another name than the two *)
    unfold spares in Hspares.
    apply (preserves_lift_bind (keeps p q)). intros desired Hdesired.
    rewrite Hdesired in Hspares. apply andb_prop in Hspares as [Hn1 Hn2].
    apply negb_true_iff in Hn1, Hn2. rewrite eqb_false in Hn1, Hn2.
    apply (preserves_bind_with (keeps p q) _ _ _
             (resolveUniqueFileName_other out name desired Hdesired Hn1 Hn2)).
    { apply kp_resolveUniqueFileName. }
    intros fileName (Hplain & Hf1 & Hf2). cbv zeta.
    assert (Hfp : Path.join [out; fileName] <> p).
    { rewrite Hp. intros Heq. apply join_child_inj in Heq; [done | done | apply plain_shot]. }
    assert (Hfq : Path.join [out; fileName] <> q).
    { rewrite Hq. intros Heq.
      apply join_child_inj in Heq; [done | done | apply plain_shot_1]. }
    unfold push_artifact.
    repeat first
      [ apply (preserves_modify (keeps p q)); intros;
        first [ by apply keeps_add | apply keeps_push; by split ]
      | kp_step p q ].
  - (* saveStorage *)
    unfold spares in Hspares.
    apply (preserves_lift_bind (keeps p q)). intros path Hpath.
    rewrite Hpath in Hspares.
    apply andb_prop in Hspares as [Hfp Hfq].
    apply negb_true_iff in Hfp, Hfq. rewrite eqb_false in Hfp, Hfq.
    repeat first
      [ apply (preserves_modify (keeps p q)); intros; by apply keeps_add
      | kp_step p q ].
Qed.
End KeepsJob.


Section KeepsLoop.
Context `{JsRuntime} (W : World) (p q : string).

Lemma kp_start_job request config startedAt jobId :
  preserves (keeps p q) (start_job W request config startedAt jobId).
Proof.
  unfold start_job, ensureJobDirectories, hasSessionState. cbv zeta.
  repeat kp_step p q.
Qed.

Lemma kp_run_actions l i total jobId d config out tmp :
  p = Path.join [out; "shot.png"] -> q = Path.join [out; "shot-1.png"] ->
  forallb (spares config tmp p q) l = true ->
  preserves (keeps p q) (run_actions W l i total jobId d config out tmp).
Proof.
  intros Hp Hq. revert i. induction l as [|action l IH]; intros i Hl; simpl run_actions.
  - apply (preserves_ret (keeps p q)).
  - simpl in Hl. apply andb_prop in Hl as [Haction Hl].
    apply (preserves_bind (keeps p q)); [apply kp_Date_now|]. intros t0.
    apply (preserves_bind (keeps p q)); [apply kp_appendLog|]. intros _.
    apply (preserves_bind (keeps p q)).
    { apply (preserves_try_catch (keeps p q)); [by apply kp_executeAction|].
      intros e. apply (preserves_throw (keeps p q)). }
    intros _.
    apply (preserves_bind (keeps p q)); [apply kp_Date_now|]. intros t1.
    apply (preserves_bind (keeps p q)); [apply kp_appendLog|]. intros _.
    by apply IH.
Qed.
End KeepsLoop.

(** C8 (as stated, refuted).  A job with two screenshot actions named
    [shot] after one named [shot-1], started in an empty directory: it
    succeeds, the first screenshot named [shot] is stored as [shot.png], and
    the second as [shot-2.png], not as [shot-1.png], the name the earlier
    screenshot has taken. *)
Lemma runPlaywrightJob_second_shot_named_shot_2 :
  match runPlaywrightJob (H := RefRuntime.runtime) Example.world
          (Example.request 5000 Example.three_shots) Example.config Example.idle with
  | Some (Ok (Succeeded _), st') =>
      map (fun a => (a_name a, a_filename a)) (artifacts (outputs st'))
      = [("shot-1", "shot-1.png"); ("shot", "shot.png"); ("shot", "shot-2.png")]
  | _ => False
  end.
Proof. vm_compute. reflexivity. Qed.

(** C8 (amended).  A job with two screenshot actions named [shot] in which
    no other step writes [shot.png] or [shot-1.png] of the job's output
    directory (no other screenshot whose name makes one of these two file
    names, no upload from a URL and no [saveStorage] with such a path),
    started when neither file exists: when it succeeds, the first of the two
    is stored as [shot.png] and the second as [shot-1.png], and
    [outputs.artifacts] holds their two records in call order, the records
    of the other screenshots, all under other file names, around them. *)
Theorem runPlaywrightJob_two_screenshots_named_shot `{JsRuntime} (W : World)
    (request : PlaywrightRunRequest) (config : PlaywrightRunnerConfig)
    (before between after : list PlaywrightAction) (fullPage1 fullPage2 : option bool)
    (st st' : JobState) (result : PlaywrightRunResult) :
  let jobId := randomUUID W in
  let out := Path.resolve [outputDir config; jobId] in
  let tmp := Path.resolve [tmpDir config; jobId] in
  let p := Path.join [out; "shot.png"] in
  let q := Path.join [out; "shot-1.png"] in
  actions request
  = before ++ ScreenshotAction "shot" fullPage1
      :: between ++ ScreenshotAction "shot" fullPage2 :: after ->
  forallb (spares config tmp p q) (before ++ between ++ after) = true ->
  p ∉ files st -> q ∉ files st ->
  runPlaywrightJob W request config st = Some (Ok (Succeeded result), st') ->
  exists others0 others1 others2,
    artifacts (outputs st')
    = others0 ++ shot_artifact config jobId "shot.png"
        :: others1 ++ shot_artifact config jobId "shot-1.png" :: others2
    /\ Forall other_artifact (others0 ++ others1 ++ others2).
Proof.
  intros jobId out tmp p q Hactions Hspares Hp Hq Hrun.
  rewrite !forallb_app in Hspares.
  apply andb_prop in Hspares as [Hbefore Hspares].
  apply andb_prop in Hspares as [Hbetween Hafter].
  unfold runPlaywrightJob in Hrun.
  rewrite (bind_ok _ _ _ _ _ (Date_now_eq W st)) in Hrun. cbv zeta in Hrun.
  rewrite (bind_ok (modify new_job) _ _ tt _ eq_refl) in Hrun.
  apply try_finally_ok_inv in Hrun as (s_end & Hmain & Hclean).
  apply (sa_cleanup_job W) in Hclean. rewrite Hclean. clear Hclean.
  apply try_catch_ok_inv in Hmain as [Hmain|(e & s1 & _ & Hfailed)].
  2: { rewrite (bind_ok _ _ _ _ _ (Date_now_eq W s1)) in Hfailed. cbv zeta in Hfailed.
       rewrite (bind_ok _ _ _ _ _ (appendLog_eq W _ _)) in Hfailed. by inversion Hfailed. }
  apply bind_inv in Hmain as [([[deadline o] t] & s0 & Hstart & Hmain)|(e & _ & [=])].
  destruct (start_job_value W _ _ _ _ _ _ _ Hstart) as [Ho Ht].
  simpl in Ho, Ht. subst o t. fold jobId out tmp in Hmain.
  apply (kp_start_job W p q) in Hstart as (Hp0 & Hq0 & l0 & Ha0 & Hl0).
  change (p ∈ files s0 <-> p ∈ files st) in Hp0.
  change (q ∈ files s0 <-> q ∈ files st) in Hq0.
  change (artifacts (outputs s0) = l0) in Ha0.
  apply bind_inv in Hmain as [([] & s5 & Hloop & Htail)|(e & _ & [=])].
  apply (sa_close_job W) in Htail. rewrite Htail. clear Htail.
  rewrite Hactions in Hloop.
  apply run_actions_app_inv in Hloop as (s1 & Hpre & Hloop).
  apply run_actions_cons_inv
    in Hloop as (sa & sb & sc & Hfa & Hoa & Hshot1 & Hfc & Hoc & Hloop).
  apply run_actions_app_inv in Hloop as (s2 & Hmid & Hloop).
  apply run_actions_cons_inv
    in Hloop as (sa' & sb' & sc' & Hfa' & Hoa' & Hshot2 & Hfc' & Hoc' & Hpost).
  apply (kp_run_actions W p q _ _ _ _ _ _ _ _ eq_refl eq_refl Hbefore)
    in Hpre as (Hp1 & Hq1 & l1 & Ha1 & Hl1).
  apply (kp_run_actions W p q _ _ _ _ _ _ _ _ eq_refl eq_refl Hbetween)
    in Hmid as (Hp2 & Hq2 & l2 & Ha2 & Hl2).
  apply (kp_run_actions W p q _ _ _ _ _ _ _ _ eq_refl eq_refl Hafter)
    in Hpost as (_ & _ & l3 & Ha3 & Hl3).
  assert (Hpq : p <> q).
  { intros Heq. by apply join_child_inj in Heq; [|apply plain_shot|apply plain_shot_1]. }
  apply screenshot_first in Hshot1 as [Hfb Hab]; [|rewrite Hfa; tauto].
  apply screenshot_second in Hshot2 as Hab'.
  - exists (l0 ++ l1), l2, l3. split.
    + rewrite Ha3, Hoc', Hab', Hoa', Ha2, Hoc, Hab, Hoa, Ha1, Ha0.
      by rewrite <- !app_assoc.
    + rewrite !Forall_app. tauto.
  - rewrite Hfa'. apply Hp2. rewrite Hfc, Hfb.
    by apply elem_of_union_l, elem_of_singleton.
  - rewrite Hfa'. intros Hin. apply Hq2 in Hin. rewrite Hfc, Hfb, Hfa in Hin.
    apply elem_of_union in Hin as [Hin|Hin]; [|tauto].
    apply elem_of_singleton in Hin. exact (Hpq (eq_sym Hin)).
Qed.

Lemma runPlaywrightJob_two_screenshots_named_shot_witness :
  exists others0 others1 others2,
    artifacts (outputs Example.mixed_shots_done)
    = others0 ++ shot_artifact Example.config (randomUUID Example.world) "shot.png"
        :: others1 ++ shot_artifact Example.config (randomUUID Example.world) "shot-1.png"
        :: others2
    /\ Forall other_artifact (others0 ++ others1 ++ others2).
Proof.
  apply (runPlaywrightJob_two_screenshots_named_shot (H := RefRuntime.runtime) Example.world
           (Example.request 5000 Example.mixed_shots) Example.config
           [GotoAction "https://example.com" None; ScreenshotAction "home" None]
           [ClickAction "#a" None] [ScreenshotAction "Shot" None]
           None (Some true) Example.idle Example.mixed_shots_done
           {| jobId := randomUUID Example.world; tookMs := 39 |}).
  - reflexivity.
  - vm_compute. reflexivity.
  - apply not_elem_of_empty.
  - apply not_elem_of_empty.
  - vm_compute. reflexivity.
Defined.
